(** * pto3-go: entity model, wire codec, condition cache and persistence

    A shallow embedding of [model.go] (entities, JSON codec, inserts,
    derived count, batch reading and writing), of the condition cache (the
    file that declares [ConditionCache]) and of the observation codec of
    [orm.go], followed by what holds of them.

    Conventions of the embedding.
    - Go's [int] is [Z]; a nil [error] is [None].
    - A slice is [option (list A)]: [None] is the nil slice, which the code
      tells apart from an empty one ([set.Sources == nil]).
    - A Go map is a [gmap]; [m[k]] on an absent key reads the zero value.
      Ranging over a map may visit its entries in any order ([MapRange]).
    - Methods with pointer receivers take the receiver and return it updated.
    - The database handle [orm.DB] is an explicit store value threaded
      through every call, together with a fault schedule that says which of
      the coming statements fails.
    - The codec is modelled between the calls of [json.Marshal] and
      [json.Unmarshal]: on the values handed to the one and filled in by the
      other.
    - [AsString] and [AsStringArray] are not part of the given sources: the
      codec takes them as parameters ([Helpers]). *)

From Stdlib Require Import ZArith String Ascii List Bool Lia.
From Stdlib Require Import Decimal DecimalString DecimalPos DecimalZ.
From stdpp Require Import gmap strings list fin_maps sorting.

Local Open Scope Z_scope.

(** ** Slices *)

Definition slice (A : Type) : Type := option (list A).

Definition elems {A : Type} (s : slice A) : list A := default [] s.

(** [make([]T, n)] filled by [f]: never nil, also when [n] is 0. *)
Definition make_slice {A B : Type} (f : A → B) (l : list A) : slice B :=
  Some (f <$> l).

(** ** Errors

    [errors_New] stands for the values built by [errors.New] and
    [fmt.Errorf]: a message and nothing else.  [driver_error] is whatever the
    database handle returned for a failed statement. *)

Inductive error : Type :=
| errors_New (msg : string)
| driver_error
| NumError (func num : string) (out_of_range : bool)
| ParseError (value : string)
| PTOError (msg : string) (status : Z)
| PTOWrapError (err : error).

(** Modelled from the spec: [PTOErrorf], [StatusIs] and [PTOWrapError] are
    declared outside the given sources.  The spec asks that referential and
    not-found errors be client-input errors, distinguishable from store
    errors; [PTOErrorf(msg).StatusIs(status)] is the value [PTOError msg
    status], and the caller tells a client-input error by its 4xx status. *)
Definition client_input_error (e : error) : bool :=
  match e with
  | PTOError _ status => (400 <=? status) && (status <? 500)
  | _ => false
  end.

Definition StatusBadRequest : Z := 400.

(** ** Entities *)

Module Condition.
Record t : Type := mk { ID : Z; Name : string }.
Definition with_ID (id : Z) (c : t) : t := mk id (Name c).
End Condition.

Module Path.
Record t : Type := mk { ID : Z; String : string }.
Definition with_ID (id : Z) (p : t) : t := mk id (String p).
End Path.

Module ObservationSet.
Record t : Type := mk {
  ID : Z;
  Sources : slice string;
  Analyzer : string;
  Conditions : slice Condition.t;
  conditionDeclared : option (gmap Z bool);
  Metadata : gmap string string;
  datalink : string;
  link : string;
  count : Z
}.

Definition with_ID (id : Z) (s : t) : t :=
  mk id (Sources s) (Analyzer s) (Conditions s) (conditionDeclared s)
     (Metadata s) (datalink s) (link s) (count s).
Definition with_Sources (v : slice string) (s : t) : t :=
  mk (ID s) v (Analyzer s) (Conditions s) (conditionDeclared s)
     (Metadata s) (datalink s) (link s) (count s).
Definition with_Analyzer (v : string) (s : t) : t :=
  mk (ID s) (Sources s) v (Conditions s) (conditionDeclared s)
     (Metadata s) (datalink s) (link s) (count s).
Definition with_Conditions (v : slice Condition.t) (s : t) : t :=
  mk (ID s) (Sources s) (Analyzer s) v (conditionDeclared s)
     (Metadata s) (datalink s) (link s) (count s).
Definition with_conditionDeclared (v : option (gmap Z bool)) (s : t) : t :=
  mk (ID s) (Sources s) (Analyzer s) (Conditions s) v
     (Metadata s) (datalink s) (link s) (count s).
Definition with_Metadata (v : gmap string string) (s : t) : t :=
  mk (ID s) (Sources s) (Analyzer s) (Conditions s) (conditionDeclared s)
     v (datalink s) (link s) (count s).
Definition with_count (v : Z) (s : t) : t :=
  mk (ID s) (Sources s) (Analyzer s) (Conditions s) (conditionDeclared s)
     (Metadata s) (datalink s) (link s) v.

(** The zero value [ObservationSet{}]. *)
Definition zero : t := mk 0 None "" None None ∅ "" "" 0.
End ObservationSet.

(** A [time.Time] is represented by the UTC calendar reading of its instant
    and its nanoseconds; the location is not represented ([MarshalJSON]
    calls [UTC()] before formatting). *)
Module Time.
Record t : Type := mk {
  year : Z; month : Z; day : Z;
  hour : Z; minute : Z; second : Z;
  nanosecond : Z
}.
(** The zero value [time.Time{}]: January 1, year 1, 00:00:00 UTC. *)
Definition zero : t := mk 1 1 1 0 0 0 0.
End Time.

Module Observation.
(** [Path] and [Condition] are pointers: [None] is nil.  The borrowed
    pointer [Set] is not kept: the parent set is passed alongside and
    returned updated. *)
Record t : Type := mk {
  ID : Z;
  SetID : Z;
  Start : Time.t;
  End_ : Time.t;
  PathID : Z;
  Path : option Path.t;
  ConditionID : Z;
  Condition : option Condition.t;
  Value : Z
}.
Definition with_ID (v : Z) (o : t) : t :=
  mk v (SetID o) (Start o) (End_ o) (PathID o) (Path o) (ConditionID o)
     (Condition o) (Value o).
Definition with_SetID (v : Z) (o : t) : t :=
  mk (ID o) v (Start o) (End_ o) (PathID o) (Path o) (ConditionID o)
     (Condition o) (Value o).
Definition with_Start (v : Time.t) (o : t) : t :=
  mk (ID o) (SetID o) v (End_ o) (PathID o) (Path o) (ConditionID o)
     (Condition o) (Value o).
Definition with_End (v : Time.t) (o : t) : t :=
  mk (ID o) (SetID o) (Start o) v (PathID o) (Path o) (ConditionID o)
     (Condition o) (Value o).
Definition with_PathID (v : Z) (o : t) : t :=
  mk (ID o) (SetID o) (Start o) (End_ o) v (Path o) (ConditionID o)
     (Condition o) (Value o).
Definition with_Path (v : option Path.t) (o : t) : t :=
  mk (ID o) (SetID o) (Start o) (End_ o) (PathID o) v (ConditionID o)
     (Condition o) (Value o).
Definition with_ConditionID (v : Z) (o : t) : t :=
  mk (ID o) (SetID o) (Start o) (End_ o) (PathID o) (Path o) v
     (Condition o) (Value o).
Definition with_Condition (v : option Condition.t) (o : t) : t :=
  mk (ID o) (SetID o) (Start o) (End_ o) (PathID o) (Path o) (ConditionID o)
     v (Value o).
Definition with_Value (v : Z) (o : t) : t :=
  mk (ID o) (SetID o) (Start o) (End_ o) (PathID o) (Path o) (ConditionID o)
     (Condition o) v.
(** The zero value [Observation{}]. *)
Definition zero : t := mk 0 0 Time.zero Time.zero 0 None 0 None 0.
End Observation.

(** ** The store

    The five tables of [CreateTables], a fault schedule and a count of the
    statements issued.  [failing = Some k] says that the statement issued
    after [k] further ones fails (with [driver_error], writing nothing);
    [None] says none fails. *)

Record ObservationSetRow : Type := mkSetRow {
  row_id : Z;
  row_sources : slice string;
  row_analyzer : string;
  row_metadata : gmap string string
}.

Record ObservationRow : Type := mkObsRow {
  obs_id : Z;
  obs_set_id : Z;
  obs_start : Time.t;
  obs_end : Time.t;
  obs_path_id : Z;
  obs_condition_id : Z;
  obs_value : Z
}.

Record Tables : Type := mkTables {
  conditions : list Condition.t;
  paths : list Path.t;
  observation_sets : list ObservationSetRow;
  observations : list ObservationRow;
  observation_set_to_conditions : list (Z * Z)
}.

Record DB : Type := mkDB {
  tables : Tables;
  failing : option nat;
  issued : nat
}.

(** A generated key: larger than every key in use, and never 0. *)
Definition fresh_id (used : list Z) : Z := 1 + foldr Z.max 0 used.

(** Issue one statement: the flag tells whether it goes through. *)
Definition statement (db : DB) : DB * bool :=
  match failing db with
  | Some O => (mkDB (tables db) None (S (issued db)), false)
  | Some (S k) => (mkDB (tables db) (Some k) (S (issued db)), true)
  | None => (mkDB (tables db) None (S (issued db)), true)
  end.

Definition write (db : DB) (t : Tables) : DB :=
  mkDB t (failing db) (issued db).

(** [db.Model(c).Column("id").Where("name=?name").Returning("id").SelectOrInsert()] *)
Definition SelectOrInsert_condition (db : DB) (c : Condition.t)
  : DB * Condition.t * option error :=
  let '(db, ok) := statement db in
  if ok then
    let T := tables db in
    match find (λ r, String.eqb (Condition.Name r) (Condition.Name c)) (conditions T) with
    | Some r => (db, Condition.with_ID (Condition.ID r) c, None)
    | None =>
        let c' := Condition.with_ID (fresh_id (Condition.ID <$> conditions T)) c in
        (write db (mkTables (conditions T ++ [c']) (paths T) (observation_sets T)
                            (observations T) (observation_set_to_conditions T)),
         c', None)
    end
  else (db, c, Some driver_error).

(** [db.Model(p).Column("id").Where("string=?string").Returning("id").SelectOrInsert()] *)
Definition SelectOrInsert_path (db : DB) (p : Path.t)
  : DB * Path.t * option error :=
  let '(db, ok) := statement db in
  if ok then
    let T := tables db in
    match find (λ r, String.eqb (Path.String r) (Path.String p)) (paths T) with
    | Some r => (db, Path.with_ID (Path.ID r) p, None)
    | None =>
        let p' := Path.with_ID (fresh_id (Path.ID <$> paths T)) p in
        (write db (mkTables (conditions T) (paths T ++ [p']) (observation_sets T)
                            (observations T) (observation_set_to_conditions T)),
         p', None)
    end
  else (db, p, Some driver_error).

(** [db.Insert(set)] for a set whose id is 0: the row gets a generated id,
    which is written back into the struct. *)
Definition Insert_set (db : DB) (set : ObservationSet.t)
  : DB * ObservationSet.t * option error :=
  let '(db, ok) := statement db in
  if ok then
    let T := tables db in
    let id := fresh_id (row_id <$> observation_sets T) in
    let row := mkSetRow id (ObservationSet.Sources set) (ObservationSet.Analyzer set)
                        (ObservationSet.Metadata set) in
    (write db (mkTables (conditions T) (paths T) (observation_sets T ++ [row])
                        (observations T) (observation_set_to_conditions T)),
     ObservationSet.with_ID id set, None)
  else (db, set, Some driver_error).

(** [db.Exec("INSERT INTO observation_set_to_conditions VALUES (?, ?)", set_id, condition_id)] *)
Definition Exec_insert_link (db : DB) (set_id condition_id : Z) : DB * option error :=
  let '(db, ok) := statement db in
  if ok then
    let T := tables db in
    (write db (mkTables (conditions T) (paths T) (observation_sets T) (observations T)
                        (observation_set_to_conditions T ++ [(set_id, condition_id)])),
     None)
  else (db, Some driver_error).

(** [db.Model(&Observation{}).Where("set_id = ?", id).Count()]; on failure
    the count returned is 0. *)
Definition Count_observations (db : DB) (set_id : Z) : DB * Z * option error :=
  let '(db, ok) := statement db in
  if ok then
    (db,
     Z.of_nat (length (filter (λ r, obs_set_id r = set_id) (observations (tables db)))),
     None)
  else (db, 0, Some driver_error).

(** [db.Model(&conditions).Select()] *)
Definition Select_conditions (db : DB) : DB * list Condition.t * option error :=
  let '(db, ok) := statement db in
  if ok then (db, conditions (tables db), None)
  else (db, [], Some driver_error).

(** ** [ObservationSet.Insert] (model.go) *)

(** The loop [for i := range set.Conditions { db.Exec(...) }]. *)
Fixpoint insert_links (db : DB) (set_id : Z) (cs : list Condition.t)
  : DB * option error :=
  match cs with
  | [] => (db, None)
  | c :: cs =>
      let '(db, err) := Exec_insert_link db set_id (Condition.ID c) in
      match err with
      | Some e => (db, Some e)
      | None => insert_links db set_id cs
      end
  end.

Definition ObservationSet_Insert (db : DB) (set : ObservationSet.t) (force : bool)
  : DB * ObservationSet.t * option error :=
  let set := if force then ObservationSet.with_ID 0 set else set in
  if decide (ObservationSet.ID set = 0) then
    (* main insertion *)
    let '(db, set, err) := Insert_set db set in
    match err with
    | Some e => (db, set, Some e)
    | None =>
        (* now insert obset/condition links *)
        let '(db, err) :=
          insert_links db (ObservationSet.ID set)
                       (elems (ObservationSet.Conditions set)) in
        (db, set, err)
    end
  else (db, set, None).

(** [db.Insert(obs)]: a zero id asks for a generated one; a key already in
    use is refused by the store. *)
Definition Insert_observation (db : DB) (obs : Observation.t)
  : DB * Observation.t * option error :=
  let '(db, ok) := statement db in
  if ok then
    let T := tables db in
    let id := if decide (Observation.ID obs = 0)
              then fresh_id (obs_id <$> observations T)
              else Observation.ID obs in
    if bool_decide (id ∈ obs_id <$> observations T) then (db, obs, Some driver_error)
    else
      let row := mkObsRow id (Observation.SetID obs) (Observation.Start obs)
                          (Observation.End_ obs) (Observation.PathID obs)
                          (Observation.ConditionID obs) (Observation.Value obs) in
      (write db (mkTables (conditions T) (paths T) (observation_sets T)
                          (observations T ++ [row]) (observation_set_to_conditions T)),
       Observation.with_ID id obs, None)
  else (db, obs, Some driver_error).

(** ** [InsertOnce] (model.go) *)

Definition Condition_InsertOnce (db : DB) (c : Condition.t)
  : DB * Condition.t * option error :=
  if decide (Condition.ID c = 0) then SelectOrInsert_condition db c
  else (db, c, None).

Definition Path_InsertOnce (db : DB) (p : Path.t) : DB * Path.t * option error :=
  if decide (Path.ID p = 0) then SelectOrInsert_path db p
  else (db, p, None).

(** ** [Observation.InsertInSet] (model.go) *)

(** [make(map[int]bool)] filled from [set.Conditions]. *)
Definition declare_conditions (cs : list Condition.t) : gmap Z bool :=
  foldl (λ m c, <[Condition.ID c := true]> m) ∅ cs.

Definition declared (m : gmap Z bool) (id : Z) : bool := default false (m !! id).

(** The result is [None] when the call panics on a nil [obs.Path] or
    [obs.Condition]. *)
Definition Observation_InsertInSet (db : DB) (obs : Observation.t) (set : ObservationSet.t)
  : option (DB * Observation.t * ObservationSet.t * option error) :=
  let m := match ObservationSet.conditionDeclared set with
           | None => declare_conditions (elems (ObservationSet.Conditions set))
           | Some m => m
           end in
  let set := ObservationSet.with_conditionDeclared (Some m) set in
  p ← Observation.Path obs;
  let '(db, p, err) := Path_InsertOnce db p in
  let obs := Observation.with_Path (Some p) obs in
  match err with
  | Some e => Some (db, obs, set, Some e)
  | None =>
      let obs := Observation.with_PathID (Path.ID p) obs in
      c ← Observation.Condition obs;
      let '(db, c, err) := Condition_InsertOnce db c in
      let obs := Observation.with_Condition (Some c) obs in
      match err with
      | Some e => Some (db, obs, set, Some e)
      | None =>
          let obs := Observation.with_ConditionID (Condition.ID c) obs in
          if negb (declared m (Observation.ConditionID obs)) then
            (* FIXME figure out the best way to make this not a 500. *)
            Some (db, obs, set,
                  Some (errors_New ("cannot insert observation with undeclared condition "
                                    +:+ Condition.Name c)))
          else
            let '(db, set, err) := ObservationSet_Insert db set false in
            match err with
            | Some e => Some (db, obs, set, Some e)
            | None =>
                let obs := Observation.with_SetID (ObservationSet.ID set) obs in
                let '(db, obs, err) := Insert_observation db obs in
                Some (db, obs, set, err)
            end
      end
  end.

(** ** [ObservationSet.CountObservations] (model.go) *)

Definition ObservationSet_CountObservations (db : DB) (set : ObservationSet.t)
  : DB * ObservationSet.t * Z :=
  if decide (ObservationSet.count set = 0) then
    let '(db, n, _) := Count_observations db (ObservationSet.ID set) in
    (db, ObservationSet.with_count n set, n)
  else (db, set, ObservationSet.count set).

(** ** The condition cache

    [ConditionCache] is [map[string]int]; the methods mutate it in place,
    so they return it. *)

(** Ranging over a Go map visits every entry once, in an order the language
    leaves open: any enumeration that is a permutation of the entries. *)
Class MapRange : Type := {
  map_range : ∀ {V : Type}, gmap string V → list (string * V);
  map_range_perm : ∀ (V : Type) (m : gmap string V), map_range m ≡ₚ map_to_list m
}.

(** One admissible order, used to evaluate examples. *)
Definition range_sorted : MapRange :=
  {| map_range := λ V m, map_to_list m;
     map_range_perm := λ V m, reflexivity (map_to_list m) |}.

(** [strings.HasPrefix(s, prefix)] and [strings.HasSuffix(s, suffix)]. *)
Definition HasPrefix (s prefix : string) : bool := String.prefix prefix s.

Definition HasSuffix (s suffix : string) : bool :=
  (String.length suffix <=? String.length s)%nat &&
  String.eqb (substring (String.length s - String.length suffix)
                        (String.length suffix) s) suffix.

(** [cache[name]]: 0 when [name] is absent. *)
Definition cache_get (cache : gmap string Z) (name : string) : Z :=
  default 0 (cache !! name).

(** [Condition.InsertOnce] as declared beside the cache: the store's error
    is wrapped. *)
Definition ConditionCache_InsertOnce (db : DB) (c : Condition.t)
  : DB * Condition.t * option error :=
  if decide (Condition.ID c = 0) then
    let '(db, c, err) := SelectOrInsert_condition db c in
    match err with
    | Some e => (db, c, Some (PTOWrapError e))
    | None => (db, c, None)
    end
  else (db, c, None).

Definition ConditionCache_SetConditionID (cache : gmap string Z) (db : DB) (c : Condition.t)
  : gmap string Z * DB * Condition.t * option error :=
  (* check for a cache hit *)
  match cache !! Condition.Name c with
  | Some id => (cache, db, Condition.with_ID id c, None)
  | None =>
      (* check to see if we need to insert or retrieve from DB *)
      let '(db, c, err) :=
        if decide (Condition.ID c = 0) then ConditionCache_InsertOnce db c
        else (db, c, None) in
      match err with
      | Some e => (cache, db, c, Some e)
      | None => (<[Condition.Name c := Condition.ID c]> cache, db, c, None)
      end
  end.

(** [for _, c := range set.Conditions { cache.SetConditionID(db, &c) }]:
    [c] is the loop variable, a copy of the element; [SetConditionID]
    writes the id through [&c], into that copy. *)
Fixpoint fill_condition_ids (cache : gmap string Z) (db : DB) (cs : list Condition.t)
  : gmap string Z * DB * option error :=
  match cs with
  | [] => (cache, db, None)
  | c :: cs =>
      let '(cache, db, c, err) := ConditionCache_SetConditionID cache db c in
      match err with
      | Some e => (cache, db, Some e)
      | None => fill_condition_ids cache db cs
      end
  end.

Definition ConditionCache_FillConditionIDsInSet
  (cache : gmap string Z) (db : DB) (set : ObservationSet.t)
  : gmap string Z * DB * ObservationSet.t * option error :=
  let '(cache, db, err) :=
    fill_condition_ids cache db (elems (ObservationSet.Conditions set)) in
  (cache, db, set, err).

(** [for _, c := range conditions { cache[c.Name] = c.ID }] *)
Definition cache_rows (cache : gmap string Z) (rows : list Condition.t)
  : gmap string Z :=
  foldl (λ cache c, <[Condition.Name c := Condition.ID c]> cache) cache rows.

Definition ConditionCache_Reload (cache : gmap string Z) (db : DB)
  : gmap string Z * DB * option error :=
  let '(db, rows, err) := Select_conditions db in
  match err with
  | Some e => (cache, db, Some (PTOWrapError e))
  | None => (cache_rows cache rows, db, None)
  end.

(** [conditionName[:len(conditionName)-1]] *)
Definition drop_last (s : string) : string := substring 0 (String.length s - 1) s.

Definition ConditionCache_ConditionsByName `{MapRange}
  (cache : gmap string Z) (db : DB) (conditionName : string)
  : gmap string Z * DB * slice Condition.t * option error :=
  if HasSuffix conditionName ".*" then
    (* Wildcard. Reload cache and find everything that matches. *)
    let '(cache, db, err) := ConditionCache_Reload cache db in
    match err with
    | Some e => (cache, db, None, Some e)
    | None =>
        let out :=
          foldl (λ out cachedName,
                   if HasPrefix cachedName (drop_last conditionName)
                   then out ++ [Condition.mk (cache_get cache cachedName) cachedName]
                   else out)
                [] (map_range cache).*1 in
        (cache, db, Some out, None)
    end
  else
    (* No wildcard, just look up by name. *)
    let '(cache, db, err) :=
      if decide (cache_get cache conditionName = 0)
      then ConditionCache_Reload cache db
      else (cache, db, None) in
    match err with
    | Some e => (cache, db, None, Some e)
    | None =>
        if decide (cache_get cache conditionName = 0) then
          (cache, db, None,
           Some (PTOError ("unknown condition " +:+ conditionName) StatusBadRequest))
        else
          (cache, db,
           Some [Condition.mk (cache_get cache conditionName) conditionName], None)
    end.

(** ** Decoded JSON

    The codec hands [json.Marshal] a Go value and reads what
    [json.Unmarshal] stored into an [interface{}]; both are represented by
    the JSON value they stand for.  A number is kept as the integer it
    denotes (the codec only ever writes integers).  The encoders below
    give the value handed to [json.Marshal] and the decoders take the value
    [json.Unmarshal] stored; what the two library calls make of a value in
    between is [wire], [wire_map] and [wire_string] below, and the bytes
    written are [Marshal]. *)

#[local] Unset Elimination Schemes.
Inductive json : Type :=
| JNull
| JBool (b : bool)
| JNumber (n : Z)
| JString (s : string)
| JArray (items : list json)
| JObject (fields : list (string * json)).
#[local] Set Elimination Schemes.

(** The two conversion helpers the codec calls; they are declared outside
    the given sources, so the codec is stated over any pair of them. *)
Class Helpers : Type := {
  AsString : json → string;
  AsStringArray : json → slice string * bool
}.

(** ** [strconv.Atoi]

    Base-10 [ParseInt] at 64 bits: an optional sign, then digits scanned
    left to right; a character that is no digit is a syntax error (value 0),
    an overflow met before that is a range error (value clamped). *)

Definition MaxUint64 : Z := 2 ^ 64 - 1.
Definition MaxInt : Z := 2 ^ 63 - 1.
Definition MinInt : Z := - 2 ^ 63.

Definition digit_value (c : ascii) : option Z :=
  let n := nat_of_ascii c in
  if ((48 <=? n) && (n <=? 57))%nat then Some (Z.of_nat n - 48) else None.

(** The result's flag: [None] no error, [Some false] syntax, [Some true] range. *)
Fixpoint ParseUint_from (n : Z) (s : string) : Z * option bool :=
  match s with
  | EmptyString => (n, None)
  | String c r =>
      match digit_value c with
      | None => (0, Some false)
      | Some d =>
          if MaxUint64 / 10 + 1 <=? n then (MaxUint64, Some true)
          else
            let n1 := n * 10 + d in
            if MaxUint64 <? n1 then (MaxUint64, Some true)
            else ParseUint_from n1 r
      end
  end.

Definition ParseUint (s : string) : Z * option bool :=
  match s with
  | EmptyString => (0, Some false)
  | _ => ParseUint_from 0 s
  end.

Definition Atoi (s : string) : Z * option error :=
  let syntax := (0, Some (NumError "Atoi" s false)) in
  match s with
  | EmptyString => syntax
  | String c r =>
      let neg := Ascii.eqb c "-" in
      let body := if Ascii.eqb c "+" || neg then r else s in
      let '(un, e) := ParseUint body in
      match e with
      | Some false => syntax
      | _ =>
          if negb neg && (2 ^ 63 <=? un) then (MaxInt, Some (NumError "Atoi" s true))
          else if neg && (2 ^ 63 <? un) then (MinInt, Some (NumError "Atoi" s true))
          else (if neg then - un else un, None)
      end
  end.

(** The number a digit string denotes, without bounds (used to state what
    [ParseUint_from] computes). *)
Fixpoint digits_value (acc : Z) (s : string) : option Z :=
  match s with
  | EmptyString => Some acc
  | String c r =>
      match digit_value c with
      | Some d => digits_value (acc * 10 + d) r
      | None => None
      end
  end.

(** Decimal text of an integer, as [strconv.Itoa] prints it. *)
Definition Itoa (n : Z) : string := NilZero.string_of_int (Z.to_int n).

(** ** [time]: the layout [time.RFC3339] on UTC times

    [Format_RFC3339] is [t.UTC().Format(time.RFC3339)]: the calendar reading
    down to the second, then [Z]; the layout has no fractional seconds.  It
    is meant for years 0 to 9999.  [Parse_RFC3339] is [time.Parse] with that
    layout on the texts [YYYY-MM-DDTHH:MM:SS], an optional fraction, [Z],
    with its range checks; as [time.Parse] does, it reads a fraction of a
    second although the layout has none.  [time.Parse] accepts more than
    these texts: a numeric offset ([+01:00]) in place of [Z], a comma as
    the decimal mark, an hour of one digit; these are reported as errors
    here.  So a time [Parse_RFC3339] returns is the time [time.Parse]
    returns, while a text it refuses may be one [time.Parse] reads. *)

Definition digit_char (n : Z) : ascii :=
  ascii_of_nat (Z.to_nat (48 + Z.modulo n 10)).

Definition pad2 (n : Z) : string :=
  String (digit_char (n / 10)) (String (digit_char n) EmptyString).

Definition pad4 (n : Z) : string :=
  String (digit_char (n / 1000)) (String (digit_char (n / 100)) (pad2 n)).

Definition Format_RFC3339 (t : Time.t) : string :=
  pad4 (Time.year t) +:+ "-" +:+ pad2 (Time.month t) +:+ "-" +:+ pad2 (Time.day t)
  +:+ "T" +:+ pad2 (Time.hour t) +:+ ":" +:+ pad2 (Time.minute t) +:+ ":"
  +:+ pad2 (Time.second t) +:+ "Z".

Definition isLeap (y : Z) : bool :=
  (Z.modulo y 4 =? 0) && (negb (Z.modulo y 100 =? 0) || (Z.modulo y 400 =? 0)).

Definition daysIn (m y : Z) : Z :=
  if m =? 2 then (if isLeap y then 29 else 28)
  else if (m =? 4) || (m =? 6) || (m =? 9) || (m =? 11) then 30
  else 31.

Definition in_range (lo hi n : Z) : bool := (lo <=? n) && (n <=? hi).

Definition valid_time (t : Time.t) : bool :=
  in_range 0 9999 (Time.year t) && in_range 1 12 (Time.month t)
  && in_range 1 (daysIn (Time.month t) (Time.year t)) (Time.day t)
  && in_range 0 23 (Time.hour t) && in_range 0 59 (Time.minute t)
  && in_range 0 59 (Time.second t) && in_range 0 999999999 (Time.nanosecond t).

Definition number2 (a b : ascii) : option Z :=
  x ← digit_value a; y ← digit_value b; Some (10 * x + y).

Definition number4 (a b c d : ascii) : option Z :=
  x ← number2 a b; y ← number2 c d; Some (100 * x + y).

(** The digits a text starts with, and what follows them. *)
Fixpoint take_digits (s : list ascii) : list ascii * list ascii :=
  match s with
  | c :: r =>
      match digit_value c with
      | Some _ => let '(ds, rest) := take_digits r in (c :: ds, rest)
      | None => ([], s)
      end
  | [] => ([], [])
  end.

(** [parseNanoseconds]: the digits after the point, scaled to nanoseconds;
    digits past the ninth are dropped. *)
Fixpoint nanoseconds (ds : list ascii) (scale : Z) : Z :=
  match ds with
  | [] => 0
  | d :: ds => default 0 (digit_value d) * scale + nanoseconds ds (scale / 10)
  end.

(** The optional fraction of a second: a point and at least one digit. *)
Definition fraction (s : list ascii) : Z * list ascii :=
  match s with
  | c :: r =>
      if Ascii.eqb c "." then
        match take_digits r with
        | ([], _) => (0, s)
        | (ds, rest) => (nanoseconds ds 100000000, rest)
        end
      else (0, s)
  | [] => (0, s)
  end.

Definition Parse_RFC3339 (value : string) : Time.t * option error :=
  let bad := (Time.zero, Some (ParseError value)) in
  match list_ascii_of_string value with
  | y1 :: y2 :: y3 :: y4 :: q1 :: m1 :: m2 :: q2 :: d1 :: d2 :: q3
    :: h1 :: h2 :: q4 :: n1 :: n2 :: q5 :: s1 :: s2 :: rest =>
      let '(ns, zone) := fraction rest in
      if Ascii.eqb q1 "-" && Ascii.eqb q2 "-" && Ascii.eqb q3 "T"
         && Ascii.eqb q4 ":" && Ascii.eqb q5 ":"
         && match zone with [z] => Ascii.eqb z "Z" | _ => false end
      then
        match number4 y1 y2 y3 y4, number2 m1 m2, number2 d1 d2,
              number2 h1 h2, number2 n1 n2, number2 s1 s2 with
        | Some y, Some mo, Some d, Some h, Some mi, Some s =>
            let t := Time.mk y mo d h mi s ns in
            if valid_time t then (t, None) else bad
        | _, _, _, _, _, _ => bad
        end
      else bad
  | _ => bad
  end.

(** What a round trip through the text keeps of a time: the whole seconds. *)
Definition whole_seconds (t : Time.t) : Time.t :=
  Time.mk (Time.year t) (Time.month t) (Time.day t)
          (Time.hour t) (Time.minute t) (Time.second t) 0.

(** ** [ObservationSet.MarshalJSON] and [UnmarshalJSON] (model.go) *)

(** A [[]string] as JSON: [null] for the nil slice. *)
Definition json_strings (s : slice string) : json :=
  match s with
  | None => JNull
  | Some l => JArray (JString <$> l)
  end.

(** The map handed to [json.Marshal]. *)
Definition ObservationSet_MarshalJSON `{MapRange} (set : ObservationSet.t)
  : gmap string json :=
  let jmap : gmap string json := ∅ in
  let jmap := <["_sources" := json_strings (ObservationSet.Sources set)]> jmap in
  let jmap := <["_analyzer" := JString (ObservationSet.Analyzer set)]> jmap in
  let jmap := if decide (ObservationSet.link set = "") then jmap
              else <["__link" := JString (ObservationSet.link set)]> jmap in
  let jmap := if decide (ObservationSet.datalink set = "") then jmap
              else <["__data" := JString (ObservationSet.datalink set)]> jmap in
  let jmap := if decide (ObservationSet.count set = 0) then jmap
              else <["__obs_count" := JNumber (ObservationSet.count set)]> jmap in
  let conditionNames := Condition.Name <$> elems (ObservationSet.Conditions set) in
  let jmap := if (0 <? length conditionNames)%nat
              then <["_conditions" := JArray (JString <$> conditionNames)]> jmap
              else jmap in
  foldl (λ jmap kv, <[kv.1 := JString kv.2]> jmap) jmap
        (map_range (ObservationSet.Metadata set)).

(** One turn of [for k, v := range jmap]. *)
Definition unmarshal_entry `{Helpers} (set : ObservationSet.t) (k : string) (v : json)
  : ObservationSet.t * option error :=
  if decide (k = "_sources") then
    let '(sources, ok) := AsStringArray v in
    let set := ObservationSet.with_Sources sources set in
    if ok then (set, None)
    else (set, Some (errors_New "_sources not a string array"))
  else if decide (k = "_analyzer") then
    (ObservationSet.with_Analyzer (AsString v) set, None)
  else if decide (k = "_conditions") then
    (* Create new condition objects with name only and zero ID. *)
    let '(conditionNames, ok) := AsStringArray v in
    if ok then
      (ObservationSet.with_Conditions
         (make_slice (Condition.mk 0) (elems conditionNames)) set, None)
    else (set, Some (errors_New "_conditions not a string array"))
  else if HasPrefix k "__" then
    (* Ignore all (incoming) __ keys instead of stuffing them in metadata *)
    (set, None)
  else
    (* Everything else is metadata *)
    (ObservationSet.with_Metadata (<[k := AsString v]> (ObservationSet.Metadata set)) set,
     None).

Fixpoint unmarshal_entries `{Helpers} (set : ObservationSet.t) (kvs : list (string * json))
  : ObservationSet.t * option error :=
  match kvs with
  | [] => (set, None)
  | (k, v) :: kvs =>
      let '(set, err) := unmarshal_entry set k v in
      match err with
      | Some e => (set, Some e)
      | None => unmarshal_entries set kvs
      end
  end.

(** [jmap] is the map [json.Unmarshal] filled from the bytes. *)
Definition ObservationSet_UnmarshalJSON `{Helpers} `{MapRange}
  (set : ObservationSet.t) (jmap : gmap string json)
  : ObservationSet.t * option error :=
  let set := ObservationSet.with_Metadata ∅ set in
  (* zero ID, it will be assigned on insertion or from the URI *)
  let set := ObservationSet.with_ID 0 set in
  let '(set, err) := unmarshal_entries set (map_range jmap) in
  match err with
  | Some e => (set, Some e)
  | None =>
      (* make sure we got values for everything *)
      match ObservationSet.Sources set with
      | None => (set, Some (errors_New "ObservationSet missing _sources"))
      | Some _ =>
          if decide (ObservationSet.Analyzer set = "") then
            (set, Some (errors_New "ObservationSet missing _analyzer"))
          else
            match ObservationSet.Conditions set with
            | None => (set, Some (errors_New "ObservationSet missing _conditions"))
            | Some _ => (set, None)
            end
      end
  end.

(** The boundary operations of the spec: decoding fills a new set. *)
Definition encodeSet `{MapRange} (set : ObservationSet.t) : gmap string json :=
  ObservationSet_MarshalJSON set.

Definition decodeSet `{Helpers} `{MapRange} (jmap : gmap string json)
  : ObservationSet.t * option error :=
  ObservationSet_UnmarshalJSON ObservationSet.zero jmap.

(** ** [Observation.MarshalJSON] and [UnmarshalJSON] (model.go) *)

(** The slice handed to [json.Marshal]; [None] when [obs.Path] or
    [obs.Condition] is nil (the call panics). *)
Definition Observation_MarshalJSON (obs : Observation.t) : option (list json) :=
  p ← Observation.Path obs;
  c ← Observation.Condition obs;
  let jslice := [ JNumber (Observation.SetID obs);
                  JString (Format_RFC3339 (Observation.Start obs));
                  JString (Format_RFC3339 (Observation.End_ obs));
                  JString (Path.String p);
                  JString (Condition.Name c) ] in
  Some (if decide (Observation.Value obs = 0) then jslice
        else jslice ++ [JNumber (Observation.Value obs)]).

(** [jslice] is the slice [json.Unmarshal] filled from the bytes. *)
Definition Observation_UnmarshalJSON `{Helpers} (obs : Observation.t) (jslice : list json)
  : Observation.t * option error :=
  match jslice with
  | j0 :: j1 :: j2 :: j3 :: j4 :: rest =>
      let obs := Observation.with_ID 0 obs in
      (* fill in Set ID; this err is overwritten by the next assignment *)
      let '(setid, _) := Atoi (AsString j0) in
      let obs := Observation.with_SetID setid obs in
      let '(start, err) := Parse_RFC3339 (AsString j1) in
      let obs := Observation.with_Start start obs in
      match err with
      | Some e => (obs, Some e)
      | None =>
          let '(end_, err) := Parse_RFC3339 (AsString j2) in
          let obs := Observation.with_End end_ obs in
          match err with
          | Some e => (obs, Some e)
          | None =>
              let obs := Observation.with_Path (Some (Path.mk 0 (AsString j3))) obs in
              let obs := Observation.with_Condition
                           (Some (Condition.mk 0 (AsString j4))) obs in
              match rest with
              | j5 :: _ =>
                  let '(value, err) := Atoi (AsString j5) in
                  (Observation.with_Value value obs, err)
              | [] => (obs, None)
              end
          end
      end
  | _ => (obs, Some (errors_New "Observation requires at least five elements"))
  end.

Definition encodeObservation (obs : Observation.t) : option (list json) :=
  Observation_MarshalJSON obs.

Definition decodeObservation `{Helpers} (jslice : list json)
  : Observation.t * option error :=
  Observation_UnmarshalJSON Observation.zero jslice.

(** [ReadObservations]: every line is unmarshalled into the same variable
    [obs], whose value is then appended to [out].  [lines] are the decoded
    lines the scanner yields. *)
Fixpoint read_observations `{Helpers} (obs : Observation.t) (out : list Observation.t)
  (lines : list (list json)) : option (list Observation.t) * option error :=
  match lines with
  | [] => (Some out, None)
  | line :: lines =>
      let '(obs, err) := Observation_UnmarshalJSON obs line in
      match err with
      | Some e => (None, Some e)
      | None => read_observations obs (out ++ [obs]) lines
      end
  end.

Definition ReadObservations `{Helpers} (lines : list (list json))
  : option (list Observation.t) * option error :=
  read_observations Observation.zero [] lines.

(** Modelled from the spec: [AsString] and [AsStringArray] are declared
    outside the given sources.  The spec has [_sources] and [_conditions] be
    arrays of strings and a wrong shape or element type be refused, keeps
    string values verbatim, and reads the set id and the value of an
    observation as integers; [MarshalJSON] writes both as JSON numbers, so a
    number converts to its decimal text.  This instance serves to evaluate
    the codec on examples. *)
Definition util_AsString (v : json) : string :=
  match v with
  | JString s => s
  | JNumber n => Itoa n
  | _ => ""
  end.

Definition json_string (v : json) : option string :=
  match v with
  | JString s => Some s
  | _ => None
  end.

Definition util_AsStringArray (v : json) : slice string * bool :=
  match v with
  | JArray items =>
      match mapM json_string items with
      | Some l => (Some l, true)
      | None => (None, false)
      end
  | _ => (None, false)
  end.

Definition util : Helpers :=
  {| AsString := util_AsString; AsStringArray := util_AsStringArray |}.

(** ** [json.Marshal] followed by [json.Unmarshal]

    Between the encoder and the decoder of the codec lie the two library
    calls.  [json.Marshal] writes a string as it is where it is valid UTF-8
    and writes the replacement character U+FFFD for every byte that starts
    no valid encoding; it writes an [int] as its decimal text, which
    [json.Unmarshal] (into an [interface{}]) reads as a [float64]; it writes
    the entries of a map in the order of their keys, and [json.Unmarshal]
    stores them in that order, a later entry of the same key replacing an
    earlier one. *)

Definition byte_in (lo hi : Z) (b : ascii) : bool :=
  in_range lo hi (Z.of_nat (nat_of_ascii b)).

(** [utf8.DecodeRuneInString]: the number of bytes of the encoding the text
    starts with, [None] where it starts with none (the rune error of width
    1).  Overlong encodings, surrogates and code points above U+10FFFF are
    no encodings. *)
Definition rune_size (s : list ascii) : option nat :=
  match s with
  | [] => None
  | b0 :: r =>
      let n := Z.of_nat (nat_of_ascii b0) in
      if n <? 128 then Some 1%nat
      else if in_range 194 223 n then
        match r with
        | b1 :: _ => if byte_in 128 191 b1 then Some 2%nat else None
        | _ => None
        end
      else if in_range 224 239 n then
        let '(lo, hi) := if n =? 224 then (160, 191)
                         else if n =? 237 then (128, 159) else (128, 191) in
        match r with
        | b1 :: b2 :: _ =>
            if byte_in lo hi b1 && byte_in 128 191 b2 then Some 3%nat else None
        | _ => None
        end
      else if in_range 240 244 n then
        let '(lo, hi) := if n =? 240 then (144, 191)
                         else if n =? 244 then (128, 143) else (128, 191) in
        match r with
        | b1 :: b2 :: b3 :: _ =>
            if byte_in lo hi b1 && byte_in 128 191 b2 && byte_in 128 191 b3
            then Some 4%nat else None
        | _ => None
        end
      else None
  end.

(** U+FFFD in UTF-8. *)
Definition replacement : list ascii :=
  [ascii_of_nat 239; ascii_of_nat 191; ascii_of_nat 189].

(** The bytes of a string after the two calls; [pending] counts the bytes
    still to copy of the encoding under way. *)
Fixpoint wire_bytes (pending : nat) (s : list ascii) : list ascii :=
  match s with
  | [] => []
  | b :: r =>
      match pending with
      | S k => b :: wire_bytes k r
      | O =>
          match rune_size s with
          | Some n => b :: wire_bytes (pred n) r
          | None => replacement ++ wire_bytes 0 r
          end
      end
  end.

Definition wire_string (s : string) : string :=
  string_of_list_ascii (wire_bytes 0 (list_ascii_of_string s)).

(** [utf8.ValidString] *)
Fixpoint valid_bytes (pending : nat) (s : list ascii) : bool :=
  match s with
  | [] => true
  | b :: r =>
      match pending with
      | S k => valid_bytes k r
      | O =>
          match rune_size s with
          | Some n => valid_bytes (pred n) r
          | None => false
          end
      end
  end.

Definition utf8_Valid (s : string) : bool :=
  valid_bytes 0 (list_ascii_of_string s).

(** The [float64] nearest to an integer (ties to the even significand of
    53 bits), as an integer. *)
Definition float64_of_int (n : Z) : Z :=
  let a := Z.abs n in
  let e := Z.log2 a - 52 in
  if e <=? 0 then n
  else
    let q := a / 2 ^ e in
    let r := a mod 2 ^ e in
    let half := 2 ^ (e - 1) in
    let q := if (half <? r) || ((r =? half) && Z.odd q) then q + 1 else q in
    Z.sgn n * (q * 2 ^ e).

(** A value as the decoder finds it.  (The codec writes no nested
    object.) *)
Fixpoint wire (v : json) : json :=
  match v with
  | JNull => JNull
  | JBool b => JBool b
  | JNumber n => JNumber (float64_of_int n)
  | JString s => JString (wire_string s)
  | JArray items => JArray (wire <$> items)
  | JObject fields => JObject ((λ kv, (wire_string kv.1, wire kv.2)) <$> fields)
  end.

(** A [map[string]interface{}] as the decoder finds it: the entries are
    written sorted by key ([sort.Strings] order, byte by byte). *)
Definition key_le (a b : string * json) : Prop := String.leb a.1 b.1 = true.

#[global] Instance key_le_dec (a b : string * json) : Decision (key_le a b) :=
  decide (String.leb a.1 b.1 = true).

Definition wire_map (jmap : gmap string json) : gmap string json :=
  foldl (λ m kv, <[wire_string kv.1 := wire kv.2]> m) ∅
        (merge_sort key_le (map_to_list jmap)).

(** ** Vocabulary of the statements *)

(** Whether the next statement goes through, and the store once it was
    issued (before its own write). *)
Definition passes (db : DB) : bool :=
  match failing db with
  | Some O => false
  | _ => true
  end.

Definition advance (db : DB) : DB :=
  mkDB (tables db)
       (match failing db with Some (S k) => Some k | _ => None end)
       (S (issued db)).

(** The tables with one more set row, and with more association rows. *)
Definition with_set_row (T : Tables) (row : ObservationSetRow) : Tables :=
  mkTables (conditions T) (paths T) (observation_sets T ++ [row])
           (observations T) (observation_set_to_conditions T).

Definition with_links (T : Tables) (set_id : Z) (cs : list Condition.t) : Tables :=
  mkTables (conditions T) (paths T) (observation_sets T) (observations T)
           (observation_set_to_conditions T ++ ((λ c, (set_id, Condition.ID c)) <$> cs)).

(** The row [db.Insert(set)] writes for [set] into [db]. *)
Definition new_set_row (db : DB) (set : ObservationSet.t) : ObservationSetRow :=
  mkSetRow (fresh_id (row_id <$> observation_sets (tables db)))
           (ObservationSet.Sources set) (ObservationSet.Analyzer set)
           (ObservationSet.Metadata set).

(** No statement among the next [n] fails. *)
Definition no_fault_within (n : nat) (db : DB) : Prop :=
  match failing db with
  | Some k => (n ≤ k)%nat
  | None => True
  end.

(** Neither the cache nor the condition table holds the id 0. *)
Definition cache_ids_assigned (cache : gmap string Z) : Prop :=
  ∀ k, cache !! k ≠ Some 0.

Definition row_ids_assigned (db : DB) : Prop :=
  ∀ c, c ∈ conditions (tables db) → Condition.ID c ≠ 0.

(** The keys [UnmarshalJSON] files under metadata: neither one of the three
    reserved keys nor prefixed with two underscores. *)
Definition metadata_key (k : string) : bool :=
  negb (bool_decide (k = "_sources")) && negb (bool_decide (k = "_analyzer"))
  && negb (bool_decide (k = "_conditions")) && negb (HasPrefix k "__").

(** The entries on which [UnmarshalJSON] returns from inside the loop. *)
Definition entry_refused `{Helpers} (k : string) (v : json) : bool :=
  (bool_decide (k = "_sources") || bool_decide (k = "_conditions"))
  && negb (AsStringArray v).2.

(** The integers a JSON number carries exactly: [json.Unmarshal] stores a
    number in a [float64], which holds every integer up to 2^53 in
    magnitude. *)
Definition exact_int (n : Z) : Prop := - 2 ^ 53 ≤ n ≤ 2 ^ 53.

(** The strings of a set are valid UTF-8: the texts [json.Marshal] writes
    as they are. *)
Definition text_valid (S : ObservationSet.t) : Prop :=
  Forall (λ s, utf8_Valid s = true) (elems (ObservationSet.Sources S))
  ∧ utf8_Valid (ObservationSet.Analyzer S) = true
  ∧ Forall (λ c, utf8_Valid (Condition.Name c) = true)
           (elems (ObservationSet.Conditions S))
  ∧ ∀ k v, ObservationSet.Metadata S !! k = Some v →
           utf8_Valid k = true ∧ utf8_Valid v = true.

(** ** Example data *)

Definition no_tables : Tables := mkTables [] [] [] [] [].

Definition empty_store : DB := mkDB no_tables None 0.

(** An empty store whose third statement fails. *)
Definition store_failing_third : DB := mkDB no_tables (Some 2%nat) 0.

(** A set that was never inserted, with two resolved declared conditions. *)
Definition set_two : ObservationSet.t :=
  ObservationSet.mk 0 (Some ["agentA"]) "pto-basic"
    (Some [Condition.mk 7 "icmp.unreachable"; Condition.mk 8 "dns.timeout"])
    None ∅ "" "" 0.

(** A set stored under id 1 whose count was never computed. *)
Definition set_stored : ObservationSet.t :=
  ObservationSet.mk 1 (Some ["agentA"]) "pto-basic"
    (Some [Condition.mk 7 "icmp.unreachable"]) None ∅ "" "" 0.

Definition midnight : Time.t := Time.mk 2020 1 1 0 0 0 0.

Definition five_past : Time.t := Time.mk 2020 1 1 0 5 0 0.

(** Tables holding one observation of set 1. *)
Definition tables_one_observation : Tables :=
  mkTables [Condition.mk 7 "icmp.unreachable"] [Path.mk 1 "1.2.3.0/24"]
           [mkSetRow 1 (Some ["agentA"]) "pto-basic" ∅]
           [mkObsRow 1 1 midnight five_past 1 7 0] [(1, 7)].

(** A decoded set: the declared condition is a placeholder, id 0. *)
Definition set_decoded : ObservationSet.t :=
  ObservationSet.mk 0 (Some ["agentA"]) "pto-basic"
    (Some [Condition.mk 0 "icmp.unreachable"]) None ∅ "" "" 0.

(** A set declaring [icmp.unreachable] under its stored id 1. *)
Definition set_resolved : ObservationSet.t :=
  ObservationSet.mk 0 (Some ["agentA"]) "pto-basic"
    (Some [Condition.mk 1 "icmp.unreachable"]) None ∅ "" "" 0.

Definition store_one_condition : DB :=
  mkDB (mkTables [Condition.mk 1 "icmp.unreachable"] [] [] [] []) None 0.

(** A decoded observation of a condition the set does not declare. *)
Definition obs_undeclared : Observation.t :=
  Observation.mk 0 0 midnight five_past 0 (Some (Path.mk 0 "1.2.3.0/24"))
                 0 (Some (Condition.mk 0 "dns.timeout")) 0.

(** The store of the wildcard example. *)
Definition store_http : DB :=
  mkDB (mkTables [Condition.mk 1 "http.get"; Condition.mk 2 "http.post";
                  Condition.mk 3 "ftp.get"] [] [] [] [])
       None 0.

(** A wire object whose [_conditions] array is empty, and one whose two
    arrays are empty. *)
Definition jmap_no_conditions : gmap string json :=
  <["_sources" := JArray [JString "agentA"]]>
    (<["_analyzer" := JString "pto-basic"]> (<["_conditions" := JArray []]> ∅)).

Definition jmap_empty_arrays : gmap string json :=
  <["_sources" := JArray []]>
    (<["_analyzer" := JString "pto-basic"]> (<["_conditions" := JArray []]> ∅)).

(** A valid set carrying a metadata entry under a double-underscore key. *)
Definition set_dunder : ObservationSet.t :=
  ObservationSet.mk 0 (Some ["agentA"]) "pto-basic"
    (Some [Condition.mk 0 "icmp.unreachable"]) None {[ "__note" := "x" ]} "" "" 0.

(** A set with a free-form metadata entry, links and a count. *)
Definition set_full : ObservationSet.t :=
  ObservationSet.mk 5 (Some ["agentA"; "agentB"]) "pto-basic"
    (Some [Condition.mk 3 "icmp.unreachable"]) None {[ "note" := "x" ]}
    "http://h/obs/5/data" "http://h/obs/5" 2.

(** An observation whose start lies half a second past midnight. *)
Definition obs_half_second : Observation.t :=
  Observation.mk 0 7 (Time.mk 2020 1 1 0 0 0 500000000) five_past 0
                 (Some (Path.mk 0 "1.2.3.0/24")) 0
                 (Some (Condition.mk 0 "icmp.unreachable")) 0.

(** The line it is decoded from. *)
Definition line_half_second : list json :=
  [JNumber 7; JString "2020-01-01T00:00:00.5Z"; JString "2020-01-01T00:05:00Z";
   JString "1.2.3.0/24"; JString "icmp.unreachable"].

(** An observation with a value, and one without. *)
Definition obs_valued : Observation.t :=
  Observation.mk 0 7 midnight five_past 0 (Some (Path.mk 0 "1.2.3.0/24")) 0
                 (Some (Condition.mk 0 "icmp.unreachable")) 42.

Definition obs_plain : Observation.t :=
  Observation.mk 0 7 midnight five_past 0 (Some (Path.mk 0 "1.2.3.0/24")) 0
                 (Some (Condition.mk 0 "icmp.unreachable")) 0.

(** A line whose first element is no number. *)
Definition line_bad_set_id : list json :=
  [JString "abc"; JString "2020-01-01T00:00:00Z"; JString "2020-01-01T00:05:00Z";
   JString "1.2.3.0/24"; JString "icmp.unreachable"].

(** The lines [WriteObservations] emits for [obs_valued] and [obs_plain]. *)
Definition lines_valued_then_plain : list (list json) :=
  [ [JNumber 7; JString "2020-01-01T00:00:00Z"; JString "2020-01-01T00:05:00Z";
     JString "1.2.3.0/24"; JString "icmp.unreachable"; JNumber 42];
    [JNumber 7; JString "2020-01-01T00:00:00Z"; JString "2020-01-01T00:05:00Z";
     JString "1.2.3.0/24"; JString "icmp.unreachable"] ].

(** The object of the spec's end-to-end example. *)
Definition jmap_example : gmap string json :=
  <["_sources" := JArray [JString "agentA"]]>
    (<["_analyzer" := JString "pto-basic"]>
       (<["_conditions" := JArray [JString "icmp.unreachable"]]> ∅)).

(** * Further code

    The batch functions of [model.go], [LoadConditionCache], and the
    observation codec of [orm.go]. *)

(** ** [WriteObservations], [MarshalObservations], [UnmarshalObservations] (model.go) *)

(** [WriteObservations] on the buffer [MarshalObservations] hands it (whose
    writes do not fail): one line per observation, in the order of
    [obsdat].  [None] when a [MarshalJSON] panics. *)
Fixpoint WriteObservations (obsdat : list Observation.t) (out : list (list json))
  : option (list (list json)) :=
  match obsdat with
  | [] => Some out
  | obs :: obsdat =>
      jslice ← Observation_MarshalJSON obs;
      WriteObservations obsdat (out ++ [jslice])
  end.

Definition MarshalObservations (obsdat : list Observation.t) : option (list (list json)) :=
  WriteObservations obsdat [].

(** *** The bytes of a line

    What [json.Marshal] writes (encoding/json, with its HTML
    escaping). *)

Definition quote : ascii := ascii_of_nat 34.
Definition backslash : ascii := ascii_of_nat 92.

Definition hex_digit (n : Z) : ascii :=
  ascii_of_nat (Z.to_nat (if n <? 10 then 48 + n else 87 + n)).

(** A byte below [utf8.RuneSelf]: the quote and the backslash are escaped
    with a backslash, newline, carriage return and tab by their letter, the
    other control characters and [<], [>], [&] as [\u00XX]. *)
Definition escape_byte (b : ascii) : list ascii :=
  let n := Z.of_nat (nat_of_ascii b) in
  if (n =? 34) || (n =? 92) then [backslash; b]
  else if n =? 10 then [backslash; "n"%char]
  else if n =? 13 then [backslash; "r"%char]
  else if n =? 9 then [backslash; "t"%char]
  else if (n <? 32) || (n =? 60) || (n =? 62) || (n =? 38) then
    [backslash; "u"%char; "0"%char; "0"%char; hex_digit (n / 16); hex_digit (n mod 16)]
  else [b].

(** U+2028 and U+2029 (E2 80 A8, E2 80 A9): the last hexadecimal digit. *)
Definition line_separator (s : list ascii) : option ascii :=
  match s with
  | b0 :: b1 :: b2 :: _ =>
      let n2 := Z.of_nat (nat_of_ascii b2) in
      if byte_in 226 226 b0 && byte_in 128 128 b1 && byte_in 168 169 b2
      then Some (hex_digit (n2 mod 16)) else None
  | _ => None
  end.

(** The bytes between the quotes; [copy] counts the bytes still to copy
    and [skip] the bytes still to pass over of the encoding under way. *)
Fixpoint string_bytes (copy skip : nat) (s : list ascii) : list ascii :=
  match s with
  | [] => []
  | b :: r =>
      match copy, skip with
      | S k, _ => b :: string_bytes k skip r
      | O, S k => string_bytes O k r
      | O, O =>
          if byte_in 0 127 b then escape_byte b ++ string_bytes 0 0 r
          else
            match rune_size s with
            | None =>
                [backslash; "u"%char; "f"%char; "f"%char; "f"%char; "d"%char]
                  ++ string_bytes 0 0 r
            | Some n =>
                match line_separator s with
                | Some h =>
                    [backslash; "u"%char; "2"%char; "0"%char; "2"%char; h]
                      ++ string_bytes 0 2 r
                | None => b :: string_bytes (pred n) 0 r
                end
            end
      end
  end.

Definition Marshal_string (s : string) : list ascii :=
  quote :: string_bytes 0 0 (list_ascii_of_string s) ++ [quote].

Definition join_bytes (parts : list (list ascii)) : list ascii :=
  match parts with
  | [] => []
  | p :: ps => p ++ concat ((λ q, ","%char :: q) <$> ps)
  end.

(** An integer is written in decimal; the fields of an object are held in
    the order they are written in. *)
Fixpoint Marshal (v : json) : list ascii :=
  match v with
  | JNull => list_ascii_of_string "null"
  | JBool b => list_ascii_of_string (if b then "true" else "false")
  | JNumber n => list_ascii_of_string (Itoa n)
  | JString s => Marshal_string s
  | JArray items => "["%char :: join_bytes (Marshal <$> items) ++ ["]"%char]
  | JObject fields =>
      "{"%char
        :: join_bytes ((λ kv, Marshal_string kv.1 ++ ":"%char :: Marshal kv.2) <$> fields)
        ++ ["}"%char]
  end.

(** *** The scanner of [ReadObservations] *)

(** [bufio.MaxScanTokenSize], the largest size of the scanner's buffer. *)
Definition MaxScanTokenSize : Z := 64 * 1024.

(** A line the scanner yields: its bytes and the newline after them fit in
    the buffer. *)
Definition fits (line : list json) : bool :=
  Z.of_nat (length (Marshal (JArray line))) <? MaxScanTokenSize.

(** [for sin.Scan() { json.Unmarshal([]byte(sin.Text()), ...) }] on the
    buffer [WriteObservations] filled with [lines], each followed by a
    newline (the bytes of a line hold no newline: [escape_byte]): the lines
    as the decoder finds them, up to the first that does not fit.  There
    [Scan] returns false with [ErrTooLong], as it does at the end of the
    buffer. *)
Fixpoint Scan (lines : list (list json)) : list (list json) :=
  match lines with
  | [] => []
  | line :: lines => if fits line then (wire <$> line) :: Scan lines else []
  end.

(** [ReadObservations] on a buffer of the bytes written for [lines]; the
    error of the scanner is not looked at. *)
Definition UnmarshalObservations `{Helpers} (lines : list (list json))
  : option (list Observation.t) * option error :=
  ReadObservations (Scan lines).

(** ** [LoadConditionCache] (the condition cache) *)

(** [None] stands for the nil map returned with an error. *)
Definition LoadConditionCache (db : DB) : option (gmap string Z) * DB * option error :=
  let cache : gmap string Z := ∅ in
  let '(cache, db, err) := ConditionCache_Reload cache db in
  match err with
  | Some e => (None, db, Some e)
  | None => (Some cache, db, None)
  end.

(** ** The earlier model (orm.go)

    [orm.go] holds an earlier version of the observation codec: the line is
    a [[]string], numbers are written as decimal text by the codec itself,
    and timestamps use the layout [ISO8601Format], which names no zone. *)

Module Orm.

(** [t.Format(ISO8601Format)] with
    [ISO8601Format = "2006-01-02T15:04:05"].  The code formats without
    [UTC()], so the text is the calendar reading in the time's own location;
    [Time.t] holds the UTC reading, which is that reading for the times the
    file is written for ("everything is always UTC"). *)
Definition Format_ISO8601 (t : Time.t) : string :=
  pad4 (Time.year t) +:+ "-" +:+ pad2 (Time.month t) +:+ "-" +:+ pad2 (Time.day t)
  +:+ "T" +:+ pad2 (Time.hour t) +:+ ":" +:+ pad2 (Time.minute t) +:+ ":"
  +:+ pad2 (Time.second t).

(** [time.Parse(ISO8601Format, value)] on the texts [YYYY-MM-DDTHH:MM:SS]
    with an optional fraction of a second, with its range checks; the
    result is a UTC time.  Anything after the seconds and their fraction is
    extra text, an error. *)
Definition Parse_ISO8601 (value : string) : Time.t * option error :=
  let bad := (Time.zero, Some (ParseError value)) in
  match list_ascii_of_string value with
  | y1 :: y2 :: y3 :: y4 :: q1 :: m1 :: m2 :: q2 :: d1 :: d2 :: q3
    :: h1 :: h2 :: q4 :: n1 :: n2 :: q5 :: s1 :: s2 :: rest =>
      let '(ns, extra) := fraction rest in
      if Ascii.eqb q1 "-" && Ascii.eqb q2 "-" && Ascii.eqb q3 "T"
         && Ascii.eqb q4 ":" && Ascii.eqb q5 ":"
         && match extra with [] => true | _ => false end
      then
        match number4 y1 y2 y3 y4, number2 m1 m2, number2 d1 d2,
              number2 h1 h2, number2 n1 n2, number2 s1 s2 with
        | Some y, Some mo, Some d, Some h, Some mi, Some s =>
            let t := Time.mk y mo d h mi s ns in
            if valid_time t then (t, None) else bad
        | _, _, _, _, _, _ => bad
        end
      else bad
  | _ => bad
  end.

(** The [[]string] handed to [json.Marshal]; [None] when [obs.Path] or
    [obs.Condition] is nil (the call panics).  [fmt.Sprintf("%d", n)] and
    [strconv.Itoa(n)] print the same decimal text. *)
Definition Observation_MarshalJSON (obs : Observation.t) : option (list string) :=
  p ← Observation.Path obs;
  c ← Observation.Condition obs;
  let jslice := [ Itoa (Observation.SetID obs);
                  Format_ISO8601 (Observation.Start obs);
                  Format_ISO8601 (Observation.End_ obs);
                  Path.String p;
                  Condition.Name c ] in
  Some (if decide (Observation.Value obs = 0) then jslice
        else jslice ++ [Itoa (Observation.Value obs)]).

(** [jslice] is the [[]string] that [json.Unmarshal] filled from the bytes. *)
Definition Observation_UnmarshalJSON (obs : Observation.t) (jslice : list string)
  : Observation.t * option error :=
  match jslice with
  | j0 :: j1 :: j2 :: j3 :: j4 :: rest =>
      let obs := Observation.with_ID 0 obs in
      (* fill in Set ID; this err is overwritten by the next assignment *)
      let '(setid, _) := Atoi j0 in
      let obs := Observation.with_SetID setid obs in
      let '(start, err) := Parse_ISO8601 j1 in
      let obs := Observation.with_Start start obs in
      match err with
      | Some e => (obs, Some e)
      | None =>
          let '(end_, err) := Parse_ISO8601 j2 in
          let obs := Observation.with_End end_ obs in
          match err with
          | Some e => (obs, Some e)
          | None =>
              let obs := Observation.with_Path (Some (Path.mk 0 j3)) obs in
              let obs := Observation.with_Condition (Some (Condition.mk 0 j4)) obs in
              match rest with
              | j5 :: _ =>
                  let '(value, err) := Atoi j5 in
                  (Observation.with_Value value obs, err)
              | [] => (obs, None)
              end
          end
      end
  | _ => (obs, Some (errors_New "Observation requires at least five elements"))
  end.

End Orm.

(** ** Vocabulary of the further statements *)

(** The condition names of a store are pairwise different, as the UNIQUE
    column of the table has them. *)
Definition names_unique (db : DB) : Prop :=
  NoDup (Condition.Name <$> conditions (tables db)).

(** The membership [InsertInSet] decides by: the map an earlier call built,
    or else the one built now from the declared conditions. *)
Definition membership (set : ObservationSet.t) : gmap Z bool :=
  match ObservationSet.conditionDeclared set with
  | Some m => m
  | None => declare_conditions (elems (ObservationSet.Conditions set))
  end.

(** An observation [MarshalJSON] writes in full: it has a path and a
    condition, its times are in the range of the layout, and its set id and
    value are carried exactly by a JSON number. *)
Definition writable (O : Observation.t) : Prop :=
  is_Some (Observation.Path O) ∧ is_Some (Observation.Condition O)
  ∧ valid_time (Observation.Start O) = true ∧ valid_time (Observation.End_ O) = true
  ∧ exact_int (Observation.SetID O) ∧ exact_int (Observation.Value O).

(** The path string and the condition name of an observation are valid
    UTF-8. *)
Definition strings_valid (O : Observation.t) : Prop :=
  (∀ p, Observation.Path O = Some p → utf8_Valid (Path.String p) = true)
  ∧ (∀ c, Observation.Condition O = Some c → utf8_Valid (Condition.Name c) = true).

(** The line written for an observation is within the token size of the
    scanner. *)
Definition scannable (O : Observation.t) : Prop :=
  ∀ line, Observation_MarshalJSON O = Some line → fits line = true.

(** What [UnmarshalJSON] makes of the receiver [R] on the line written for
    [O]. *)
Definition read_back (R O : Observation.t) : Observation.t :=
  Observation.mk 0 (Observation.SetID O)
    (whole_seconds (Observation.Start O)) (whole_seconds (Observation.End_ O))
    (Observation.PathID R)
    ((λ p, Path.mk 0 (Path.String p)) <$> Observation.Path O)
    (Observation.ConditionID R)
    ((λ c, Condition.mk 0 (Condition.Name c)) <$> Observation.Condition O)
    (if decide (Observation.Value O = 0) then Observation.Value R
     else Observation.Value O).

(** The last value other than 0 among [vs], or 0. *)
Definition last_nonzero (vs : list Z) : Z :=
  default 0 (last (filter (λ v, v ≠ 0) vs)).

(** What [ReadObservations] appends, its variable holding [R], on the lines
    written for [obsdat]. *)
Fixpoint read_back_all (R : Observation.t) (obsdat : list Observation.t)
  : list Observation.t :=
  match obsdat with
  | [] => []
  | obs :: obsdat => read_back R obs :: read_back_all (read_back R obs) obsdat
  end.

(** Every cached pair is a row of the condition table. *)
Definition cache_coherent (cache : gmap string Z) (db : DB) : Prop :=
  ∀ k id, cache !! k = Some id → Condition.mk id k ∈ conditions (tables db).

(** Tables that hold all the rows of [T], in place, and maybe more after
    them. *)
Definition grown_from (T T' : Tables) : Prop :=
  conditions T `prefix_of` conditions T'
  ∧ paths T `prefix_of` paths T'
  ∧ observation_sets T `prefix_of` observation_sets T'
  ∧ observations T `prefix_of` observations T'
  ∧ observation_set_to_conditions T `prefix_of` observation_set_to_conditions T'.

(** A value of Go's [int] (64 bits). *)
Definition is_int (n : Z) : Prop := MinInt ≤ n ≤ MaxInt.

(** An object as the API has it: the three required keys hold arrays of
    strings and a string, at least one condition is named, and the entries
    under the free keys are strings. *)
Definition wire_object (jmap : gmap string json) : Prop :=
  (∃ srcs, jmap !! "_sources" = Some (JArray (JString <$> srcs)))
  ∧ (∃ ana, jmap !! "_analyzer" = Some (JString ana) ∧ ana ≠ "")
  ∧ (∃ names, jmap !! "_conditions" = Some (JArray (JString <$> names)) ∧ names ≠ [])
  ∧ ∀ k v, jmap !! k = Some v → metadata_key k = true → ∃ s, v = JString s.

(** The row that answers a select-or-insert of the path string [s], and
    the tables after it: the first stored row of that string, or else a new
    row under a generated id, appended. *)
Definition path_row (T : Tables) (s : string) : Path.t :=
  match find (λ r, String.eqb (Path.String r) s) (paths T) with
  | Some r => r
  | None => Path.mk (fresh_id (Path.ID <$> paths T)) s
  end.

Definition with_path (T : Tables) (s : string) : Tables :=
  match find (λ r, String.eqb (Path.String r) s) (paths T) with
  | Some _ => T
  | None => mkTables (conditions T) (paths T ++ [path_row T s]) (observation_sets T)
                     (observations T) (observation_set_to_conditions T)
  end.

(** The same for a condition name. *)
Definition condition_row (T : Tables) (name : string) : Condition.t :=
  match find (λ r, String.eqb (Condition.Name r) name) (conditions T) with
  | Some r => r
  | None => Condition.mk (fresh_id (Condition.ID <$> conditions T)) name
  end.

Definition with_condition (T : Tables) (name : string) : Tables :=
  match find (λ r, String.eqb (Condition.Name r) name) (conditions T) with
  | Some _ => T
  | None => mkTables (conditions T ++ [condition_row T name]) (paths T)
                     (observation_sets T) (observations T)
                     (observation_set_to_conditions T)
  end.

(** The tables with one more observation row. *)
Definition with_observation (T : Tables) (row : ObservationRow) : Tables :=
  mkTables (conditions T) (paths T) (observation_sets T) (observations T ++ [row])
           (observation_set_to_conditions T).

(** ** Further example data *)

(** A decoded observation of the condition [set_resolved] declares. *)
Definition obs_declared : Observation.t :=
  Observation.mk 0 0 midnight five_past 0 (Some (Path.mk 0 "1.2.3.0/24"))
                 0 (Some (Condition.mk 0 "icmp.unreachable")) 0.

(** Two observations of set 7, with values 42 and 0. *)
Definition obsdat_valued_then_plain : list Observation.t := [obs_valued; obs_plain].

(** A stored set without declared conditions, as [Insert] accepts it. *)
Definition set_no_conditions : ObservationSet.t :=
  ObservationSet.mk 3 (Some ["agentA"]) "pto-basic" (Some []) None {[ "note" := "x" ]}
    "" "" 0.

(** An object with metadata only. *)
Definition jmap_metadata_only : gmap string json :=
  <["note" := JString "y"]> (<["__link" := JString "http://h/obs/9"]> ∅).

(** A cache that holds a name the store has dropped. *)
Definition cache_stale : gmap string Z := {[ "smtp.helo" := 9 ]}.

(** The store that holds the declared condition and whose second statement
    fails. *)
Definition store_failing_second : DB :=
  mkDB (mkTables [Condition.mk 1 "icmp.unreachable"] [] [] [] []) (Some 1%nat) 0.

(** A line whose sixth element is no number. *)
Definition line_bad_value : list json :=
  [JNumber 7; JString "2020-01-01T00:00:00Z"; JString "2020-01-01T00:05:00Z";
   JString "1.2.3.0/24"; JString "icmp.unreachable"; JString "many"].

(** The same store, whose fifth statement fails. *)
Definition store_failing_fifth : DB :=
  mkDB (mkTables [Condition.mk 1 "icmp.unreachable"] [] [] [] []) (Some 4%nat) 0.

(** An observation whose set id does not fit a [float64] exactly. *)
Definition obs_large_set_id : Observation.t :=
  Observation.mk 0 9007199254740993 midnight five_past 0 (Some (Path.mk 0 "1.2.3.0/24")) 0
                 (Some (Condition.mk 0 "icmp.unreachable")) 42.

(** An object with a free entry and two computed entries. *)
Definition jmap_with_computed : gmap string json :=
  <["note" := JString "x"]>
    (<["__link" := JString "http://h/obs/9"]>
       (<["__obs_count" := JNumber 2]> jmap_example)).

(** * Theorems *)

(** ** The store *)

Lemma fresh_id_above (used : list Z) : ∀ x, x ∈ used → x < fresh_id used.
Proof.
  unfold fresh_id. induction used as [|y used IH]; intros x Hx.
  - inversion Hx.
  - simpl. apply elem_of_cons in Hx as [->|Hx]; [lia|].
    specialize (IH x Hx). lia.
Qed.

Lemma fresh_id_pos (used : list Z) : 0 < fresh_id used.
Proof.
  unfold fresh_id. induction used as [|y used IH]; simpl; lia.
Qed.

Lemma fresh_id_fresh (used : list Z) : fresh_id used ∉ used.
Proof. intros H. apply fresh_id_above in H. lia. Qed.

Lemma statement_eq (db : DB) : statement db = (advance db, passes db).
Proof.
  unfold statement, advance, passes. destruct (failing db) as [[|k]|]; reflexivity.
Qed.

Lemma with_links_nil (T : Tables) (id : Z) : with_links T id [] = T.
Proof. destruct T; unfold with_links; simpl. by rewrite app_nil_r. Qed.

Lemma with_links_cons (T : Tables) (id : Z) (c : Condition.t) (cs : list Condition.t) :
  with_links (with_links T id [c]) id cs = with_links T id (c :: cs).
Proof. unfold with_links; simpl. by rewrite <- app_assoc. Qed.

Lemma Exec_insert_link_pass (db : DB) (id : Z) (c : Condition.t) :
  passes db = true →
  Exec_insert_link db id (Condition.ID c)
  = (write (advance db) (with_links (tables db) id [c]), None).
Proof.
  intros Hp. unfold Exec_insert_link. rewrite statement_eq, Hp. reflexivity.
Qed.

Lemma Exec_insert_link_fail (db : DB) (id cid : Z) :
  passes db = false →
  Exec_insert_link db id cid = (advance db, Some driver_error).
Proof.
  intros Hp. unfold Exec_insert_link. rewrite statement_eq, Hp. reflexivity.
Qed.

(** The association loop, when none of its statements fails. *)
Lemma insert_links_ok (cs : list Condition.t) : ∀ (db : DB) (id : Z),
  no_fault_within (length cs) db →
  ∃ db', insert_links db id cs = (db', None)
         ∧ tables db' = with_links (tables db) id cs
         ∧ issued db' = (issued db + length cs)%nat.
Proof.
  induction cs as [|c cs IH]; intros db id Hok; simpl.
  - exists db. rewrite with_links_nil. split_and!; [done|done|lia].
  - assert (Hp : passes db = true).
    { unfold passes, no_fault_within in *. destruct (failing db) as [[|k]|]; simpl in *; [lia|done|done]. }
    rewrite Exec_insert_link_pass by done.
    destruct (IH (write (advance db) (with_links (tables db) id [c])) id)
      as (db' & Heq & HT & Hi).
    { unfold no_fault_within in *. simpl. destruct (failing db) as [[|k]|]; simpl in *; [lia|lia|done]. }
    exists db'. rewrite Heq. split_and!; [done| |simpl in Hi; lia].
    rewrite HT. simpl. apply with_links_cons.
Qed.

(** The association loop, when its statement number [k] (from 0) fails: the
    [k] rows before it stay written. *)
Lemma insert_links_fail (cs : list Condition.t) : ∀ (db : DB) (id : Z) (k : nat),
  failing db = Some k → (k < length cs)%nat →
  ∃ db', insert_links db id cs = (db', Some driver_error)
         ∧ tables db' = with_links (tables db) id (take k cs)
         ∧ issued db' = (issued db + S k)%nat.
Proof.
  induction cs as [|c cs IH]; intros db id k Hf Hk; simpl in *; [lia|].
  destruct k as [|k].
  - rewrite Exec_insert_link_fail by (unfold passes; by rewrite Hf).
    exists (advance db). simpl. rewrite with_links_nil. split_and!; [done|done|lia].
  - rewrite Exec_insert_link_pass by (unfold passes; by rewrite Hf).
    destruct (IH (write (advance db) (with_links (tables db) id [c])) id k)
      as (db' & Heq & HT & Hi).
    { simpl. by rewrite Hf. }
    { lia. }
    exists db'. rewrite Heq. split_and!; [done| |simpl in Hi; lia].
    rewrite HT. simpl. apply with_links_cons.
Qed.

Lemma Insert_set_pass (db : DB) (set : ObservationSet.t) :
  passes db = true →
  Insert_set db set
  = (write (advance db) (with_set_row (tables db) (new_set_row db set)),
     ObservationSet.with_ID (row_id (new_set_row db set)) set, None).
Proof.
  intros Hp. unfold Insert_set. rewrite statement_eq, Hp. reflexivity.
Qed.

Lemma Insert_set_fail (db : DB) (set : ObservationSet.t) :
  passes db = false → Insert_set db set = (advance db, set, Some driver_error).
Proof.
  intros Hp. unfold Insert_set. rewrite statement_eq, Hp. reflexivity.
Qed.

(** Once [force] or a zero id lets the insertion run, it runs on the set
    with its id cleared. *)
Lemma ObservationSet_Insert_runs (db : DB) (set : ObservationSet.t) (force : bool) :
  force = true ∨ ObservationSet.ID set = 0 →
  ObservationSet_Insert db set force
  = ObservationSet_Insert db (ObservationSet.with_ID 0 set) false.
Proof.
  intros [->|H0]; [reflexivity|].
  destruct set; simpl in *; subst. by destruct force.
Qed.

(** C3 (as amended).  [ObservationSet.Insert] issues the set-row insert and
    then one association insert per declared condition as separate
    statements on the handle it is given, with no transaction of its own.
    If the first statement fails nothing is written; if association insert
    number [k] (from 0) fails, the set row and the [k] association rows
    before it stay written and the error is returned; if none fails, the
    set row and every association row are written and the set receives the
    generated id. *)
Theorem ObservationSet_Insert_writes_stepwise
  (db : DB) (set : ObservationSet.t) (force : bool) :
  force = true ∨ ObservationSet.ID set = 0 →
  let cs := elems (ObservationSet.Conditions set) in
  let row := new_set_row db set in
  let '(db', set', err) := ObservationSet_Insert db set force in
  (failing db = Some O →
     err = Some driver_error ∧ tables db' = tables db)
  ∧ (∀ k, failing db = Some (S k) → (k < length cs)%nat →
     err = Some driver_error
     ∧ tables db' = with_links (with_set_row (tables db) row) (row_id row) (take k cs))
  ∧ (no_fault_within (S (length cs)) db →
     err = None
     ∧ tables db' = with_links (with_set_row (tables db) row) (row_id row) cs
     ∧ ObservationSet.ID set' = row_id row
     ∧ ObservationSet.ID set' ≠ 0).
Proof.
  intros Hrun cs row. rewrite ObservationSet_Insert_runs by done.
  unfold ObservationSet_Insert. simpl.
  destruct (passes db) eqn:Hp.
  - rewrite Insert_set_pass by done.
    change (new_set_row db (ObservationSet.with_ID 0 set)) with row.
    change (elems (ObservationSet.Conditions
                     (ObservationSet.with_ID (row_id row) (ObservationSet.with_ID 0 set))))
      with cs.
    change (ObservationSet.ID
              (ObservationSet.with_ID (row_id row) (ObservationSet.with_ID 0 set)))
      with (row_id row).
    set (db1 := write (advance db) (with_set_row (tables db) row)).
    destruct (insert_links db1 (row_id row) cs) as [db' err] eqn:Hloop.
    split_and!.
    + intros Hf. unfold passes in Hp. by rewrite Hf in Hp.
    + intros k Hf Hk.
      destruct (insert_links_fail cs db1 (row_id row) k) as (db2 & Heq & HT & _);
        [subst db1; simpl; by rewrite Hf|done|].
      rewrite Hloop in Heq. by simplify_eq.
    + intros Hok.
      destruct (insert_links_ok cs db1 (row_id row)) as (db2 & Heq & HT & _).
      { subst db1. unfold no_fault_within in *. simpl.
        destruct (failing db) as [[|k]|]; simpl in *; [lia|lia|done]. }
      rewrite Hloop in Heq. simplify_eq. split_and!; try done.
      simpl. pose proof (fresh_id_pos (row_id <$> observation_sets (tables db))). lia.
  - rewrite Insert_set_fail by done. split_and!.
    + done.
    + intros k Hf _. unfold passes in Hp. by rewrite Hf in Hp.
    + intros Hok. unfold passes, no_fault_within in *.
      destruct (failing db) as [[|k]|]; simpl in *; [lia|done|done].
Qed.

(** C3, the claim as stated fails: with two declared conditions and a store
    whose third statement (the second association insert) fails, the call
    returns the error and leaves the set row and one of the two association
    rows behind. *)
Lemma ObservationSet_Insert_keeps_partial_rows :
  let '(db', _, err) := ObservationSet_Insert store_failing_third set_two false in
  err = Some driver_error
  ∧ observation_sets (tables db') = [mkSetRow 1 (Some ["agentA"]) "pto-basic" ∅]
  ∧ observation_set_to_conditions (tables db') = [(1, 7)]
  ∧ tables db' ≠ tables store_failing_third.
Proof. vm_compute. split_and!; [reflexivity..|discriminate]. Qed.

(** An instance: two declared conditions, the third statement fails. *)
Lemma ObservationSet_Insert_writes_stepwise_witness :
  (ObservationSet_Insert store_failing_third set_two false).2 = Some driver_error
  ∧ tables (ObservationSet_Insert store_failing_third set_two false).1.1
    = with_links (with_set_row no_tables (new_set_row store_failing_third set_two))
                 1 [Condition.mk 7 "icmp.unreachable"].
Proof.
  pose proof (ObservationSet_Insert_writes_stepwise store_failing_third set_two false
                (or_intror eq_refl)) as H.
  destruct (ObservationSet_Insert store_failing_third set_two false) as [[db' set'] err].
  destruct H as (_ & H & _).
  apply (H 1%nat); [reflexivity|simpl; lia].
Defined.

(** ** [CountObservations] *)

Lemma Count_observations_eq (db : DB) (id : Z) :
  Count_observations db id
  = (advance db,
     if passes db
     then Z.of_nat (length (filter (λ r, obs_set_id r = id) (observations (tables db))))
     else 0,
     if passes db then None else Some driver_error).
Proof.
  unfold Count_observations. rewrite statement_eq. by destruct (passes db).
Qed.

(** C9 (as amended).  The count field doubles as the "not computed yet"
    mark: a call on an instance whose cached count is non-zero returns it
    without touching the store; a call on an instance whose cached count is
    0 issues exactly one count query, stores its result (the number of
    observation rows of the set, 0 when the query fails) in the instance and
    returns it.  So once a call has returned a non-zero count, every later
    call on the instance returns that count whatever the store holds. *)
Theorem ObservationSet_CountObservations_caches_nonzero
  (db : DB) (set : ObservationSet.t) :
  let '(db', set', n) := ObservationSet_CountObservations db set in
  n = ObservationSet.count set'
  ∧ (ObservationSet.count set ≠ 0 →
     db' = db ∧ set' = set ∧ n = ObservationSet.count set)
  ∧ (ObservationSet.count set = 0 →
     issued db' = S (issued db) ∧ tables db' = tables db
     ∧ n = if passes db
           then Z.of_nat (length (filter (λ r, obs_set_id r = ObservationSet.ID set)
                                         (observations (tables db))))
           else 0)
  ∧ (n ≠ 0 → ∀ db2, ObservationSet_CountObservations db2 set' = (db2, set', n)).
Proof.
  unfold ObservationSet_CountObservations.
  destruct (decide (ObservationSet.count set = 0)) as [H0|Hn].
  - rewrite Count_observations_eq. simpl. split_and!; [done|done|done|].
    intros Hnz db2. simpl. by destruct (decide _).
  - split_and!; [done|done|done|].
    intros _ db2. by destruct (decide _).
Qed.

(** C9, the claim as stated fails: a set without observations is counted
    (0, one query); an observation is then stored; the second call on the
    same instance queries again and returns 1. *)
Lemma ObservationSet_CountObservations_requeries_zero :
  let '(db1, set1, n1) := ObservationSet_CountObservations empty_store set_stored in
  let '(db2, set2, n2) :=
    ObservationSet_CountObservations (write db1 tables_one_observation) set1 in
  n1 = 0 ∧ issued db1 = 1%nat ∧ n2 = 1 ∧ issued db2 = 2%nat.
Proof. vm_compute. done. Qed.

(** ** [InsertOnce] and [InsertInSet] *)

Lemma declared_declare_conditions (cs : list Condition.t) (id : Z) :
  declared (declare_conditions cs) id = true ↔ id ∈ Condition.ID <$> cs.
Proof.
  unfold declare_conditions.
  assert (G : ∀ m : gmap Z bool,
             declared (foldl (λ m c, <[Condition.ID c := true]> m) m cs) id = true
             ↔ id ∈ Condition.ID <$> cs ∨ declared m id = true).
  { induction cs as [|c cs IH]; intros m; simpl.
    - rewrite elem_of_nil. tauto.
    - rewrite IH, elem_of_cons. unfold declared at 1.
      destruct (decide (Condition.ID c = id)) as [->|Hne].
      + rewrite lookup_insert_eq. simpl. tauto.
      + rewrite lookup_insert_ne by done. fold (declared m id).
        split; [intros [?|?]; auto|intros [[?|?]|?]; auto; congruence]. }
  rewrite G. unfold declared. rewrite lookup_empty. simpl. split; [intros [?|?]|]; auto; done.
Qed.

(** [InsertOnce] writes to its own table only. *)
Lemma Path_InsertOnce_frame (db : DB) (p : Path.t) :
  let '(db', _, _) := Path_InsertOnce db p in
  observations (tables db') = observations (tables db)
  ∧ observation_sets (tables db') = observation_sets (tables db)
  ∧ observation_set_to_conditions (tables db') = observation_set_to_conditions (tables db).
Proof.
  unfold Path_InsertOnce, SelectOrInsert_path. rewrite statement_eq.
  destruct (decide _); [|done]. destruct (passes db); [|done].
  simpl. by destruct (find _ _).
Qed.

Lemma Condition_InsertOnce_frame (db : DB) (c : Condition.t) :
  let '(db', _, _) := Condition_InsertOnce db c in
  observations (tables db') = observations (tables db)
  ∧ observation_sets (tables db') = observation_sets (tables db)
  ∧ observation_set_to_conditions (tables db') = observation_set_to_conditions (tables db).
Proof.
  unfold Condition_InsertOnce, SelectOrInsert_condition. rewrite statement_eq.
  destruct (decide _); [|done]. destruct (passes db); [|done].
  simpl. by destruct (find _ _).
Qed.

(** C1, what the code does when the resolved condition is not declared:
    the call returns the bare [fmt.Errorf] value, which carries no status
    and is not a client-input error; no observation row, set row or
    association row was written. *)
Theorem Observation_InsertInSet_undeclared_is_plain_error
  (db db1 db2 : DB) (obs : Observation.t) (set : ObservationSet.t)
  (p p1 : Path.t) (c c2 : Condition.t) :
  Observation.Path obs = Some p →
  Observation.Condition obs = Some c →
  ObservationSet.conditionDeclared set = None
  ∨ ObservationSet.conditionDeclared set
    = Some (declare_conditions (elems (ObservationSet.Conditions set))) →
  Path_InsertOnce db p = (db1, p1, None) →
  Condition_InsertOnce db1 c = (db2, c2, None) →
  Condition.ID c2 ∉ Condition.ID <$> elems (ObservationSet.Conditions set) →
  ∃ obs' set' e,
    Observation_InsertInSet db obs set = Some (db2, obs', set', Some e)
    ∧ e = errors_New ("cannot insert observation with undeclared condition "
                      +:+ Condition.Name c2)
    ∧ client_input_error e = false
    ∧ observations (tables db2) = observations (tables db)
    ∧ observation_sets (tables db2) = observation_sets (tables db)
    ∧ observation_set_to_conditions (tables db2)
      = observation_set_to_conditions (tables db).
Proof.
  intros HP HC Hm HpI HcI Hnot.
  pose proof (Path_InsertOnce_frame db p) as Fp. rewrite HpI in Fp.
  pose proof (Condition_InsertOnce_frame db1 c) as Fc. rewrite HcI in Fc.
  destruct Fp as (Fp1 & Fp2 & Fp3), Fc as (Fc1 & Fc2 & Fc3).
  assert (Hd : declared
                 (match ObservationSet.conditionDeclared set with
                  | None => declare_conditions (elems (ObservationSet.Conditions set))
                  | Some m => m
                  end) (Condition.ID c2) = false).
  { apply not_true_is_false. intros Ht. apply Hnot.
    apply declared_declare_conditions. by destruct Hm as [Hm|Hm]; rewrite Hm in Ht. }
  unfold Observation_InsertInSet. rewrite HP. simpl. rewrite HpI. simpl.
  rewrite HC. simpl. rewrite HcI. simpl. rewrite Hd. simpl.
  eexists _, _, _. split_and!; [reflexivity|reflexivity|reflexivity|congruence..].
Qed.

(** An instance: the set declares [icmp.unreachable], the observation is of
    [dns.timeout]. *)
Lemma Observation_InsertInSet_undeclared_witness :
  ∃ db2 obs' set',
    Observation_InsertInSet store_one_condition obs_undeclared set_resolved
    = Some (db2, obs', set',
            Some (errors_New "cannot insert observation with undeclared condition dns.timeout"))
    ∧ observations (tables db2) = []
    ∧ observation_sets (tables db2) = [].
Proof.
  destruct (Observation_InsertInSet_undeclared_is_plain_error
              store_one_condition
              (Path_InsertOnce store_one_condition (Path.mk 0 "1.2.3.0/24")).1.1
              (Condition_InsertOnce
                 (Path_InsertOnce store_one_condition (Path.mk 0 "1.2.3.0/24")).1.1
                 (Condition.mk 0 "dns.timeout")).1.1
              obs_undeclared set_resolved
              (Path.mk 0 "1.2.3.0/24") (Path.mk 1 "1.2.3.0/24")
              (Condition.mk 0 "dns.timeout") (Condition.mk 2 "dns.timeout")
              eq_refl eq_refl (or_introl eq_refl) eq_refl eq_refl)
    as (obs' & set' & e & Heq & -> & _ & Ho & Hs & _).
  { simpl. intros Hin. apply elem_of_cons in Hin as [Hin|Hin]; [discriminate|inversion Hin]. }
  eexists _, obs', set'. split_and!; [exact Heq|exact Ho|exact Hs].
Defined.

(** ** [FillConditionIDsInSet] *)

(** The set handed to [FillConditionIDsInSet] comes back as it went in: the
    ids go to the cache and to the loop variable. *)
Lemma ConditionCache_FillConditionIDsInSet_set_unchanged
  (cache : gmap string Z) (db : DB) (set : ObservationSet.t) :
  (ConditionCache_FillConditionIDsInSet cache db set).1.2 = set.
Proof.
  unfold ConditionCache_FillConditionIDsInSet.
  by destruct (fill_condition_ids _ _ _) as [[??]?].
Qed.

(** C2, the code at a decoded set: resolving the set against an empty cache
    and an empty store succeeds, stores the condition under id 1 and caches
    it, and leaves the set's declared condition with id 0. *)
Theorem ConditionCache_FillConditionIDsInSet_leaves_ids_unassigned :
  let '(cache', db', set', err) :=
    ConditionCache_FillConditionIDsInSet ∅ empty_store set_decoded in
  err = None
  ∧ cache' = {[ "icmp.unreachable" := 1 ]}
  ∧ conditions (tables db') = [Condition.mk 1 "icmp.unreachable"]
  ∧ ObservationSet.Conditions set' = Some [Condition.mk 0 "icmp.unreachable"].
Proof. vm_compute. done. Qed.

(** ** The condition cache *)

Lemma ConditionCache_Reload_eq (cache : gmap string Z) (db : DB) :
  ConditionCache_Reload cache db
  = if passes db
    then (cache_rows cache (conditions (tables db)), advance db, None)
    else (cache, advance db, Some (PTOWrapError driver_error)).
Proof.
  unfold ConditionCache_Reload, Select_conditions. rewrite statement_eq.
  by destruct (passes db).
Qed.

(** A reload keeps what was cached and adds every stored name. *)
Lemma cache_rows_is_Some (rows : list Condition.t) : ∀ (cache : gmap string Z) (k : string),
  is_Some (cache_rows cache rows !! k)
  ↔ is_Some (cache !! k) ∨ k ∈ Condition.Name <$> rows.
Proof.
  unfold cache_rows. induction rows as [|c rows IH]; intros cache k; simpl.
  - rewrite elem_of_nil. tauto.
  - rewrite IH, elem_of_cons. destruct (decide (Condition.Name c = k)) as [->|Hne].
    + rewrite lookup_insert_eq. split; [auto|intros _; left; eauto].
    + rewrite lookup_insert_ne by done. split; [tauto|intros [?|[?|?]]; auto; congruence].
Qed.

Lemma cache_rows_assigned (rows : list Condition.t) : ∀ cache : gmap string Z,
  cache_ids_assigned cache →
  (∀ c, c ∈ rows → Condition.ID c ≠ 0) →
  cache_ids_assigned (cache_rows cache rows).
Proof.
  unfold cache_rows, cache_ids_assigned.
  induction rows as [|c rows IH]; intros cache Hc Hr; simpl; [done|].
  apply IH.
  - intros k. destruct (decide (Condition.Name c = k)) as [->|Hne].
    + rewrite lookup_insert_eq. intros [=E]. apply (Hr c); [left|done].
    + by rewrite lookup_insert_ne.
  - intros c' Hc'. apply Hr. by right.
Qed.

(** Where no id is 0, the code's test [cache[name] == 0] tells whether
    [name] is cached. *)
Lemma cache_get_zero (cache : gmap string Z) (name : string) :
  cache_ids_assigned cache → (cache_get cache name = 0 ↔ cache !! name = None).
Proof.
  intros Hc. unfold cache_get. specialize (Hc name).
  destruct (cache !! name) as [id|]; simpl; [|done].
  split; [intros ->; done|done].
Qed.

(** The loop that collects the matching cached names, as a filter. *)
Lemma collect_matching (f : string → Condition.t) (P : string → bool) (keys : list string) :
  ∀ out : list Condition.t,
  foldl (λ out k, if P k then out ++ [f k] else out) out keys
  = out ++ (f <$> filter (λ k, P k = true) keys).
Proof.
  induction keys as [|k keys IH]; intros out; simpl.
  - by rewrite app_nil_r.
  - rewrite IH, filter_cons. destruct (decide (P k = true)) as [HP|HP].
    + rewrite HP. simpl. by rewrite <- app_assoc.
    + apply not_true_is_false in HP. by rewrite HP.
Qed.

Lemma cache_rows_lookup (rows : list Condition.t) : ∀ (cache : gmap string Z) (k : string),
  cache_rows cache rows !! k
  = match last (filter (λ c, Condition.Name c = k) rows) with
    | Some c => Some (Condition.ID c)
    | None => cache !! k
    end.
Proof.
  unfold cache_rows. induction rows as [|c rows IH]; intros cache k; simpl; [done|].
  rewrite IH, filter_cons. destruct (decide (Condition.Name c = k)) as [->|Hne].
  - rewrite lookup_insert_eq.
    destruct (filter _ rows) as [|c' f] eqn:Ef; [done|].
    change (last (c :: c' :: f)) with (last (c' :: f)).
    destruct (last (c' :: f)) eqn:EL; [done|]. by apply last_None in EL.
  - by rewrite lookup_insert_ne.
Qed.

Section Cache.
Context {R : MapRange}.

Lemma map_range_keys {V : Type} (m : gmap string V) (k : string) :
  k ∈ (map_range m).*1 ↔ is_Some (m !! k).
Proof.
  rewrite (map_range_perm V m). rewrite list_elem_of_fmap. split.
  - intros ([k' v] & -> & Hin). apply elem_of_map_to_list in Hin. eauto.
  - intros [v Hv]. exists (k, v). split; [done|]. by apply elem_of_map_to_list.
Qed.

Lemma map_range_keys_NoDup {V : Type} (m : gmap string V) : NoDup (map_range m).*1.
Proof. rewrite (map_range_perm V m). apply NoDup_fst_map_to_list. Qed.

(** C7.  For a name that does not end in [.*], in a cache and a store
    holding no id 0: if the name is cached, the single cached condition is
    returned and neither the cache nor the store is touched; if it is not,
    exactly one statement (the reload) is issued and no table is written.
    If the reload fails, its error is returned and the cache is as before.
    Otherwise every name is cached afterwards with the id of the last
    stored row of that name, or as before when no row has it; and if a row
    has the requested name, the single condition of that name, with the id
    of the last such row, is returned, and otherwise the call fails with
    the client-input error [unknown condition <name>]. *)
Theorem ConditionCache_ConditionsByName_exact
  (cache : gmap string Z) (db : DB) (name : string) :
  HasSuffix name ".*" = false →
  cache_ids_assigned cache →
  row_ids_assigned db →
  let '(cache', db', out, err) := ConditionCache_ConditionsByName cache db name in
  match cache !! name with
  | Some id =>
      cache' = cache ∧ db' = db ∧ out = Some [Condition.mk id name] ∧ err = None
  | None =>
      issued db' = S (issued db) ∧ tables db' = tables db
      ∧ if passes db then
          (∀ k, cache' !! k
                = match last (filter (λ c, Condition.Name c = k)
                                     (conditions (tables db))) with
                  | Some c => Some (Condition.ID c)
                  | None => cache !! k
                  end)
          ∧ match last (filter (λ c, Condition.Name c = name)
                               (conditions (tables db))) with
            | Some c =>
                out = Some [Condition.mk (Condition.ID c) name] ∧ err = None
            | None =>
                out = None
                ∧ err = Some (PTOError ("unknown condition " +:+ name) StatusBadRequest)
                ∧ (∃ e, err = Some e ∧ client_input_error e = true)
            end
        else cache' = cache ∧ out = None ∧ err = Some (PTOWrapError driver_error)
  end.
Proof.
  intros Hsuf Hc Hr. unfold ConditionCache_ConditionsByName. rewrite Hsuf.
  destruct (cache !! name) as [id|] eqn:Hl.
  - assert (Hg : cache_get cache name = id) by (unfold cache_get; by rewrite Hl).
    assert (Hid : id ≠ 0) by (intros ->; by apply (Hc name)).
    rewrite Hg. rewrite decide_False by done. simpl. rewrite Hg.
    by rewrite decide_False by done.
  - assert (Hg : cache_get cache name = 0) by (unfold cache_get; by rewrite Hl).
    rewrite Hg. rewrite decide_True by done. rewrite ConditionCache_Reload_eq.
    destruct (passes db); [|done]. simpl.
    set (cache' := cache_rows cache (conditions (tables db))).
    assert (Hc' : cache_ids_assigned cache') by (by apply cache_rows_assigned).
    assert (Hl' := cache_rows_lookup (conditions (tables db)) cache name).
    fold cache' in Hl'. rewrite Hl in Hl'.
    destruct (last (filter (λ c, Condition.Name c = name) (conditions (tables db))))
      as [c|] eqn:EL.
    + assert (Hg' : cache_get cache' name = Condition.ID c)
        by (unfold cache_get; by rewrite Hl').
      assert (Hid : Condition.ID c ≠ 0) by (intros E; apply (Hc' name); by rewrite Hl', E).
      rewrite !Hg'. rewrite decide_False by done. simpl.
      split_and!; try done. intros k. apply cache_rows_lookup.
    + assert (Hg' : cache_get cache' name = 0) by (unfold cache_get; by rewrite Hl').
      rewrite Hg'. rewrite decide_True by done. simpl.
      split_and!; try done; [intros k; apply cache_rows_lookup|].
      eexists. split; [done|]. reflexivity.
Qed.

(** C8.  For a pattern that ends in [.*] the call issues exactly one
    statement, the reload.  If the reload fails its error is returned.
    Otherwise the call succeeds, whatever the result: it returns, once each
    and in the order the map happens to be ranged over, exactly the
    conditions of the reloaded cache whose name starts with the pattern
    less its last character. *)
Theorem ConditionCache_ConditionsByName_wildcard
  (cache : gmap string Z) (db : DB) (pattern : string) :
  HasSuffix pattern ".*" = true →
  let '(cache', db', out, err) := ConditionCache_ConditionsByName cache db pattern in
  issued db' = S (issued db) ∧ tables db' = tables db
  ∧ if passes db then
      cache' = cache_rows cache (conditions (tables db))
      ∧ err = None
      ∧ ∃ l, out = Some l ∧ NoDup l
             ∧ ∀ c, c ∈ l ↔ cache' !! Condition.Name c = Some (Condition.ID c)
                            ∧ HasPrefix (Condition.Name c) (drop_last pattern) = true
    else cache' = cache ∧ out = None ∧ err = Some (PTOWrapError driver_error).
Proof.
  intros Hsuf. unfold ConditionCache_ConditionsByName. rewrite Hsuf.
  rewrite ConditionCache_Reload_eq. destruct (passes db); [|done].
  set (cache' := cache_rows cache (conditions (tables db))).
  split_and!; [done|done|done|done|].
  rewrite (collect_matching (λ k, Condition.mk (cache_get cache' k) k)
             (λ k, HasPrefix k (drop_last pattern))). simpl.
  eexists. split; [done|]. split.
  - apply NoDup_fmap_2.
    + intros k1 k2 [=]. done.
    + apply NoDup_filter, map_range_keys_NoDup.
  - intros [id k]. rewrite list_elem_of_fmap. simpl. split.
    + intros (k' & [= -> ->] & Hin). apply list_elem_of_filter in Hin as [HP Hin].
      apply map_range_keys in Hin as [v Hv]. unfold cache_get. by rewrite Hv.
    + intros [Hl HP]. exists k. split.
      * unfold cache_get. by rewrite Hl.
      * apply list_elem_of_filter. split; [done|]. apply map_range_keys. eauto.
Qed.

End Cache.

(** An instance: [http.get] is stored with the id 1 and not cached; the
    call reloads, caches it and returns it. *)
Lemma ConditionCache_ConditionsByName_exact_witness :
  let '(cache', db', out, err) :=
    ConditionCache_ConditionsByName (H := range_sorted) ∅ store_http "http.get" in
  issued db' = 1%nat
  ∧ cache' !! "http.get" = Some 1
  ∧ out = Some [Condition.mk 1 "http.get"]
  ∧ err = None.
Proof.
  pose proof (ConditionCache_ConditionsByName_exact (R := range_sorted)
                ∅ store_http "http.get" eq_refl) as H.
  destruct (ConditionCache_ConditionsByName ∅ store_http "http.get")
    as [[[cache' db'] out] err].
  destruct H as (Hi & _ & Hc & Hrest).
  - intros k. by rewrite lookup_empty.
  - intros c Hc. simpl in Hc. rewrite !elem_of_cons, elem_of_nil in Hc.
    destruct Hc as [->|[->|[->|[]]]]; discriminate.
  - specialize (Hc "http.get"). vm_compute in Hrest. destruct Hrest as [-> ->].
    split_and!; [exact Hi|rewrite Hc; reflexivity|reflexivity|reflexivity].
Defined.

(** An instance, the example of the spec: with [http.get], [http.post] and
    [ftp.get] stored, [http.*] yields exactly the first two. *)
Lemma ConditionCache_ConditionsByName_wildcard_witness :
  ∃ l, (ConditionCache_ConditionsByName (H := range_sorted) ∅ store_http "http.*").1.2
       = Some l
       ∧ l ≡ₚ [Condition.mk 1 "http.get"; Condition.mk 2 "http.post"].
Proof.
  pose proof (ConditionCache_ConditionsByName_wildcard (R := range_sorted)
                ∅ store_http "http.*" eq_refl) as H.
  destruct (ConditionCache_ConditionsByName ∅ store_http "http.*") as [[[cache' db'] out] err].
  simpl in H. destruct H as (_ & _ & -> & _ & l & -> & Hnd & Hl).
  exists l. split; [done|]. apply NoDup_Permutation; [done| |].
  { apply NoDup_cons. split; [|apply NoDup_singleton].
    intros Hin. apply elem_of_cons in Hin as [Hin|Hin]; [discriminate|inversion Hin]. }
  intros [id k]. rewrite Hl. simpl. rewrite <- elem_of_map_to_list.
  match goal with
  | |- context [map_to_list ?m] =>
      replace (map_to_list m)
        with [("ftp.get", 3); ("http.get", 1); ("http.post", 2)] by (by vm_compute)
  end.
  rewrite !elem_of_cons, !elem_of_nil. split.
  - intros [[[= -> ->]|[[= -> ->]|[[= -> ->]|[]]]] HP]; [discriminate|by left|right; by left].
  - intros [[= -> ->]|[[= -> ->]|[]]]; (split; [|reflexivity]); auto.
Defined.

(** ** Timestamps *)

Lemma digit_value_digit_char (n : Z) :
  digit_value (digit_char n) = Some (Z.modulo n 10).
Proof.
  unfold digit_value, digit_char.
  pose proof (Z.mod_pos_bound n 10 ltac:(lia)) as Hm.
  rewrite nat_ascii_embedding by lia.
  replace ((48 <=? Z.to_nat (48 + n `mod` 10))%nat) with true
    by (symmetry; apply Nat.leb_le; lia).
  replace ((Z.to_nat (48 + n `mod` 10) <=? 57)%nat) with true
    by (symmetry; apply Nat.leb_le; lia).
  simpl. f_equal. lia.
Qed.

Lemma number2_pad (n : Z) :
  0 ≤ n < 100 → number2 (digit_char (n / 10)) (digit_char n) = Some n.
Proof.
  intros Hn. unfold number2. rewrite !digit_value_digit_char. simpl.
  f_equal. rewrite (Z.mod_small (n / 10) 10) by (split; [apply Z.div_pos; lia|apply Z.div_lt_upper_bound; lia]).
  pose proof (Z.div_mod n 10 ltac:(lia)). lia.
Qed.

Lemma number4_pad (n : Z) :
  0 ≤ n < 10000 →
  number4 (digit_char (n / 1000)) (digit_char (n / 100))
          (digit_char (n / 10)) (digit_char n) = Some n.
Proof.
  intros Hn. unfold number4, number2. rewrite !digit_value_digit_char. simpl.
  f_equal.
  pose proof (Z.div_mod n 10 ltac:(lia)).
  pose proof (Z.div_mod (n / 10) 10 ltac:(lia)).
  pose proof (Z.div_mod (n / 100) 10 ltac:(lia)).
  pose proof (Z.div_mod (n / 1000) 10 ltac:(lia)).
  replace (n / 100) with (n / 10 / 10) in * by (rewrite Z.div_div by lia; done).
  replace (n / 1000) with (n / 10 / 10 / 10) in * by (rewrite !Z.div_div by lia; done).
  assert (n / 10 / 10 / 10 / 10 = 0).
  { rewrite !Z.div_div by lia. apply Z.div_small. lia. }
  lia.
Qed.

Lemma in_range_spec (lo hi n : Z) : in_range lo hi n = true ↔ lo ≤ n ≤ hi.
Proof. unfold in_range. rewrite andb_true_iff, !Z.leb_le. done. Qed.

Lemma valid_time_whole_seconds (t : Time.t) :
  valid_time t = true → valid_time (whole_seconds t) = true.
Proof.
  unfold valid_time. simpl. rewrite !andb_true_iff.
  intros [[[[[[? ?] ?] ?] ?] ?] ?]. split_and!; done.
Qed.

(** Formatting a time and parsing the text back yields its whole seconds:
    the nanoseconds are not written. *)
Lemma Parse_Format_RFC3339 (t : Time.t) :
  valid_time t = true →
  Parse_RFC3339 (Format_RFC3339 t) = (whole_seconds t, None).
Proof.
  intros Hv. pose proof (valid_time_whole_seconds t Hv) as Hw.
  unfold valid_time in Hv. rewrite !andb_true_iff, !in_range_spec in Hv.
  destruct Hv as [[[[[[Hy Hmo] Hd] Hh] Hmi] Hs] Hn].
  assert (Hd' : 1 ≤ Time.day t ≤ 31).
  { unfold daysIn in Hd. repeat case_match; lia. }
  unfold Parse_RFC3339, Format_RFC3339, pad4, pad2. simpl.
  rewrite number4_pad by lia. rewrite !number2_pad by lia.
  fold (whole_seconds t). by rewrite Hw.
Qed.

(** ** [strconv.Atoi] *)

(** A syntax error comes with the value 0. *)
Lemma Atoi_syntax_value (s func num : string) (v : Z) :
  Atoi s = (v, Some (NumError func num false)) → v = 0.
Proof.
  unfold Atoi. destruct s as [|c r]; [by intros [= <-]|].
  destruct (ParseUint _) as [un [[|]|]]; repeat case_match; by intros [=].
Qed.

Lemma digit_value_bounds (c : ascii) (d : Z) : digit_value c = Some d → 0 ≤ d ≤ 9.
Proof.
  unfold digit_value. destruct (_ && _) eqn:E; [|done]. intros [= <-].
  apply andb_true_iff in E as [E1%Nat.leb_le E2%Nat.leb_le]. lia.
Qed.

Lemma digits_value_ge (s : string) : ∀ acc v : Z,
  0 ≤ acc → digits_value acc s = Some v → acc ≤ v.
Proof.
  induction s as [|c r IH]; intros acc v Hacc; simpl.
  - intros [= <-]. lia.
  - destruct (digit_value c) as [d|] eqn:Hd; [|done].
    apply digit_value_bounds in Hd.
    intros Hv. apply IH in Hv; lia.
Qed.

(** Within 64 bits the scan meets no overflow and returns the number the
    digits denote. *)
Lemma ParseUint_from_exact (s : string) : ∀ acc v : Z,
  0 ≤ acc → digits_value acc s = Some v → v ≤ MaxUint64 →
  ParseUint_from acc s = (v, None).
Proof.
  induction s as [|c r IH]; intros acc v Hacc; simpl.
  - by intros [= <-].
  - destruct (digit_value c) as [d|] eqn:Hd; [|done].
    intros Hv Hmax.
    apply digit_value_bounds in Hd.
    pose proof (digits_value_ge r (acc * 10 + d) v ltac:(lia) Hv) as Hge.
    change (MaxUint64 / 10 + 1) with 1844674407370955162.
    change MaxUint64 with 18446744073709551615 in *.
    rewrite (proj2 (Z.leb_gt _ _)) by lia.
    rewrite (proj2 (Z.ltb_ge _ _)) by lia.
    apply IH; [lia|done|done].
Qed.

Lemma digits_value_printed_from (u : Decimal.uint) : ∀ p : positive,
  digits_value (Z.pos p) (NilEmpty.string_of_uint u)
  = Some (Z.pos (Pos.of_uint_acc u p)).
Proof.
  induction u; intros q; simpl; try reflexivity;
    unfold digit_value; simpl; rewrite <- IHu; f_equal;
    match goal with
    | |- context [Z.of_nat (nat_of_ascii ?c)] =>
        let v := eval vm_compute in (Z.of_nat (nat_of_ascii c)) in
        change (Z.of_nat (nat_of_ascii c)) with v
    end; lia.
Qed.

Lemma digits_value_printed (u : Decimal.uint) :
  digits_value 0 (NilEmpty.string_of_uint u) = Some (Z.of_N (Pos.of_uint u)).
Proof.
  induction u; simpl; try reflexivity; try exact IHu;
    unfold digit_value; simpl; apply digits_value_printed_from.
Qed.

(** Printed unsigned decimals start with a digit. *)
Lemma printed_head (u : Decimal.uint) :
  u ≠ Nil →
  ∃ c r, NilEmpty.string_of_uint u = String c r
         ∧ Ascii.eqb c "+" = false ∧ Ascii.eqb c "-" = false.
Proof. destruct u; [done|..]; intros _; simpl; eauto. Qed.

Lemma ParseUint_printed (p : positive) :
  Z.pos p ≤ MaxUint64 →
  ParseUint (NilEmpty.string_of_uint (Pos.to_uint p)) = (Z.pos p, None).
Proof.
  intros Hp.
  destruct (printed_head (Pos.to_uint p) (Unsigned.to_uint_nonnil p)) as (c & r & Heq & _).
  unfold ParseUint. rewrite Heq, <- Heq.
  apply ParseUint_from_exact; [lia| |done].
  by rewrite digits_value_printed, DecimalPos.Unsigned.of_to.
Qed.

(** [Atoi] reads back the decimal text of every [int]. *)
Lemma Atoi_Itoa (n : Z) : MinInt ≤ n ≤ MaxInt → Atoi (Itoa n) = (n, None).
Proof.
  unfold MinInt, MaxInt. intros Hn. destruct n as [|p|p].
  - reflexivity.
  - unfold Itoa. simpl.
    pose proof (Unsigned.to_uint_nonnil p) as Hnn.
    destruct (printed_head (Pos.to_uint p) Hnn) as (c & r & Heq & Hplus & Hminus).
    replace (NilZero.string_of_uint (Pos.to_uint p))
      with (NilEmpty.string_of_uint (Pos.to_uint p))
      by (unfold NilZero.string_of_uint; by destruct (Pos.to_uint p)).
    unfold Atoi. rewrite Heq, Hplus, Hminus. cbn -[ParseUint Z.pow]. rewrite <- Heq.
    rewrite ParseUint_printed by (unfold MaxUint64; lia).
    rewrite (proj2 (Z.leb_gt _ _)) by lia. reflexivity.
  - unfold Itoa. simpl.
    replace (NilZero.string_of_uint (Pos.to_uint p))
      with (NilEmpty.string_of_uint (Pos.to_uint p))
      by (unfold NilZero.string_of_uint;
          pose proof (Unsigned.to_uint_nonnil p); by destruct (Pos.to_uint p)).
    unfold Atoi. cbn -[ParseUint Z.pow].
    rewrite ParseUint_printed by (unfold MaxUint64; lia).
    rewrite (proj2 (Z.ltb_ge _ _)) by lia. reflexivity.
Qed.

(** ** The library calls between encoder and decoder *)

Lemma valid_bytes_wire (s : list ascii) : ∀ pending,
  valid_bytes pending s = true → wire_bytes pending s = s.
Proof.
  induction s as [|b r IH]; intros pending; [done|].
  cbn [valid_bytes wire_bytes]. destruct pending as [|k].
  - destruct (rune_size (b :: r)) as [n|]; [|done]. intros H. by rewrite IH.
  - intros H. by rewrite IH.
Qed.

(** [json.Marshal] writes valid UTF-8 as it is. *)
Lemma wire_string_valid (s : string) : utf8_Valid s = true → wire_string s = s.
Proof.
  unfold utf8_Valid, wire_string. intros H.
  by rewrite valid_bytes_wire, string_of_list_ascii_of_string.
Qed.

Lemma valid_bytes_ascii (s : list ascii) :
  Forall (λ b, (nat_of_ascii b < 128)%nat) s → valid_bytes 0 s = true.
Proof.
  induction 1 as [|b r Hb _ IH]; [done|].
  cbn [valid_bytes]. unfold rune_size.
  replace (Z.of_nat (nat_of_ascii b) <? 128) with true by (symmetry; apply Z.ltb_lt; lia).
  exact IH.
Qed.

Lemma digit_char_ascii (n : Z) : (nat_of_ascii (digit_char n) < 128)%nat.
Proof.
  unfold digit_char. pose proof (Z.mod_pos_bound n 10 ltac:(lia)).
  rewrite nat_ascii_embedding by lia. lia.
Qed.

Lemma utf8_Valid_Format_RFC3339 (t : Time.t) : utf8_Valid (Format_RFC3339 t) = true.
Proof.
  unfold utf8_Valid. apply valid_bytes_ascii.
  unfold Format_RFC3339, pad4, pad2. simpl.
  repeat (apply Forall_cons; split; [first [apply digit_char_ascii|vm_compute; lia]|]).
  apply Forall_nil_2.
Qed.

(** A [float64] holds every integer up to 2^53 in magnitude. *)
Lemma float64_of_int_exact (n : Z) : exact_int n → float64_of_int n = n.
Proof.
  unfold exact_int, float64_of_int. change (2 ^ 53) with 9007199254740992. intros Hn.
  destruct (decide (Z.abs n = 9007199254740992)) as [E|E].
  - destruct (Z.abs_spec n) as [[? Ha]|[? Ha]]; rewrite Ha in E.
    + subst n. reflexivity.
    + assert (n = -9007199254740992) as -> by lia. reflexivity.
  - assert (Hl : Z.log2 (Z.abs n) - 52 ≤ 0).
    { destruct (decide (Z.abs n = 0)) as [->|N0]; [done|].
      assert (Z.log2 (Z.abs n) < 53); [|lia].
      apply Z.log2_lt_pow2; [lia|]. change (2 ^ 53) with 9007199254740992. lia. }
    by rewrite (proj2 (Z.leb_le _ _) Hl).
Qed.

Lemma wire_strings (l : list string) :
  Forall (λ s, utf8_Valid s = true) l →
  wire (JArray (JString <$> l)) = JArray (JString <$> l).
Proof.
  intros H. cbn [wire]. f_equal.
  induction H as [|s l Hs _ IH]; [done|].
  cbn. by rewrite wire_string_valid, IH.
Qed.

Lemma foldl_insert_ext {V W : Type} (f g : string * V → string * W)
  (kvs : list (string * V)) :
  ∀ base : gmap string W,
  (∀ kv, kv ∈ kvs → f kv = g kv) →
  foldl (λ m kv, <[(f kv).1 := (f kv).2]> m) base kvs
  = foldl (λ m kv, <[kv.1 := kv.2]> m) base (g <$> kvs).
Proof.
  induction kvs as [|kv kvs IH]; intros base Hf; [done|].
  simpl. rewrite (Hf kv) by left. apply IH. intros kv' Hin. apply Hf. by right.
Qed.

Lemma foldl_insert_list_to_map {V : Type} (kvs : list (string * V)) :
  ∀ base : gmap string V,
  NoDup kvs.*1 →
  foldl (λ m kv, <[kv.1 := kv.2]> m) base kvs = list_to_map kvs ∪ base.
Proof.
  induction kvs as [|[k v] kvs IH]; intros base Hnd; simpl.
  - by rewrite (left_id_L ∅ (∪)).
  - apply NoDup_cons in Hnd as [Hk Hnd]. rewrite IH by done.
    rewrite insert_union_singleton_l.
    rewrite (assoc_L (∪)). f_equal.
    rewrite insert_union_singleton_l. apply map_union_comm.
    apply map_disjoint_singleton_r_2. by apply not_elem_of_list_to_map_1.
Qed.

(** Where the two calls leave the keys of a map as they are, what the
    decoder finds is the map of the values as it finds them. *)
Lemma wire_map_fmap (jmap : gmap string json) :
  (∀ k, is_Some (jmap !! k) → wire_string k = k) →
  wire_map jmap = wire <$> jmap.
Proof.
  intros H. unfold wire_map.
  pose proof (merge_sort_Permutation key_le (map_to_list jmap)) as HP.
  assert (Hnd : NoDup (merge_sort key_le (map_to_list jmap)).*1).
  { rewrite HP. apply NoDup_fst_map_to_list. }
  rewrite (foldl_insert_ext (λ kv, (wire_string kv.1, wire kv.2)) (prod_map id wire)).
  - rewrite foldl_insert_list_to_map.
    + rewrite (right_id_L ∅ (∪)), list_to_map_fmap. f_equal.
      rewrite <- (list_to_map_to_list jmap) at 2.
      by apply list_to_map_proper.
    + rewrite <- list_fmap_compose.
      erewrite (list_fmap_ext _ fst); [exact Hnd|]. by intros i [k v] _.
  - intros [k v] Hin. rewrite HP in Hin. apply elem_of_map_to_list in Hin.
    unfold prod_map. simpl. by rewrite H by eauto.
Qed.

(** ** The set codec *)

Lemma step_single_key {A : Type} (m : gmap string json) (k key : string) (v : json)
  (u : json → A) (x : A) :
  m !! k = None →
  match m !! key with
  | Some v' => u v'
  | None => if decide (k = key) then u v else x
  end
  = match <[k := v]> m !! key with
    | Some v' => u v'
    | None => x
    end.
Proof.
  intros Hk. destruct (decide (k = key)) as [->|Hne].
  - by rewrite Hk, lookup_insert_eq.
  - by rewrite lookup_insert_ne.
Qed.

(** However a map is ranged over, the entries visited make up the map. *)
Lemma list_to_map_range {R : MapRange} {V : Type} (m : gmap string V) :
  list_to_map (map_range m) = m.
Proof.
  rewrite <- (list_to_map_to_list m) at 2.
  apply list_to_map_proper; [|apply map_range_perm].
  rewrite (map_range_perm V m). apply NoDup_fst_map_to_list.
Qed.

Lemma map_range_NoDup {R : MapRange} {V : Type} (m : gmap string V) :
  NoDup (map_range m).*1.
Proof. rewrite (map_range_perm V m). apply NoDup_fst_map_to_list. Qed.

Section SetCodec.
Context {U : Helpers}.

(** One turn of the loop: whether it returns, and what it assigns. *)
Lemma unmarshal_entry_cases (set : ObservationSet.t) (k : string) (v : json) :
  let '(set', err) := unmarshal_entry set k v in
  (err = None ↔ entry_refused k v = false)
  ∧ (err = None →
     ObservationSet.Sources set'
     = (if decide (k = "_sources") then (AsStringArray v).1 else ObservationSet.Sources set)
     ∧ ObservationSet.Analyzer set'
       = (if decide (k = "_analyzer") then AsString v else ObservationSet.Analyzer set)
     ∧ ObservationSet.Conditions set'
       = (if decide (k = "_conditions")
          then make_slice (Condition.mk 0) (elems (AsStringArray v).1)
          else ObservationSet.Conditions set)
     ∧ ObservationSet.Metadata set'
       = (if metadata_key k then <[k := AsString v]> (ObservationSet.Metadata set)
          else ObservationSet.Metadata set)
     ∧ ObservationSet.ID set' = ObservationSet.ID set).
Proof.
  unfold unmarshal_entry, entry_refused, metadata_key.
  destruct (decide (k = "_sources")) as [->|N1].
  { destruct (AsStringArray v) as [srcs [|]]; simpl.
    - split; [done|]. intros _. split_and!; done.
    - split; [|done]. split; done. }
  rewrite (bool_decide_eq_false_2 _ N1).
  destruct (decide (k = "_analyzer")) as [->|N2].
  { simpl. split; [done|]. intros _. split_and!; done. }
  rewrite (bool_decide_eq_false_2 _ N2).
  destruct (decide (k = "_conditions")) as [->|N3].
  { destruct (AsStringArray v) as [names [|]]; simpl.
    - split; [done|]. intros _. split_and!; done.
    - split; [|done]. split; done. }
  rewrite (bool_decide_eq_false_2 _ N3). simpl.
  destruct (HasPrefix k "__"); simpl; (split; [done|]); intros _; split_and!; done.
Qed.

(** The whole loop over entries with distinct keys: it runs to its end iff
    no entry is refused, and then every field holds what its key carried. *)
Lemma unmarshal_entries_spec (kvs : list (string * json)) : ∀ set : ObservationSet.t,
  NoDup kvs.*1 →
  let '(set', err) := unmarshal_entries set kvs in
  let m : gmap string json := list_to_map kvs in
  (err = None ↔ ∀ k v, m !! k = Some v → entry_refused k v = false)
  ∧ (err = None →
     ObservationSet.Sources set'
     = match m !! "_sources" with
       | Some v => (AsStringArray v).1
       | None => ObservationSet.Sources set
       end
     ∧ ObservationSet.Analyzer set'
       = match m !! "_analyzer" with
         | Some v => AsString v
         | None => ObservationSet.Analyzer set
         end
     ∧ ObservationSet.Conditions set'
       = match m !! "_conditions" with
         | Some v => make_slice (Condition.mk 0) (elems (AsStringArray v).1)
         | None => ObservationSet.Conditions set
         end
     ∧ (∀ k, ObservationSet.Metadata set' !! k
             = match m !! k with
               | Some v => if metadata_key k then Some (AsString v)
                           else ObservationSet.Metadata set !! k
               | None => ObservationSet.Metadata set !! k
               end)
     ∧ ObservationSet.ID set' = ObservationSet.ID set).
Proof.
  induction kvs as [|[k v] kvs IH]; intros set Hnd; simpl.
  - split; [split; [intros _ k v; by rewrite lookup_empty|done]|].
    intros _. rewrite !lookup_empty. split_and!; try done;
      intros k; by rewrite lookup_empty.
  - apply NoDup_cons in Hnd as [Hk Hnd].
    assert (Hfresh : (list_to_map kvs : gmap string json) !! k = None)
      by (by apply not_elem_of_list_to_map_1).
    pose proof (unmarshal_entry_cases set k v) as H1.
    destruct (unmarshal_entry set k v) as [set1 [e|]].
    + destruct H1 as [[_ H1] _]. split; [|done]. split; [done|].
      intros Hall. specialize (Hall k v). rewrite lookup_insert_eq in Hall.
      specialize (Hall eq_refl). by specialize (H1 Hall).
    + destruct H1 as [[H1 _] H1']. specialize (H1 eq_refl).
      destruct (H1' eq_refl) as (S1 & A1 & C1 & M1 & I1).
      specialize (IH set1 Hnd). destruct (unmarshal_entries set1 kvs) as [set' err].
      simpl in IH. destruct IH as [IHok IHf]. split.
      * rewrite IHok. split.
        -- intros Hall k' v'. destruct (decide (k = k')) as [<-|Hne].
           ++ rewrite lookup_insert_eq. by intros [= <-].
           ++ rewrite lookup_insert_ne by done. apply Hall.
        -- intros Hall k' v' Hl. apply Hall.
           rewrite lookup_insert_ne; [done|]. intros <-. by rewrite Hfresh in Hl.
      * intros He. destruct (IHf He) as (S2 & A2 & C2 & M2 & I2).
        rewrite S2, A2, C2, I2, S1, A1, C1, I1.
        rewrite !(step_single_key (list_to_map kvs) k _ v) by done.
        split_and!; try done.
        intros k'. rewrite M2, M1. destruct (decide (k = k')) as [<-|Hne].
        -- rewrite Hfresh, lookup_insert_eq.
           destruct (metadata_key k); [by rewrite lookup_insert_eq|done].
        -- rewrite lookup_insert_ne by done.
           destruct (metadata_key k); [by rewrite lookup_insert_ne|done].
Qed.

End SetCodec.

Section SetCodecRange.
Context {U : Helpers} {R : MapRange}.

(** [UnmarshalJSON] on any receiver: the fields it reads from the map, the
    ones it leaves as they were when the key is absent, and when it
    succeeds. *)
Lemma ObservationSet_UnmarshalJSON_spec (set0 : ObservationSet.t) (jmap : gmap string json) :
  let '(set, err) := ObservationSet_UnmarshalJSON set0 jmap in
  let src := match jmap !! "_sources" with
             | Some v => (AsStringArray v).1
             | None => ObservationSet.Sources set0
             end in
  let ana := match jmap !! "_analyzer" with
             | Some v => AsString v
             | None => ObservationSet.Analyzer set0
             end in
  let cnd := match jmap !! "_conditions" with
             | Some v => make_slice (Condition.mk 0) (elems (AsStringArray v).1)
             | None => ObservationSet.Conditions set0
             end in
  (err = None ↔ (∀ k v, jmap !! k = Some v → entry_refused k v = false)
                ∧ src ≠ None ∧ ana ≠ "" ∧ cnd ≠ None)
  ∧ (err = None →
     ObservationSet.Sources set = src
     ∧ ObservationSet.Analyzer set = ana
     ∧ ObservationSet.Conditions set = cnd
     ∧ (∀ k, ObservationSet.Metadata set !! k
             = match jmap !! k with
               | Some v => if metadata_key k then Some (AsString v) else None
               | None => None
               end)
     ∧ ObservationSet.ID set = 0).
Proof.
  unfold ObservationSet_UnmarshalJSON.
  pose proof (unmarshal_entries_spec (map_range jmap)
                (ObservationSet.with_ID 0 (ObservationSet.with_Metadata ∅ set0))
                (map_range_NoDup jmap)) as H.
  destruct (unmarshal_entries _ (map_range jmap)) as [set [e|]].
  - simpl in H. rewrite list_to_map_range in H. destruct H as [[_ H] _].
    split; [|done]. split; [done|]. intros [Hall _]. by specialize (H Hall).
  - simpl in H. rewrite list_to_map_range in H. destruct H as [[H _] H'].
    specialize (H eq_refl). destruct (H' eq_refl) as (HS & HA & HC & HM & HI).
    simpl in HS, HA, HC, HM, HI. rewrite <- HS, <- HA, <- HC.
    assert (HM' : ∀ k, ObservationSet.Metadata set !! k
                       = match jmap !! k with
                         | Some v => if metadata_key k then Some (AsString v) else None
                         | None => None
                         end).
    { intros k. rewrite HM, lookup_empty. done. }
    destruct (ObservationSet.Sources set) as [l|] eqn:ES.
    + destruct (decide (ObservationSet.Analyzer set = "")) as [E|E].
      * split; [|done]. split; [done|]. intros (_ & _ & ? & _). done.
      * destruct (ObservationSet.Conditions set) as [cs|] eqn:EC.
        -- split; [split; [intros _; split_and!; done|done]|].
           intros _. split_and!; done.
        -- split; [|done]. split; [done|]. intros (_ & _ & _ & ?). done.
    + split; [|done]. split; [done|]. intros (_ & ? & _). done.
Qed.

(** C4 (as amended).  Decoding into a new set succeeds exactly when
    [_sources] is present and [AsStringArray] accepts it with a non-nil
    slice, [_analyzer] is present and [AsString] gives it a non-empty
    text, and [_conditions] is present and [AsStringArray] accepts it; in
    every other case it fails.  A decoded set has non-nil sources, a
    non-empty analyzer, non-nil conditions and the id 0.  Whether the two
    arrays are empty is not checked. *)
Theorem decodeSet_accepts_iff (jmap : gmap string json) :
  let '(set, err) := decodeSet jmap in
  (err = None ↔
     (∃ v l, jmap !! "_sources" = Some v ∧ AsStringArray v = (Some l, true))
     ∧ (∃ v, jmap !! "_analyzer" = Some v ∧ AsString v ≠ "")
     ∧ (∃ v, jmap !! "_conditions" = Some v ∧ (AsStringArray v).2 = true))
  ∧ (err = None →
     ObservationSet.Sources set ≠ None
     ∧ ObservationSet.Analyzer set ≠ ""
     ∧ ObservationSet.Conditions set ≠ None
     ∧ ObservationSet.ID set = 0).
Proof.
  unfold decodeSet.
  pose proof (ObservationSet_UnmarshalJSON_spec ObservationSet.zero jmap) as H.
  destruct (ObservationSet_UnmarshalJSON ObservationSet.zero jmap) as [set err].
  simpl in H. destruct H as [Hiff Hf]. split.
  - rewrite Hiff. split.
    + intros (Hall & Hs & Ha & Hc).
      destruct (jmap !! "_sources") as [v1|] eqn:E1; [|done].
      destruct (jmap !! "_analyzer") as [v2|] eqn:E2; [|done].
      destruct (jmap !! "_conditions") as [v3|] eqn:E3; [|done].
      pose proof (Hall _ _ E1) as R1. pose proof (Hall _ _ E3) as R3.
      unfold entry_refused in R1, R3. simpl in R1, R3.
      apply negb_false_iff in R1, R3.
      split_and!; [|by eauto|by eauto].
      exists v1. destruct (AsStringArray v1) as [[l|] ok]; simpl in *; [|done].
      subst ok. eauto.
    + intros ((v1 & l & E1 & A1) & (v2 & E2 & A2) & (v3 & E3 & A3)).
      rewrite E1, E2, E3, A1. simpl. split_and!; try done.
      intros k v Hk. unfold entry_refused.
      destruct (decide (k = "_sources")) as [->|N1].
      { rewrite E1 in Hk. simplify_eq. by rewrite A1. }
      rewrite (bool_decide_eq_false_2 _ N1).
      destruct (decide (k = "_conditions")) as [->|N3].
      { rewrite E3 in Hk. simplify_eq. by rewrite A3. }
      by rewrite (bool_decide_eq_false_2 _ N3).
  - intros He. destruct (Hf He) as (HS & HA & HC & _ & HI).
    apply Hiff in He as (_ & ? & ? & ?). rewrite HS, HA, HC. done.
Qed.

End SetCodecRange.

(** C4, the claim as stated fails: an object whose [_conditions] is the
    empty array is decoded without error into a set with no condition, and
    so is one whose [_sources] is empty as well, into a set with no source
    either. *)
Lemma decodeSet_accepts_empty_arrays :
  (let '(set, err) := decodeSet (H := util) (H0 := range_sorted) jmap_no_conditions in
   err = None
   ∧ ObservationSet.Sources set = Some ["agentA"]
   ∧ ObservationSet.Conditions set = Some [])
  ∧ (let '(set, err) := decodeSet (H := util) (H0 := range_sorted) jmap_empty_arrays in
     err = None
     ∧ ObservationSet.Sources set = Some []
     ∧ ObservationSet.Analyzer set = "pto-basic"
     ∧ ObservationSet.Conditions set = Some []).
Proof. vm_compute. done. Qed.

(** The metadata loop of [MarshalJSON]: each entry lands under its key. *)
Lemma foldl_insert_lookup (kvs : list (string * string)) :
  ∀ (base : gmap string json) (k : string),
  NoDup kvs.*1 →
  foldl (λ jmap kv, <[kv.1 := JString kv.2]> jmap) base kvs !! k
  = match (list_to_map kvs : gmap string string) !! k with
    | Some v => Some (JString v)
    | None => base !! k
    end.
Proof.
  induction kvs as [|[k0 v0] kvs IH]; intros base k Hnd; simpl.
  - by rewrite lookup_empty.
  - apply NoDup_cons in Hnd as [Hk Hnd]. rewrite IH by done.
    destruct (decide (k0 = k)) as [->|Hne].
    + rewrite (not_elem_of_list_to_map_1 _ _ Hk). by rewrite !lookup_insert_eq.
    + by rewrite !lookup_insert_ne by done.
Qed.

Lemma metadata_key_reserved (k : string) :
  metadata_key k = true →
  k ≠ "_sources" ∧ k ≠ "_analyzer" ∧ k ≠ "_conditions"
  ∧ k ≠ "__link" ∧ k ≠ "__data" ∧ k ≠ "__obs_count".
Proof.
  unfold metadata_key. rewrite !andb_true_iff, !negb_true_iff, !bool_decide_eq_false.
  intros [[[? ?] ?] Hp]. split_and!; try done; intros ->; discriminate.
Qed.

Section SetRoundTrip.
Context {U : Helpers} {R Re : MapRange}.

(** [Re] is the order in which [MarshalJSON] ranges over the metadata, [R]
    the order in which [UnmarshalJSON] ranges over the decoded object. *)

Lemma encodeSet_lookup (S : ObservationSet.t) (k : string) :
  encodeSet (H := Re) S !! k
  = match ObservationSet.Metadata S !! k with
    | Some v => Some (JString v)
    | None =>
        if decide (k = "_sources") then Some (json_strings (ObservationSet.Sources S))
        else if decide (k = "_analyzer") then Some (JString (ObservationSet.Analyzer S))
        else if decide (k = "_conditions") then
          match elems (ObservationSet.Conditions S) with
          | [] => None
          | cs => Some (JArray (JString <$> (Condition.Name <$> cs)))
          end
        else if metadata_key k then None
        else encodeSet (H := Re) S !! k
    end.
Proof.
  unfold encodeSet, ObservationSet_MarshalJSON.
  rewrite foldl_insert_lookup by apply map_range_NoDup.
  rewrite list_to_map_range.
  destruct (ObservationSet.Metadata S !! k) as [v|]; [done|].
  destruct (decide (k = "_sources")) as [->|N1].
  { destruct (elems (ObservationSet.Conditions S)); repeat case_decide; by simplify_map_eq. }
  destruct (decide (k = "_analyzer")) as [->|N2].
  { destruct (elems (ObservationSet.Conditions S)); repeat case_decide; by simplify_map_eq. }
  destruct (decide (k = "_conditions")) as [->|N3].
  { destruct (elems (ObservationSet.Conditions S)); repeat case_decide; by simplify_map_eq. }
  destruct (metadata_key k) eqn:Hk; [|done].
  apply metadata_key_reserved in Hk as (_ & _ & _ & ? & ? & ?).
  destruct (elems (ObservationSet.Conditions S)); repeat case_decide; by simplify_map_eq.
Qed.

Lemma encodeSet_keys (S : ObservationSet.t) (k : string) :
  is_Some (encodeSet (H := Re) S !! k) →
  is_Some (ObservationSet.Metadata S !! k)
  ∨ k ∈ ["_sources"; "_analyzer"; "_conditions"; "__link"; "__data"; "__obs_count"].
Proof.
  unfold encodeSet, ObservationSet_MarshalJSON.
  rewrite foldl_insert_lookup by apply map_range_NoDup.
  rewrite list_to_map_range.
  destruct (ObservationSet.Metadata S !! k) as [v|]; [by eauto|].
  intros Hs. right.
  destruct (decide (k ∈ ["_sources"; "_analyzer"; "_conditions"; "__link"; "__data";
                         "__obs_count"])) as [Hin|Hn]; [done|].
  exfalso. rewrite !not_elem_of_cons in Hn. destruct Hn as (?&?&?&?&?&?&_).
  revert Hs. destruct (elems (ObservationSet.Conditions S)); simpl;
    repeat case_decide; simplify_map_eq; by intros [? ?].
Qed.

(** C5 (as amended).  For the two helpers being the identity on strings
    and on arrays of strings: every set whose strings are valid UTF-8, with
    at least one source, a non-empty analyzer, at least one declared
    condition and no metadata under a reserved or double-underscore key is
    encoded to an object that, written by [json.Marshal] and read by
    [json.Unmarshal], decodes, into a new set, without error and with the
    same sources, analyzer, declared condition names and metadata; the
    decoded set and its conditions carry the id 0. *)
Theorem decodeSet_encodeSet (S : ObservationSet.t) :
  (∀ s, AsString (JString s) = s) →
  (∀ l, AsStringArray (JArray (JString <$> l)) = (Some l, true)) →
  text_valid S →
  elems (ObservationSet.Sources S) ≠ [] →
  ObservationSet.Analyzer S ≠ "" →
  elems (ObservationSet.Conditions S) ≠ [] →
  (∀ k, is_Some (ObservationSet.Metadata S !! k) → metadata_key k = true) →
  ∃ S', decodeSet (H0 := R) (wire_map (encodeSet (H := Re) S)) = (S', None)
        ∧ ObservationSet.Sources S' = ObservationSet.Sources S
        ∧ ObservationSet.Analyzer S' = ObservationSet.Analyzer S
        ∧ Condition.Name <$> elems (ObservationSet.Conditions S')
          = Condition.Name <$> elems (ObservationSet.Conditions S)
        ∧ ObservationSet.Metadata S' = ObservationSet.Metadata S
        ∧ ObservationSet.ID S' = 0
        ∧ Condition.ID <$> elems (ObservationSet.Conditions S')
          = (λ _, 0) <$> elems (ObservationSet.Conditions S).
Proof.
  intros HAs HAa (Vs & Va & Vc & Vm) Hsrc Hana Hcnd Hmeta.
  assert (Hnone : ∀ k, metadata_key k = false → ObservationSet.Metadata S !! k = None).
  { intros k Hk. destruct (ObservationSet.Metadata S !! k) eqn:E; [|done].
    rewrite Hmeta in Hk by eauto. done. }
  assert (Hw : wire_map (encodeSet (H := Re) S) = wire <$> encodeSet (H := Re) S).
  { apply wire_map_fmap. intros k Hk. apply encodeSet_keys in Hk as [[v Hk]|Hk].
    - apply wire_string_valid. by destruct (Vm k v Hk).
    - repeat (apply elem_of_cons in Hk as [->|Hk]; [by vm_compute|]).
      by apply elem_of_nil in Hk. }
  rewrite Hw.
  destruct (ObservationSet.Sources S) as [srcs|] eqn:ES; [|done].
  destruct (ObservationSet.Conditions S) as [cs|] eqn:EC; [|done].
  simpl in Hsrc, Hcnd, Vs, Vc.
  assert (E1 : (wire <$> encodeSet (H := Re) S) !! "_sources"
               = Some (JArray (JString <$> srcs))).
  { rewrite lookup_fmap, encodeSet_lookup, Hnone by done. rewrite ES. simpl.
    f_equal. by apply wire_strings. }
  assert (E2 : (wire <$> encodeSet (H := Re) S) !! "_analyzer"
               = Some (JString (ObservationSet.Analyzer S))).
  { rewrite lookup_fmap, encodeSet_lookup, Hnone by done. simpl.
    by rewrite wire_string_valid. }
  assert (E3 : (wire <$> encodeSet (H := Re) S) !! "_conditions"
               = Some (JArray (JString <$> (Condition.Name <$> cs)))).
  { rewrite lookup_fmap, encodeSet_lookup, Hnone by done. simpl. rewrite EC. simpl.
    destruct cs as [|c0 cs0]; [done|]. cbn [fmap option_fmap option_map]. f_equal.
    assert (Hx := wire_strings (Condition.Name <$> c0 :: cs0)).
    rewrite Forall_fmap in Hx. specialize (Hx Vc). simpl in Hx |- *. exact Hx. }
  unfold decodeSet.
  pose proof (ObservationSet_UnmarshalJSON_spec (R := R) ObservationSet.zero
                (wire <$> encodeSet (H := Re) S)) as H.
  destruct (ObservationSet_UnmarshalJSON ObservationSet.zero _) as [S' err].
  simpl in H. rewrite E1, E2, E3, HAs, !HAa in H. simpl in H.
  destruct H as [Hiff Hf].
  assert (He : err = None).
  { apply Hiff. split_and!; try done.
    intros k v Hk. unfold entry_refused.
    destruct (decide (k = "_sources")) as [->|N1].
    { rewrite E1 in Hk. simplify_eq. by rewrite HAa. }
    rewrite (bool_decide_eq_false_2 _ N1).
    destruct (decide (k = "_conditions")) as [->|N3].
    { rewrite E3 in Hk. simplify_eq. by rewrite HAa. }
    by rewrite (bool_decide_eq_false_2 _ N3). }
  destruct (Hf He) as (HS & HA & HC & HM & HI). subst err.
  exists S'. rewrite HS, HA, HC. simpl. split_and!; try done.
  - generalize (Condition.Name <$> cs). intros l.
    induction l as [|n l IH]; simpl; [done|]. by f_equal.
  - apply map_eq. intros k. rewrite HM, lookup_fmap, encodeSet_lookup.
    destruct (ObservationSet.Metadata S !! k) as [v|] eqn:E.
    + rewrite Hmeta by eauto. simpl. destruct (Vm k v E) as [_ Vv].
      by rewrite wire_string_valid, HAs.
    + destruct (metadata_key k) eqn:Hk.
      * apply metadata_key_reserved in Hk as (? & ? & ? & _).
        by rewrite !decide_False by done.
      * by repeat case_match.
  - clear. induction cs as [|c cs IH]; simpl; [done|]. by f_equal.
Qed.

End SetRoundTrip.

(** C5, the claim as stated fails: a set whose metadata holds the entry
    [__note] is encoded with it and decoded without it. *)
Lemma decodeSet_encodeSet_drops_dunder_metadata :
  let '(S', err) :=
    decodeSet (H := util) (H0 := range_sorted)
              (wire_map (encodeSet (H := range_sorted) set_dunder)) in
  err = None
  ∧ encodeSet (H := range_sorted) set_dunder !! "__note" = Some (JString "x")
  ∧ ObservationSet.Metadata set_dunder !! "__note" = Some "x"
  ∧ ObservationSet.Metadata S' !! "__note" = None.
Proof. vm_compute. done. Qed.

Lemma util_AsStringArray_strings (l : list string) :
  util_AsStringArray (JArray (JString <$> l)) = (Some l, true).
Proof.
  unfold util_AsStringArray.
  replace (mapM json_string (JString <$> l)) with (Some l); [done|].
  symmetry. apply mapM_Some. induction l; constructor; done.
Qed.

(** An instance: a set with two sources, links, a count and one metadata
    entry. *)
Lemma decodeSet_encodeSet_witness :
  ∃ S', decodeSet (H := util) (H0 := range_sorted)
                  (wire_map (encodeSet (H := range_sorted) set_full))
        = (S', None)
        ∧ ObservationSet.Sources S' = Some ["agentA"; "agentB"]
        ∧ ObservationSet.Analyzer S' = "pto-basic"
        ∧ ObservationSet.Metadata S' = {[ "note" := "x" ]}.
Proof.
  destruct (decodeSet_encodeSet (U := util) (R := range_sorted) (Re := range_sorted) set_full)
    as (S' & Heq & HS & HA & _ & HM & _).
  - intros s. reflexivity.
  - apply util_AsStringArray_strings.
  - split_and!; [by repeat constructor|reflexivity|by repeat constructor|].
    intros k v Hk. simpl in Hk. apply lookup_singleton_Some in Hk as [<- <-].
    split; reflexivity.
  - simpl. discriminate.
  - simpl. discriminate.
  - simpl. discriminate.
  - intros k [v Hk]. simpl in Hk. apply lookup_singleton_Some in Hk as [<- _]. reflexivity.
  - exists S'. split_and!; [exact Heq|exact HS|exact HA|exact HM].
Defined.

(** ** The observation codec *)

Lemma whole_seconds_exact (t : Time.t) :
  Time.nanosecond t = 0 → whole_seconds t = t.
Proof. destruct t; simpl; intros ->; reflexivity. Qed.

Section ObservationCodec.
Context {U : Helpers}.

(** C10.  For an array of at least five elements whose two timestamps parse
    and whose sixth element, if there is one, parses as an integer,
    [UnmarshalJSON] returns no error whatever the first element is: the
    set id becomes what [Atoi] returned for it and the error of that call is
    dropped, so a first element that is no number (a syntax error of
    [Atoi]) leaves the set id 0. *)
Theorem Observation_UnmarshalJSON_ignores_set_id_error
  (obs : Observation.t) (j0 j1 j2 j3 j4 : json) (rest : list json) (t1 t2 : Time.t) :
  Parse_RFC3339 (AsString j1) = (t1, None) →
  Parse_RFC3339 (AsString j2) = (t2, None) →
  (∀ j5, head rest = Some j5 → (Atoi (AsString j5)).2 = None) →
  let '(obs', err) := Observation_UnmarshalJSON obs (j0 :: j1 :: j2 :: j3 :: j4 :: rest) in
  err = None
  ∧ Observation.SetID obs' = (Atoi (AsString j0)).1
  ∧ (∀ func num, (Atoi (AsString j0)).2 = Some (NumError func num false) →
     Observation.SetID obs' = 0).
Proof.
  intros H1 H2 H5. unfold Observation_UnmarshalJSON.
  destruct (Atoi (AsString j0)) as [setid e0] eqn:E0. rewrite H1, H2.
  assert (Hsyn : ∀ func num, e0 = Some (NumError func num false) → setid = 0).
  { intros func num ->. by apply Atoi_syntax_value in E0. }
  destruct rest as [|j5 rest]; simpl.
  - split_and!; [done|done|exact Hsyn].
  - specialize (H5 j5 eq_refl). destruct (Atoi (AsString j5)) as [v e5].
    simpl in H5. subst e5. simpl. split_and!; [done|done|exact Hsyn].
Qed.

(** X1.  Decoding an array of exactly five elements leaves the receiver's value
    as it was: 0 in a new observation. *)
Lemma Observation_UnmarshalJSON_keeps_value
  (obs : Observation.t) (j0 j1 j2 j3 j4 : json) :
  let '(obs', err) := Observation_UnmarshalJSON obs [j0; j1; j2; j3; j4] in
  err = None → Observation.Value obs' = Observation.Value obs.
Proof.
  unfold Observation_UnmarshalJSON.
  destruct (Atoi (AsString j0)) as [setid e0].
  destruct (Parse_RFC3339 (AsString j1)) as [t1 [e1|]]; [done|].
  destruct (Parse_RFC3339 (AsString j2)) as [t2 [e2|]]; done.
Qed.

(** C6 (as amended).  For a helper [AsString] that is the identity on
    strings and gives every exactly carried integer a text that [Atoi] reads
    back: a new observation decoded from five elements has the value 0; and
    every observation with a path and a condition whose strings are valid
    UTF-8, valid start and end times and exactly carried set id and value is
    encoded to an array that has a sixth element exactly when the value is
    not 0, and that, written by [json.Marshal] and read by [json.Unmarshal],
    decodes, into a new observation, without error and to the same set id,
    path string, condition name and value, and to the start and end cut to
    whole seconds (the text carries no fraction of a second). *)
Theorem decodeObservation_encodeObservation
  (O : Observation.t) (p : Path.t) (c : Condition.t) :
  (∀ s, AsString (JString s) = s) →
  (∀ n, exact_int n → Atoi (AsString (JNumber n)) = (n, None)) →
  Observation.Path O = Some p →
  Observation.Condition O = Some c →
  utf8_Valid (Path.String p) = true →
  utf8_Valid (Condition.Name c) = true →
  valid_time (Observation.Start O) = true →
  valid_time (Observation.End_ O) = true →
  exact_int (Observation.SetID O) →
  exact_int (Observation.Value O) →
  (∀ j0 j1 j2 j3 j4 O',
     decodeObservation [j0; j1; j2; j3; j4] = (O', None) → Observation.Value O' = 0)
  ∧ ∃ jslice O',
      encodeObservation O = Some jslice
      ∧ (length jslice = 6%nat ↔ Observation.Value O ≠ 0)
      ∧ (length jslice = 5%nat ↔ Observation.Value O = 0)
      ∧ decodeObservation (wire <$> jslice) = (O', None)
      ∧ Observation.SetID O' = Observation.SetID O
      ∧ Observation.Start O' = whole_seconds (Observation.Start O)
      ∧ Observation.End_ O' = whole_seconds (Observation.End_ O)
      ∧ Observation.Path O' = Some (Path.mk 0 (Path.String p))
      ∧ Observation.Condition O' = Some (Condition.mk 0 (Condition.Name c))
      ∧ Observation.Value O' = Observation.Value O.
Proof.
  intros HAs HAn HP HC Vp Vc Hs He Hid Hv. split.
  { intros j0 j1 j2 j3 j4 O'. unfold decodeObservation, Observation_UnmarshalJSON.
    destruct (Atoi (AsString j0)) as [setid e0].
    destruct (Parse_RFC3339 (AsString j1)) as [t1 [e1|]]; [done|].
    destruct (Parse_RFC3339 (AsString j2)) as [t2 [e2|]]; [done|].
    by intros [= <-]. }
  unfold encodeObservation, Observation_MarshalJSON. rewrite HP, HC. simpl.
  unfold decodeObservation.
  destruct (decide (Observation.Value O = 0)) as [E0|E0].
  - eexists _, _. split; [reflexivity|]. simpl.
    unfold Observation_UnmarshalJSON.
    rewrite !float64_of_int_exact by done.
    rewrite !wire_string_valid by (done || apply utf8_Valid_Format_RFC3339).
    rewrite !HAs, (HAn _ Hid), !Parse_Format_RFC3339 by done. simpl.
    split; [split; [discriminate|done]|]. split; [done|].
    split; [reflexivity|]. simpl. split_and!; done.
  - eexists _, _. split; [reflexivity|]. simpl.
    unfold Observation_UnmarshalJSON.
    rewrite !float64_of_int_exact by done.
    rewrite !wire_string_valid by (done || apply utf8_Valid_Format_RFC3339).
    rewrite !HAs, (HAn _ Hid), (HAn _ Hv), !Parse_Format_RFC3339 by done. simpl.
    split; [done|]. split; [split; [discriminate|done]|].
    split; [reflexivity|]. simpl. split_and!; done.
Qed.

End ObservationCodec.

(** C6, the claim as stated fails: the observation decoded from a line
    whose start is [2020-01-01T00:00:00.5Z] starts half a second past
    midnight; it is encoded with the start [2020-01-01T00:00:00Z] and, written
    and read back, decoded again with the start at midnight. *)
Lemma decodeObservation_encodeObservation_drops_nanoseconds :
  decodeObservation (H := util) line_half_second = (obs_half_second, None)
  ∧ match encodeObservation obs_half_second with
    | Some jslice =>
        let '(O', err) := decodeObservation (H := util) (wire <$> jslice) in
        jslice !! 1%nat = Some (JString "2020-01-01T00:00:00Z")
        ∧ err = None
        ∧ Time.nanosecond (Observation.Start obs_half_second) = 500000000
        ∧ Time.nanosecond (Observation.Start O') = 0
        ∧ Observation.Start O' ≠ Observation.Start obs_half_second
    | None => False
    end.
Proof. vm_compute. split_and!; [reflexivity..|discriminate]. Qed.

Lemma util_AsString_int (n : Z) :
  exact_int n → Atoi (util_AsString (JNumber n)) = (n, None).
Proof.
  unfold exact_int. intros Hn. apply Atoi_Itoa. unfold MinInt, MaxInt.
  change (2 ^ 53) with 9007199254740992 in Hn.
  change (2 ^ 63) with 9223372036854775808. lia.
Qed.

(** An instance: an observation with value 42. *)
Lemma decodeObservation_encodeObservation_witness :
  ∃ jslice O',
    encodeObservation obs_valued = Some jslice
    ∧ length jslice = 6%nat
    ∧ decodeObservation (H := util) (wire <$> jslice) = (O', None)
    ∧ Observation.SetID O' = 7
    ∧ Observation.Start O' = midnight
    ∧ Observation.Value O' = 42.
Proof.
  destruct (decodeObservation_encodeObservation (U := util) obs_valued
              (Path.mk 0 "1.2.3.0/24") (Condition.mk 0 "icmp.unreachable"))
    as (_ & jslice & O' & Henc & H6 & _ & Hdec & Hid & Hst & _ & _ & _ & Hv).
  - intros s. reflexivity.
  - apply util_AsString_int.
  - reflexivity.
  - reflexivity.
  - reflexivity.
  - reflexivity.
  - reflexivity.
  - reflexivity.
  - unfold exact_int. simpl. lia.
  - unfold exact_int. simpl. lia.
  - exists jslice, O'. split_and!; [exact Henc| |exact Hdec|exact Hid|exact Hst|exact Hv].
    apply H6. simpl. discriminate.
Defined.

(** An instance: the first element is the string [abc]. *)
Lemma Observation_UnmarshalJSON_ignores_set_id_error_witness :
  let '(obs', err) := Observation_UnmarshalJSON (H := util) Observation.zero line_bad_set_id in
  err = None ∧ Observation.SetID obs' = 0.
Proof.
  pose proof (Observation_UnmarshalJSON_ignores_set_id_error (U := util)
                Observation.zero (JString "abc") (JString "2020-01-01T00:00:00Z")
                (JString "2020-01-01T00:05:00Z") (JString "1.2.3.0/24")
                (JString "icmp.unreachable") [] midnight five_past
                eq_refl eq_refl) as H.
  unfold line_bad_set_id.
  destruct (Observation_UnmarshalJSON _ _) as [obs' err].
  destruct H as (He & _ & H0).
  - intros j5 Hj5. discriminate Hj5.
  - split; [exact He|]. apply (H0 "Atoi" "abc"). reflexivity.
Defined.

(** [ReadObservations] decodes every line into one variable, and
    [UnmarshalJSON] leaves the value alone when the line carries none: a
    line without a value that follows a line with value 42 is read with
    value 42. *)
Lemma ReadObservations_carries_value_over :
  encodeObservation obs_valued = lines_valued_then_plain !! 0%nat
  ∧ encodeObservation obs_plain = lines_valued_then_plain !! 1%nat
  ∧ ∃ o1 o2,
      ReadObservations (H := util) lines_valued_then_plain = (Some [o1; o2], None)
      ∧ Observation.Value o1 = 42
      ∧ Observation.Value o2 = 42.
Proof. vm_compute. split_and!; [reflexivity..|]. eexists _, _. done. Qed.

(** ** Instances and further facts *)

(** An instance: the object of the end-to-end example is accepted. *)
Lemma decodeSet_accepts_iff_witness :
  let '(set, err) := decodeSet (H := util) (H0 := range_sorted) jmap_example in
  err = None
  ∧ ObservationSet.Sources set ≠ None
  ∧ ObservationSet.Analyzer set ≠ ""
  ∧ ObservationSet.Conditions set ≠ None
  ∧ ObservationSet.ID set = 0.
Proof.
  pose proof (decodeSet_accepts_iff (U := util) (R := range_sorted) jmap_example) as H.
  destruct (decodeSet jmap_example) as [set err]. destruct H as [Hiff Hf].
  assert (He : err = None).
  { apply Hiff. split_and!.
    - exists (JArray [JString "agentA"]), ["agentA"]. split; reflexivity.
    - exists (JString "pto-basic"). split; [reflexivity|discriminate].
    - exists (JArray [JString "icmp.unreachable"]). split; reflexivity. }
  split; [exact He|exact (Hf He)].
Defined.

(** An instance: a set with one stored observation is counted once; the
    count is then returned for a store that holds nothing. *)
Lemma ObservationSet_CountObservations_caches_nonzero_witness :
  let '(db', set', n) :=
    ObservationSet_CountObservations (mkDB tables_one_observation None 0) set_stored in
  n = 1 ∧ issued db' = 1%nat
  ∧ ObservationSet_CountObservations empty_store set' = (empty_store, set', 1).
Proof.
  pose proof (ObservationSet_CountObservations_caches_nonzero
                (mkDB tables_one_observation None 0) set_stored) as H.
  destruct (ObservationSet_CountObservations _ set_stored) as [[db' set'] n].
  destruct H as (_ & _ & H0 & Hlater). destruct (H0 eq_refl) as (Hi & _ & Hn).
  vm_compute in Hn. subst n. split_and!; [reflexivity|exact Hi|].
  apply Hlater. discriminate.
Defined.

(** What [FillConditionIDsInSet] does achieve: the cache only grows, and
    after a successful call it holds every declared name. *)
Lemma ConditionCache_SetConditionID_caches
  (cache : gmap string Z) (db : DB) (c : Condition.t) :
  let '(cache', _, _, err) := ConditionCache_SetConditionID cache db c in
  (∀ k, is_Some (cache !! k) → is_Some (cache' !! k))
  ∧ (err = None → is_Some (cache' !! Condition.Name c)).
Proof.
  unfold ConditionCache_SetConditionID.
  destruct (cache !! Condition.Name c) as [id|] eqn:Hl; [by eauto|].
  assert (Hname : ∀ db1 c1 e1,
             (if decide (Condition.ID c = 0) then ConditionCache_InsertOnce db c
              else (db, c, None)) = (db1, c1, e1) →
             Condition.Name c1 = Condition.Name c).
  { intros db1 c1 e1. unfold ConditionCache_InsertOnce, SelectOrInsert_condition.
    rewrite statement_eq. destruct (decide _); [|by intros [= <- <- <-]].
    destruct (passes db); [|by intros [= <- <- <-]].
    destruct (find _ _); by intros [= <- <- <-]. }
  destruct (if decide (Condition.ID c = 0) then _ else _) as [[db1 c1] [e|]] eqn:E.
  - split; [done|done].
  - rewrite (Hname _ _ _ eq_refl). split.
    + intros k Hk. destruct (decide (Condition.Name c = k)) as [->|Hne].
      * rewrite lookup_insert_eq. eauto.
      * by rewrite lookup_insert_ne.
    + intros _. rewrite lookup_insert_eq. eauto.
Qed.

(** X3.  The loop of [FillConditionIDsInSet] only adds to the cache, and after
    a run without error every declared name is cached. *)
Lemma fill_condition_ids_caches (cs : list Condition.t) :
  ∀ (cache : gmap string Z) (db : DB),
  let '(cache', _, err) := fill_condition_ids cache db cs in
  (∀ k, is_Some (cache !! k) → is_Some (cache' !! k))
  ∧ (err = None → ∀ c, c ∈ cs → is_Some (cache' !! Condition.Name c)).
Proof.
  induction cs as [|c cs IH]; intros cache db; simpl.
  - split; [done|]. intros _ c Hc. inversion Hc.
  - pose proof (ConditionCache_SetConditionID_caches cache db c) as H1.
    destruct (ConditionCache_SetConditionID cache db c) as [[[cache1 db1] c1] [e|]].
    + destruct H1 as [H1 _]. split; [done|done].
    + destruct H1 as [H1 H1']. specialize (H1' eq_refl).
      specialize (IH cache1 db1).
      destruct (fill_condition_ids cache1 db1 cs) as [[cache' db'] err].
      destruct IH as [IH IH']. split; [by eauto|].
      intros He c' Hc'. apply elem_of_cons in Hc' as [->|Hc']; [by eauto|].
      by apply IH'.
Qed.

(** The ids a cache holds stay assigned through [SetConditionID], on a
    store whose condition rows have assigned ids. *)
Lemma ConditionCache_SetConditionID_assigned
  (cache : gmap string Z) (db : DB) (c : Condition.t) :
  cache_ids_assigned cache → row_ids_assigned db →
  let '(cache', db', _, _) := ConditionCache_SetConditionID cache db c in
  cache_ids_assigned cache' ∧ row_ids_assigned db'.
Proof.
  intros Hc Hr. unfold ConditionCache_SetConditionID.
  destruct (cache !! Condition.Name c) as [id|] eqn:Hl; [done|].
  destruct (decide (Condition.ID c = 0)) as [E|E]; simpl.
  - unfold ConditionCache_InsertOnce, SelectOrInsert_condition.
    rewrite statement_eq, decide_True by done.
    destruct (passes db); [|done].
    destruct (find _ _) as [r|] eqn:Hf; simpl.
    + split; [|done].
      intros k. destruct (decide (Condition.Name c = k)) as [->|Hne].
      * rewrite lookup_insert_eq. intros [= E0]. apply (Hr r); [|done].
        apply find_some in Hf as [Hin _]. by apply list_elem_of_In.
      * rewrite lookup_insert_ne by done. apply Hc.
    + pose proof (fresh_id_pos (Condition.ID <$> conditions (tables db))) as Hp.
      split.
      * intros k. destruct (decide (Condition.Name c = k)) as [->|Hne].
        -- rewrite lookup_insert_eq. intros [= E0]. lia.
        -- rewrite lookup_insert_ne by done. apply Hc.
      * intros r Hin. simpl in Hin. apply elem_of_app in Hin as [Hin|Hin]; [by apply Hr|].
        apply list_elem_of_singleton in Hin as ->. simpl. lia.
  - split; [|done]. intros k. destruct (decide (Condition.Name c = k)) as [->|Hne].
    + rewrite lookup_insert_eq. by intros [= E0].
    + rewrite lookup_insert_ne by done. apply Hc.
Qed.

(** * Further properties of the code *)

(** ** Select-or-insert of conditions and paths *)

Lemma statement_no_fault (db : DB) :
  failing db = None → statement db = (mkDB (tables db) None (S (issued db)), true).
Proof. unfold statement. by intros ->. Qed.

Lemma find_app_None {A : Type} (f : A → bool) (l1 l2 : list A) :
  find f l1 = None → find f (l1 ++ l2) = find f l2.
Proof.
  induction l1 as [|x l1 IH]; simpl; [done|]. destruct (f x); [done|]. exact IH.
Qed.

Lemma find_name_None (name : string) (l : list Condition.t) :
  find (λ r, String.eqb (Condition.Name r) name) l = None
  ↔ name ∉ Condition.Name <$> l.
Proof.
  induction l as [|r l IH]; simpl.
  - split; [intros _ H; inversion H|done].
  - rewrite not_elem_of_cons. destruct (String.eqb_spec (Condition.Name r) name) as [E|E].
    + split; [done|]. intros [N _]. by destruct N.
    + rewrite IH. split; [intros ?; split; [congruence|done]|tauto].
Qed.

Lemma find_name_Some (name : string) (l : list Condition.t) (r : Condition.t) :
  find (λ r, String.eqb (Condition.Name r) name) l = Some r →
  r ∈ l ∧ Condition.Name r = name.
Proof.
  intros H. apply find_some in H as [Hin He].
  split; [by apply list_elem_of_In|by apply String.eqb_eq].
Qed.

(** X4.  [Condition.InsertOnce] on a condition without id, when its
    statement goes through: the condition comes back with its name and the
    id of a stored row of that name.  If a row of that name was stored,
    nothing is written; if none was, one row is appended, under an id that
    is not 0 and was not in use.  Names that were unique stay unique. *)
Theorem Condition_InsertOnce_selects_or_inserts (db : DB) (c : Condition.t) :
  Condition.ID c = 0 →
  passes db = true →
  let '(db', c', err) := Condition_InsertOnce db c in
  err = None
  ∧ Condition.Name c' = Condition.Name c
  ∧ c' ∈ conditions (tables db')
  ∧ (Condition.Name c ∈ Condition.Name <$> conditions (tables db) →
     tables db' = tables db)
  ∧ (Condition.Name c ∉ Condition.Name <$> conditions (tables db) →
     conditions (tables db') = conditions (tables db) ++ [c']
     ∧ Condition.ID c' ≠ 0
     ∧ Condition.ID c' ∉ Condition.ID <$> conditions (tables db))
  ∧ (names_unique db → names_unique db').
Proof.
  intros H0 Hp. unfold Condition_InsertOnce, SelectOrInsert_condition.
  rewrite decide_True by done. rewrite statement_eq, Hp. simpl.
  destruct (find _ (conditions (tables db))) as [r|] eqn:Hf; simpl.
  - apply find_name_Some in Hf as [Hin Hn].
    assert (Er : Condition.with_ID (Condition.ID r) c = r).
    { destruct r, c; simpl in *; by subst. }
    rewrite Er. split_and!; try done.
    intros Hnot. destruct Hnot. rewrite <- Hn. by apply list_elem_of_fmap_2.
  - apply find_name_None in Hf.
    pose proof (fresh_id_pos (Condition.ID <$> conditions (tables db))) as Hpos.
    pose proof (fresh_id_fresh (Condition.ID <$> conditions (tables db))) as Hfr.
    split_and!; try done.
    + apply elem_of_app. right. by apply list_elem_of_singleton.
    + intros _. split_and!; [done|simpl; lia|done].
    + unfold names_unique. simpl. intros Hu. rewrite fmap_app. simpl.
      apply NoDup_app. split_and!; [done| |apply NoDup_singleton].
      intros n Hn Hn'. apply list_elem_of_singleton in Hn' as ->. done.
Qed.

(** An instance: a new name on the store of the wildcard example. *)
Lemma Condition_InsertOnce_selects_or_inserts_witness :
  let '(db', c', err) := Condition_InsertOnce store_http (Condition.mk 0 "dns.timeout") in
  err = None ∧ c' = Condition.mk 4 "dns.timeout"
  ∧ conditions (tables db') = conditions (tables store_http) ++ [c'].
Proof.
  pose proof (Condition_InsertOnce_selects_or_inserts store_http
                (Condition.mk 0 "dns.timeout") eq_refl eq_refl) as H.
  destruct (Condition_InsertOnce store_http (Condition.mk 0 "dns.timeout"))
    as [[db' c'] err] eqn:E.
  destruct H as (He & _ & _ & _ & Happ & _).
  split; [exact He|]. split.
  - vm_compute in E. by injection E as _ <- _.
  - apply Happ. simpl. rewrite !not_elem_of_cons. split_and!; try discriminate.
    apply not_elem_of_nil.
Defined.

(** X5.  Two conditions without id and with the same name, resolved one
    after the other on a store without faults, receive the same id, and the
    second call writes nothing: a name is stored once.  The same holds of
    two paths with the same string. *)
Theorem InsertOnce_same_name_stored_once (db : DB) (name : string) :
  failing db = None →
  (let '(db1, c1, _) := Condition_InsertOnce db (Condition.mk 0 name) in
   let '(db2, c2, err) := Condition_InsertOnce db1 (Condition.mk 0 name) in
   err = None ∧ c2 = c1 ∧ tables db2 = tables db1)
  ∧ (let '(db1, p1, _) := Path_InsertOnce db (Path.mk 0 name) in
     let '(db2, p2, err) := Path_InsertOnce db1 (Path.mk 0 name) in
     err = None ∧ p2 = p1 ∧ tables db2 = tables db1).
Proof.
  intros Hf. split.
  - unfold Condition_InsertOnce, SelectOrInsert_condition. simpl.
    rewrite statement_no_fault by done. simpl.
    destruct (find _ (conditions (tables db))) as [r|] eqn:E; simpl.
    + rewrite E. done.
    + rewrite find_app_None by done. simpl. rewrite String.eqb_refl. done.
  - unfold Path_InsertOnce, SelectOrInsert_path. simpl.
    rewrite statement_no_fault by done. simpl.
    destruct (find _ (paths (tables db))) as [r|] eqn:E; simpl.
    + rewrite E. done.
    + rewrite find_app_None by done. simpl. rewrite String.eqb_refl. done.
Qed.

(** An instance: the same new name twice on the store of the wildcard
    example. *)
Lemma InsertOnce_same_name_stored_once_witness :
  let '(db1, c1, _) := Condition_InsertOnce store_http (Condition.mk 0 "dns.timeout") in
  let '(db2, c2, err) := Condition_InsertOnce db1 (Condition.mk 0 "dns.timeout") in
  err = None ∧ c2 = c1 ∧ tables db2 = tables db1.
Proof.
  exact (proj1 (InsertOnce_same_name_stored_once store_http "dns.timeout" eq_refl)).
Defined.

(** ** Inserting a set again *)

Lemma insert_links_no_fault (cs : list Condition.t) : ∀ (db : DB) (id : Z),
  failing db = None →
  insert_links db id cs
  = (mkDB (with_links (tables db) id cs) None (issued db + length cs), None).
Proof.
  induction cs as [|c cs IH]; intros db id Hf; simpl.
  - rewrite with_links_nil, Nat.add_0_r. destruct db; simpl in *. by subst.
  - unfold Exec_insert_link. rewrite statement_no_fault by done. simpl.
    rewrite IH by done. simpl. f_equal. f_equal; [|lia].
    unfold with_links. simpl. by rewrite <- app_assoc.
Qed.

Lemma ObservationSet_Insert_no_fault (db : DB) (set : ObservationSet.t) (force : bool) :
  force = true ∨ ObservationSet.ID set = 0 →
  failing db = None →
  ObservationSet_Insert db set force
  = (mkDB (with_links (with_set_row (tables db) (new_set_row db set))
                      (row_id (new_set_row db set))
                      (elems (ObservationSet.Conditions set)))
          None (S (issued db) + length (elems (ObservationSet.Conditions set))),
     ObservationSet.with_ID (row_id (new_set_row db set)) set, None).
Proof.
  intros Hrun Hf. rewrite ObservationSet_Insert_runs by done.
  unfold ObservationSet_Insert, Insert_set. simpl.
  rewrite statement_no_fault by done. simpl.
  rewrite insert_links_no_fault by done. simpl. reflexivity.
Qed.

(** X6.  After [Insert] has stored a set on a store without faults, a
    second [Insert] of the same value without [force] issues no statement
    and changes nothing, whereas a second [Insert] with [force] stores the
    set once more: a second row with the same content under a new id, and a
    second batch of association rows, the first ones staying in place. *)
Theorem ObservationSet_Insert_again (db : DB) (set : ObservationSet.t) (force : bool) :
  force = true ∨ ObservationSet.ID set = 0 →
  failing db = None →
  let '(db1, set1, _) := ObservationSet_Insert db set force in
  ObservationSet_Insert db1 set1 false = (db1, set1, None)
  ∧ let '(db2, set2, err) := ObservationSet_Insert db1 set1 true in
    let row (id : Z) := mkSetRow id (ObservationSet.Sources set)
                                 (ObservationSet.Analyzer set)
                                 (ObservationSet.Metadata set) in
    let cs := elems (ObservationSet.Conditions set) in
    err = None
    ∧ ObservationSet.ID set1 ≠ 0
    ∧ ObservationSet.ID set1 < ObservationSet.ID set2
    ∧ observation_sets (tables db2)
      = observation_sets (tables db)
        ++ [row (ObservationSet.ID set1); row (ObservationSet.ID set2)]
    ∧ observation_set_to_conditions (tables db2)
      = observation_set_to_conditions (tables db)
        ++ ((λ c, (ObservationSet.ID set1, Condition.ID c)) <$> cs)
        ++ ((λ c, (ObservationSet.ID set2, Condition.ID c)) <$> cs).
Proof.
  intros Hrun Hf. rewrite ObservationSet_Insert_no_fault by done.
  set (id1 := row_id (new_set_row db set)).
  assert (Hid1 : 0 < id1) by apply fresh_id_pos.
  split.
  - unfold ObservationSet_Insert. simpl. rewrite decide_False by lia. done.
  - rewrite ObservationSet_Insert_no_fault by (simpl; auto). simpl.
    split_and!; try done; [lia| | |].
    + apply fresh_id_above. rewrite fmap_app. apply elem_of_app. right.
      by apply list_elem_of_singleton.
    + by rewrite <- app_assoc.
    + by rewrite <- app_assoc.
Qed.

(** An instance: the set with two declared conditions, on the empty store. *)
Lemma ObservationSet_Insert_again_witness :
  let '(db1, set1, _) := ObservationSet_Insert empty_store set_two false in
  ObservationSet_Insert db1 set1 false = (db1, set1, None)
  ∧ ObservationSet.ID set1 = 1
  ∧ (row_id <$> observation_sets (tables (ObservationSet_Insert db1 set1 true).1.1))
    = [1; 2].
Proof.
  pose proof (ObservationSet_Insert_again empty_store set_two false
                (or_intror eq_refl) eq_refl) as H.
  destruct (ObservationSet_Insert empty_store set_two false) as [[db1 set1] e1] eqn:E.
  destruct H as [Hnoop _]. split; [exact Hnoop|].
  vm_compute in E. injection E as <- <- _. split; reflexivity.
Defined.

(** ** [InsertInSet]: the accepted observation *)

Lemma Path_InsertOnce_no_fault (db : DB) (p : Path.t) :
  failing db = None →
  let '(db', p', err) := Path_InsertOnce db p in
  err = None ∧ failing db' = None
  ∧ (Path.ID p = 0 → p' ∈ paths (tables db') ∧ Path.String p' = Path.String p)
  ∧ conditions (tables db') = conditions (tables db)
  ∧ observation_sets (tables db') = observation_sets (tables db)
  ∧ observations (tables db') = observations (tables db)
  ∧ observation_set_to_conditions (tables db') = observation_set_to_conditions (tables db).
Proof.
  intros Hf. unfold Path_InsertOnce, SelectOrInsert_path.
  destruct (decide (Path.ID p = 0)) as [E|E]; [|by split_and!].
  rewrite statement_no_fault by done. simpl.
  destruct (find _ (paths (tables db))) as [r|] eqn:Hfind; simpl.
  - split_and!; try done. intros _. apply find_some in Hfind as [Hin He].
    apply String.eqb_eq in He. split; [|done].
    replace (Path.with_ID (Path.ID r) p) with r
      by (destruct r, p; simpl in *; by subst).
    by apply list_elem_of_In.
  - split_and!; try done. intros _. split; [|done].
    apply elem_of_app. right. by apply list_elem_of_singleton.
Qed.

Lemma Condition_InsertOnce_no_fault (db : DB) (c : Condition.t) :
  failing db = None →
  let '(db', c', err) := Condition_InsertOnce db c in
  err = None ∧ failing db' = None
  ∧ (Condition.ID c = 0 →
     c' ∈ conditions (tables db') ∧ Condition.Name c' = Condition.Name c)
  ∧ (∀ p, p ∈ paths (tables db) → p ∈ paths (tables db'))
  ∧ observation_sets (tables db') = observation_sets (tables db)
  ∧ observations (tables db') = observations (tables db)
  ∧ observation_set_to_conditions (tables db') = observation_set_to_conditions (tables db).
Proof.
  intros Hf. unfold Condition_InsertOnce, SelectOrInsert_condition.
  destruct (decide (Condition.ID c = 0)) as [E|E]; [|by split_and!].
  rewrite statement_no_fault by done. simpl.
  destruct (find _ (conditions (tables db))) as [r|] eqn:Hfind; simpl.
  - split_and!; try done. intros _. apply find_name_Some in Hfind as [Hin He].
    split; [|done].
    replace (Condition.with_ID (Condition.ID r) c) with r
      by (destruct r, c; simpl in *; by subst).
    done.
  - split_and!; try done. intros _. split; [|done].
    apply elem_of_app. right. by apply list_elem_of_singleton.
Qed.

Lemma Insert_observation_no_fault (db : DB) (obs : Observation.t) :
  failing db = None →
  Observation.ID obs = 0 →
  let id := fresh_id (obs_id <$> observations (tables db)) in
  let row := mkObsRow id (Observation.SetID obs) (Observation.Start obs)
                      (Observation.End_ obs) (Observation.PathID obs)
                      (Observation.ConditionID obs) (Observation.Value obs) in
  Insert_observation db obs
  = (mkDB (mkTables (conditions (tables db)) (paths (tables db))
                    (observation_sets (tables db))
                    (observations (tables db) ++ [row])
                    (observation_set_to_conditions (tables db)))
          None (S (issued db)),
     Observation.with_ID id obs, None).
Proof.
  intros Hf H0. unfold Insert_observation. rewrite statement_no_fault by done. simpl.
  rewrite decide_True by done.
  rewrite bool_decide_eq_false_2 by apply fresh_id_fresh. reflexivity.
Qed.

Lemma Path_InsertOnce_refers (db : DB) (p : Path.t) :
  failing db = None →
  (Path.ID p ≠ 0 → Path.ID p ∈ Path.ID <$> paths (tables db)) →
  let '(db', p', _) := Path_InsertOnce db p in
  Path.ID p' ∈ Path.ID <$> paths (tables db').
Proof.
  intros Hf Hfk. pose proof (Path_InsertOnce_no_fault db p Hf) as H.
  unfold Path_InsertOnce in *. destruct (decide (Path.ID p = 0)) as [E|E].
  - destruct (SelectOrInsert_path db p) as [[db' p'] e].
    destruct H as (_ & _ & H & _). destruct (H E) as [Hin _].
    by apply list_elem_of_fmap_2.
  - by apply Hfk.
Qed.

Lemma Condition_InsertOnce_refers (db : DB) (c : Condition.t) :
  failing db = None →
  (Condition.ID c ≠ 0 → Condition.ID c ∈ Condition.ID <$> conditions (tables db)) →
  let '(db', c', _) := Condition_InsertOnce db c in
  Condition.ID c' ∈ Condition.ID <$> conditions (tables db').
Proof.
  intros Hf Hfk. pose proof (Condition_InsertOnce_no_fault db c Hf) as H.
  unfold Condition_InsertOnce in *. destruct (decide (Condition.ID c = 0)) as [E|E].
  - destruct (SelectOrInsert_condition db c) as [[db' c'] e].
    destruct H as (_ & _ & H & _). destruct (H E) as [Hin _].
    by apply list_elem_of_fmap_2.
  - by apply Hfk.
Qed.

(** X7.  On a store without faults, an observation without id whose
    resolved condition is in the set's membership is stored, provided that
    the ids its path, its condition and the set come with (if they come with
    one) are ids of stored rows: the call returns no error; one observation
    row is appended, under a new non-zero id, carrying the set's id, the
    resolved path and condition ids and the observation's times and value;
    the three ids the row carries are ids of rows of the path, condition
    and set tables.  A set that came without id is stored by the call (one
    set row, one association row per declared condition) and receives its
    id; a set that came with an id is left as it is and neither the set
    table nor the association table is written. *)
Theorem Observation_InsertInSet_stores
  (db : DB) (obs : Observation.t) (set : ObservationSet.t) (p : Path.t) (c : Condition.t) :
  failing db = None →
  Observation.ID obs = 0 →
  Observation.Path obs = Some p →
  Observation.Condition obs = Some c →
  (Path.ID p ≠ 0 → Path.ID p ∈ Path.ID <$> paths (tables db)) →
  (Condition.ID c ≠ 0 → Condition.ID c ∈ Condition.ID <$> conditions (tables db)) →
  (ObservationSet.ID set ≠ 0 →
   ObservationSet.ID set ∈ row_id <$> observation_sets (tables db)) →
  declared (membership set)
           (Condition.ID (Condition_InsertOnce (Path_InsertOnce db p).1.1 c).1.2) = true →
  let p1 := (Path_InsertOnce db p).1.2 in
  let c2 := (Condition_InsertOnce (Path_InsertOnce db p).1.1 c).1.2 in
  ∃ db' obs' set',
    Observation_InsertInSet db obs set = Some (db', obs', set', None)
    ∧ observations (tables db')
      = observations (tables db)
        ++ [mkObsRow (Observation.ID obs') (ObservationSet.ID set')
                     (Observation.Start obs) (Observation.End_ obs)
                     (Path.ID p1) (Condition.ID c2) (Observation.Value obs)]
    ∧ Observation.ID obs' ≠ 0
    ∧ (Observation.ID obs' ∉ obs_id <$> observations (tables db))
    ∧ Observation.SetID obs' = ObservationSet.ID set'
    ∧ Path.ID p1 ∈ Path.ID <$> paths (tables db')
    ∧ Condition.ID c2 ∈ Condition.ID <$> conditions (tables db')
    ∧ ObservationSet.ID set' ∈ row_id <$> observation_sets (tables db')
    ∧ (ObservationSet.ID set = 0 →
       ObservationSet.ID set' ≠ 0
       ∧ observation_sets (tables db')
         = observation_sets (tables db)
           ++ [mkSetRow (ObservationSet.ID set') (ObservationSet.Sources set)
                        (ObservationSet.Analyzer set) (ObservationSet.Metadata set)]
       ∧ observation_set_to_conditions (tables db')
         = observation_set_to_conditions (tables db)
           ++ ((λ c, (ObservationSet.ID set', Condition.ID c))
                 <$> elems (ObservationSet.Conditions set)))
    ∧ (ObservationSet.ID set ≠ 0 →
       ObservationSet.ID set' = ObservationSet.ID set
       ∧ observation_sets (tables db') = observation_sets (tables db)
       ∧ observation_set_to_conditions (tables db')
         = observation_set_to_conditions (tables db)).
Proof.
  intros Hf H0 HP HC Kp Kc Ks Hd p1 c2. subst p1 c2.
  pose proof (Path_InsertOnce_no_fault db p Hf) as F1.
  pose proof (Path_InsertOnce_refers db p Hf Kp) as R1.
  destruct (Path_InsertOnce db p) as [[db1 p1] e1] eqn:E1.
  destruct F1 as (-> & Hf1 & Hp1 & F1c & F1s & F1o & F1l).
  pose proof (Condition_InsertOnce_no_fault db1 c Hf1) as F2.
  rewrite <- F1c in Kc.
  pose proof (Condition_InsertOnce_refers db1 c Hf1 Kc) as R2.
  simpl in Hd. destruct (Condition_InsertOnce db1 c) as [[db2 c2] e2] eqn:E2.
  destruct F2 as (-> & Hf2 & Hc2 & F2p & F2s & F2o & F2l). simpl in Hd. simpl.
  assert (R1' : Path.ID p1 ∈ Path.ID <$> paths (tables db2)).
  { apply list_elem_of_fmap in R1 as (r & -> & Hr). apply list_elem_of_fmap_2. by apply F2p. }
  unfold Observation_InsertInSet. fold (membership set).
  rewrite HP. simpl. rewrite E1. simpl. rewrite HC. simpl. rewrite E2. simpl.
  rewrite Hd. simpl.
  destruct (decide (ObservationSet.ID set = 0)) as [Z0|Z0].
  - rewrite ObservationSet_Insert_no_fault by (simpl; auto). simpl.
    rewrite Insert_observation_no_fault by done. simpl.
    pose proof (fresh_id_pos (obs_id <$> observations (tables db2))) as Hpos.
    pose proof (fresh_id_pos (row_id <$> observation_sets (tables db2))) as Hpos'.
    pose proof (fresh_id_fresh (obs_id <$> observations (tables db2))) as Hfr.
    eexists _, _, _. split; [reflexivity|]. simpl.
    rewrite F2o, F1o in *. split_and!; try done.
    + lia.
    + rewrite fmap_app. apply elem_of_app. right. by apply list_elem_of_singleton.
    + intros _. unfold new_set_row. simpl.
      rewrite F2s, F1s in Hpos'. rewrite F2s, F1s, F2l, F1l.
      split_and!; [lia|done|done].
  - unfold ObservationSet_Insert. simpl. rewrite decide_False by done.
    rewrite Insert_observation_no_fault by done. simpl.
    pose proof (fresh_id_pos (obs_id <$> observations (tables db2))) as Hpos.
    pose proof (fresh_id_fresh (obs_id <$> observations (tables db2))) as Hfr.
    eexists _, _, _. split; [reflexivity|]. simpl.
    rewrite F2o, F1o in *. split_and!; try done.
    + lia.
    + rewrite F2s, F1s. by apply Ks.
    + intros _. rewrite F2s, F1s, F2l, F1l. done.
Qed.

(** An instance: the end-to-end example, on the store that holds the
    declared condition. *)
Lemma Observation_InsertInSet_stores_witness :
  ∃ db' obs' set',
    Observation_InsertInSet store_one_condition obs_declared set_resolved
    = Some (db', obs', set', None)
    ∧ observations (tables db') = [mkObsRow 1 1 midnight five_past 1 1 0]
    ∧ paths (tables db') = [Path.mk 1 "1.2.3.0/24"]
    ∧ observation_set_to_conditions (tables db') = [(1, 1)].
Proof.
  destruct (Observation_InsertInSet_stores store_one_condition obs_declared set_resolved
              (Path.mk 0 "1.2.3.0/24") (Condition.mk 0 "icmp.unreachable")
              eq_refl eq_refl eq_refl eq_refl)
    as (db' & obs' & set' & Heq & _); [done|done|done|reflexivity|].
  exists db', obs', set'. split; [exact Heq|].
  vm_compute in Heq. injection Heq as <- _ _. split_and!; reflexivity.
Defined.

(** ** [InsertInSet]: the membership is built once *)

Lemma ObservationSet_Insert_fields (db : DB) (set : ObservationSet.t) (force : bool) :
  let set' := (ObservationSet_Insert db set force).1.2 in
  ObservationSet.conditionDeclared set' = ObservationSet.conditionDeclared set
  ∧ ObservationSet.Conditions set' = ObservationSet.Conditions set.
Proof.
  unfold ObservationSet_Insert, Insert_set. rewrite statement_eq.
  destruct force, (decide _), (passes db); simpl; try done;
    by destruct (insert_links _ _ _).
Qed.

(** X8.  Whatever way a call of [InsertInSet] ends (short of a panic), the
    set then carries the membership the call decided by, and later calls
    decide by that same map: they never build it again.  In particular, for
    a stored set whose membership is built, the declared conditions play no
    part any more: replacing them changes nothing of what the call does to
    the store, to the observation or to its result. *)
Theorem Observation_InsertInSet_builds_membership_once
  (db : DB) (obs : Observation.t) (set : ObservationSet.t) :
  match Observation_InsertInSet db obs set with
  | Some (_, _, set', _) =>
      ObservationSet.conditionDeclared set' = Some (membership set)
      ∧ membership set' = membership set
      ∧ ObservationSet.Conditions set' = ObservationSet.Conditions set
  | None => True
  end
  ∧ (is_Some (ObservationSet.conditionDeclared set) →
     ObservationSet.ID set ≠ 0 →
     ∀ cs,
       Observation_InsertInSet db obs (ObservationSet.with_Conditions cs set)
       = (λ '(db', obs', set', err), (db', obs', ObservationSet.with_Conditions cs set', err))
           <$> Observation_InsertInSet db obs set).
Proof.
  split.
  - unfold Observation_InsertInSet. fold (membership set).
    destruct (Observation.Path obs) as [p|]; simpl; [|done].
    destruct (Path_InsertOnce db p) as [[db1 p1] [e1|]]; simpl; [done|].
    destruct (Observation.Condition obs) as [c|]; simpl; [|done].
    destruct (Condition_InsertOnce db1 c) as [[db2 c2] [e2|]]; simpl; [done|].
    destruct (declared (membership set) (Condition.ID c2)); simpl; [|done].
    pose proof (ObservationSet_Insert_fields db2
                  (ObservationSet.with_conditionDeclared (Some (membership set)) set)
                  false) as HF.
    destruct (ObservationSet_Insert db2 _ false) as [[db3 set3] [e3|]]; simpl in *.
    + destruct HF as [HF1 HF2]. unfold membership. by rewrite HF1, HF2.
    + destruct HF as [HF1 HF2]. destruct (Insert_observation db3 _) as [[db4 obs4] e4].
      unfold membership. by rewrite HF1, HF2.
  - intros [m Hm] Hid cs. unfold Observation_InsertInSet. simpl. rewrite Hm.
    destruct (Observation.Path obs) as [p|]; simpl; [|done].
    destruct (Path_InsertOnce db p) as [[db1 p1] [e1|]]; simpl; [done|].
    destruct (Observation.Condition obs) as [c|]; simpl; [|done].
    destruct (Condition_InsertOnce db1 c) as [[db2 c2] [e2|]]; simpl; [done|].
    destruct (declared m (Condition.ID c2)); simpl; [|done].
    unfold ObservationSet_Insert. simpl. rewrite !decide_False by done. simpl.
    by destruct (Insert_observation db2 _) as [[db4 obs4] e4].
Qed.

(** ** Counting after an insertion *)

Lemma insert_links_frame (cs : list Condition.t) : ∀ (db : DB) (id : Z),
  observations (tables (insert_links db id cs).1) = observations (tables db).
Proof.
  induction cs as [|c cs IH]; intros db id; simpl; [done|].
  unfold Exec_insert_link. rewrite statement_eq. destruct (passes db); simpl; [|done].
  by rewrite IH.
Qed.

Lemma ObservationSet_Insert_frame (db : DB) (set : ObservationSet.t) :
  let '(db', set', err) := ObservationSet_Insert db set false in
  observations (tables db') = observations (tables db)
  ∧ ObservationSet.count set' = ObservationSet.count set
  ∧ (err = None → ObservationSet.ID set' ≠ 0).
Proof.
  unfold ObservationSet_Insert, Insert_set. rewrite statement_eq.
  destruct (decide (ObservationSet.ID set = 0)) as [E|E]; [|done].
  destruct (passes db); simpl; [|done].
  pose proof (insert_links_frame (elems (ObservationSet.Conditions set))
                (write (advance db)
                   (mkTables (conditions (tables db)) (paths (tables db))
                      (observation_sets (tables db)
                       ++ [mkSetRow (fresh_id (row_id <$> observation_sets (tables db)))
                             (ObservationSet.Sources set) (ObservationSet.Analyzer set)
                             (ObservationSet.Metadata set)])
                      (observations (tables db))
                      (observation_set_to_conditions (tables db))))
                (fresh_id (row_id <$> observation_sets (tables db)))) as F.
  destruct (insert_links _ _ _) as [db' err]. simpl in F.
  split_and!; [done|done|].
  intros _. simpl. pose proof (fresh_id_pos (row_id <$> observation_sets (tables db))). lia.
Qed.

Lemma Observation_InsertInSet_stored
  (db db' : DB) (obs obs' : Observation.t) (set set' : ObservationSet.t) :
  Observation_InsertInSet db obs set = Some (db', obs', set', None) →
  ∃ row,
    observations (tables db') = observations (tables db) ++ [row]
    ∧ obs_set_id row = ObservationSet.ID set'
    ∧ ObservationSet.count set' = ObservationSet.count set
    ∧ ObservationSet.ID set' ≠ 0.
Proof.
  unfold Observation_InsertInSet.
  destruct (Observation.Path obs) as [p|]; simpl; [|done].
  pose proof (Path_InsertOnce_frame db p) as F1.
  destruct (Path_InsertOnce db p) as [[db1 p1] [e1|]]; simpl; [done|].
  destruct (Observation.Condition obs) as [c|]; simpl; [|done].
  pose proof (Condition_InsertOnce_frame db1 c) as F2.
  destruct (Condition_InsertOnce db1 c) as [[db2 c2] [e2|]]; simpl; [done|].
  destruct (declared _ (Condition.ID c2)); simpl; [|done].
  match goal with
  | |- context [ObservationSet_Insert db2 ?s false] =>
      pose proof (ObservationSet_Insert_frame db2 s) as F3;
      destruct (ObservationSet_Insert db2 s false) as [[db3 set3] [e3|]]; [done|]
  end.
  simpl in F3. destruct F1 as [F1 _], F2 as [F2 _], F3 as (F3 & Hcount & Hid).
  unfold Insert_observation. rewrite statement_eq.
  destruct (passes db3); simpl; [|done].
  destruct (bool_decide _); [done|].
  intros [= <- <- <-]. eexists. simpl. rewrite F3, F2, F1.
  split_and!; [reflexivity|reflexivity|done|by apply Hid].
Qed.

(** X9.  Counting after an insertion: when [InsertInSet] has returned
    without error, the set has an id, and [CountObservations] on that set
    (whose count was not computed before) finds one observation more under
    that id than the store held before the insertion, given that the count
    query goes through. *)
Theorem ObservationSet_CountObservations_after_InsertInSet
  (db db' : DB) (obs obs' : Observation.t) (set set' : ObservationSet.t) :
  Observation_InsertInSet db obs set = Some (db', obs', set', None) →
  ObservationSet.count set = 0 →
  passes db' = true →
  let before :=
    Z.of_nat (length (filter (λ r, obs_set_id r = ObservationSet.ID set')
                             (observations (tables db)))) in
  ObservationSet.ID set' ≠ 0
  ∧ ObservationSet_CountObservations db' set'
    = (advance db', ObservationSet.with_count (before + 1) set', before + 1).
Proof.
  intros Hins Hc Hp before.
  destruct (Observation_InsertInSet_stored _ _ _ _ _ _ Hins) as (row & Ho & Hr & Hc' & Hid).
  split; [done|].
  unfold ObservationSet_CountObservations. rewrite decide_True by congruence.
  rewrite Count_observations_eq, Hp, Ho, filter_app, length_app.
  rewrite filter_cons, decide_True by done. simpl.
  subst before. rewrite Nat.add_1_r, Nat2Z.inj_succ. unfold Z.succ. reflexivity.
Qed.

(** An instance: the first observation of the end-to-end example. *)
Lemma ObservationSet_CountObservations_after_InsertInSet_witness :
  match Observation_InsertInSet store_one_condition obs_declared set_resolved with
  | Some (db', _, set', None) => (ObservationSet_CountObservations db' set').2 = 1
  | _ => False
  end.
Proof.
  destruct (Observation_InsertInSet store_one_condition obs_declared set_resolved)
    as [[[[db' obs'] set'] [e|]]|] eqn:E; [by vm_compute in E| |by vm_compute in E].
  assert (Hp : passes db' = true).
  { vm_compute in E. by injection E as <- _ _. }
  destruct (ObservationSet_CountObservations_after_InsertInSet _ _ _ _ _ _ E eq_refl Hp)
    as [_ ->].
  reflexivity.
Defined.

(** ** [InsertInSet]: what a failed call leaves behind *)

Lemma grown_from_refl (T : Tables) : grown_from T T.
Proof. by unfold grown_from. Qed.

Lemma grown_from_trans (T1 T2 T3 : Tables) :
  grown_from T1 T2 → grown_from T2 T3 → grown_from T1 T3.
Proof.
  intros (?&?&?&?&?) (?&?&?&?&?). unfold grown_from.
  split_and!; by etrans.
Qed.

Lemma Path_InsertOnce_grows (db : DB) (p : Path.t) :
  grown_from (tables db) (tables (Path_InsertOnce db p).1.1).
Proof.
  unfold Path_InsertOnce, SelectOrInsert_path. rewrite statement_eq.
  destruct (decide _); [|apply grown_from_refl].
  destruct (passes db); [|apply grown_from_refl]. simpl.
  destruct (find _ _); [apply grown_from_refl|].
  unfold grown_from. simpl. split_and!; try done. by apply prefix_app_r.
Qed.

Lemma Condition_InsertOnce_grows (db : DB) (c : Condition.t) :
  grown_from (tables db) (tables (Condition_InsertOnce db c).1.1).
Proof.
  unfold Condition_InsertOnce, SelectOrInsert_condition. rewrite statement_eq.
  destruct (decide _); [|apply grown_from_refl].
  destruct (passes db); [|apply grown_from_refl]. simpl.
  destruct (find _ _); [apply grown_from_refl|].
  unfold grown_from. simpl. split_and!; try done. by apply prefix_app_r.
Qed.

Lemma insert_links_grows (cs : list Condition.t) : ∀ (db : DB) (id : Z),
  grown_from (tables db) (tables (insert_links db id cs).1).
Proof.
  induction cs as [|c cs IH]; intros db id; simpl; [apply grown_from_refl|].
  unfold Exec_insert_link. rewrite statement_eq.
  destruct (passes db); simpl; [|apply grown_from_refl].
  eapply grown_from_trans; [|apply IH].
  unfold grown_from. simpl. split_and!; try done. by apply prefix_app_r.
Qed.

Lemma ObservationSet_Insert_grows (db : DB) (set : ObservationSet.t) (force : bool) :
  grown_from (tables db) (tables (ObservationSet_Insert db set force).1.1).
Proof.
  unfold ObservationSet_Insert, Insert_set. rewrite statement_eq.
  destruct (decide _); [|apply grown_from_refl].
  destruct (passes db); simpl; [|apply grown_from_refl].
  match goal with
  | |- context [insert_links ?d ?i ?l] =>
      pose proof (insert_links_grows l d i) as G;
      destruct (insert_links d i l) as [db' err]
  end.
  simpl in *. eapply grown_from_trans; [|exact G].
  unfold grown_from. simpl. split_and!; try done. by apply prefix_app_r.
Qed.

Lemma Insert_observation_rows (db : DB) (obs : Observation.t) :
  let '(db', obs', err) := Insert_observation db obs in
  match err with
  | None =>
      tables db'
      = mkTables (conditions (tables db)) (paths (tables db))
                 (observation_sets (tables db))
                 (observations (tables db)
                  ++ [mkObsRow (Observation.ID obs') (Observation.SetID obs)
                               (Observation.Start obs) (Observation.End_ obs)
                               (Observation.PathID obs) (Observation.ConditionID obs)
                               (Observation.Value obs)])
                 (observation_set_to_conditions (tables db))
      ∧ obs' = Observation.with_ID (Observation.ID obs') obs
  | Some _ => tables db' = tables db ∧ obs' = obs
  end.
Proof.
  unfold Insert_observation. rewrite statement_eq.
  destruct (passes db); simpl; [|done].
  destruct (bool_decide _); simpl; done.
Qed.

(** For every observation and set, [InsertInSet] appends an observation row
    exactly when it returns no error, and every table still holds, in
    place, the rows it held. *)
Lemma Observation_InsertInSet_grows
  (db : DB) (obs : Observation.t) (set : ObservationSet.t) :
  match Observation_InsertInSet db obs set with
  | Some (db', obs', set', err) =>
      grown_from (tables db) (tables db')
      ∧ (err = None →
         observations (tables db')
         = observations (tables db)
           ++ [mkObsRow (Observation.ID obs') (ObservationSet.ID set')
                        (Observation.Start obs) (Observation.End_ obs)
                        (Observation.PathID obs') (Observation.ConditionID obs')
                        (Observation.Value obs)])
      ∧ (err ≠ None → observations (tables db') = observations (tables db))
  | None => True
  end.
Proof.
  unfold Observation_InsertInSet.
  destruct (Observation.Path obs) as [p|]; simpl; [|done].
  pose proof (Path_InsertOnce_frame db p) as F1.
  pose proof (Path_InsertOnce_grows db p) as G1.
  destruct (Path_InsertOnce db p) as [[db1 p1] [e1|]]; simpl in *.
  { destruct F1 as [F1 _]. split_and!; done. }
  destruct (Observation.Condition obs) as [c|]; simpl; [|done].
  pose proof (Condition_InsertOnce_frame db1 c) as F2.
  pose proof (Condition_InsertOnce_grows db1 c) as G2.
  destruct (Condition_InsertOnce db1 c) as [[db2 c2] [e2|]]; simpl in *.
  { destruct F1 as [F1 _], F2 as [F2 _].
    split_and!; [by eapply grown_from_trans|done|by rewrite F2, F1]. }
  assert (G12 : grown_from (tables db) (tables db2)) by by eapply grown_from_trans.
  destruct F1 as [F1 _], F2 as [F2 _].
  destruct (declared _ (Condition.ID c2)); simpl.
  2:{ split_and!; [done|done|by rewrite F2, F1]. }
  match goal with
  | |- context [ObservationSet_Insert db2 ?s false] =>
      pose proof (ObservationSet_Insert_frame db2 s) as F3;
      pose proof (ObservationSet_Insert_grows db2 s false) as G3;
      destruct (ObservationSet_Insert db2 s false) as [[db3 set3] [e3|]]
  end; simpl in *; destruct F3 as (F3 & _ & _).
  { split_and!; [by eapply grown_from_trans|done|by rewrite F3, F2, F1]. }
  assert (G13 : grown_from (tables db) (tables db3)) by by eapply grown_from_trans.
  match goal with
  | |- context [Insert_observation db3 ?o] =>
      pose proof (Insert_observation_rows db3 o) as F4;
      destruct (Insert_observation db3 o) as [[db4 obs4] [e4|]]
  end; simpl in *.
  - destruct F4 as [F4 ->]. rewrite F4. split_and!; [done|done|by rewrite F3, F2, F1].
  - destruct F4 as [F4 F4']. rewrite F4. simpl. split_and!; [|by rewrite F4', F3, F2, F1|done].
    eapply grown_from_trans; [exact G13|].
    unfold grown_from. simpl. split_and!; try done. by apply prefix_app_r.
Qed.

Lemma Path_InsertOnce_pass (db : DB) (p : Path.t) :
  Path.ID p = 0 → passes db = true →
  Path_InsertOnce db p
  = (write (advance db) (with_path (tables db) (Path.String p)),
     path_row (tables db) (Path.String p), None).
Proof.
  intros H0 Hp. unfold Path_InsertOnce, SelectOrInsert_path, with_path, path_row.
  rewrite decide_True by done. rewrite statement_eq, Hp. simpl.
  destruct (find _ (paths (tables db))) as [r|] eqn:Hf; simpl.
  - apply find_some in Hf as [_ He]. apply String.eqb_eq in He.
    replace (Path.with_ID (Path.ID r) p) with r
      by (destruct r, p; simpl in *; by subst).
    reflexivity.
  - destruct p; simpl in *. reflexivity.
Qed.

Lemma Path_InsertOnce_fail (db : DB) (p : Path.t) :
  Path.ID p = 0 → passes db = false →
  Path_InsertOnce db p = (advance db, p, Some driver_error).
Proof.
  intros H0 Hp. unfold Path_InsertOnce, SelectOrInsert_path.
  rewrite decide_True by done. by rewrite statement_eq, Hp.
Qed.

Lemma Condition_InsertOnce_pass (db : DB) (c : Condition.t) :
  Condition.ID c = 0 → passes db = true →
  Condition_InsertOnce db c
  = (write (advance db) (with_condition (tables db) (Condition.Name c)),
     condition_row (tables db) (Condition.Name c), None).
Proof.
  intros H0 Hp.
  unfold Condition_InsertOnce, SelectOrInsert_condition, with_condition, condition_row.
  rewrite decide_True by done. rewrite statement_eq, Hp. simpl.
  destruct (find _ (conditions (tables db))) as [r|] eqn:Hf; simpl.
  - apply find_name_Some in Hf as [_ He].
    replace (Condition.with_ID (Condition.ID r) c) with r
      by (destruct r, c; simpl in *; by subst).
    reflexivity.
  - destruct c; simpl in *. reflexivity.
Qed.

Lemma Condition_InsertOnce_fail (db : DB) (c : Condition.t) :
  Condition.ID c = 0 → passes db = false →
  Condition_InsertOnce db c = (advance db, c, Some driver_error).
Proof.
  intros H0 Hp. unfold Condition_InsertOnce, SelectOrInsert_condition.
  rewrite decide_True by done. by rewrite statement_eq, Hp.
Qed.

Lemma Insert_observation_pass (db : DB) (obs : Observation.t) :
  Observation.ID obs = 0 → passes db = true →
  let row := mkObsRow (fresh_id (obs_id <$> observations (tables db)))
                      (Observation.SetID obs) (Observation.Start obs)
                      (Observation.End_ obs) (Observation.PathID obs)
                      (Observation.ConditionID obs) (Observation.Value obs) in
  Insert_observation db obs
  = (write (advance db) (with_observation (tables db) row),
     Observation.with_ID (obs_id row) obs, None).
Proof.
  intros H0 Hp. unfold Insert_observation. rewrite statement_eq, Hp. simpl.
  rewrite decide_True by done.
  rewrite bool_decide_eq_false_2 by apply fresh_id_fresh. reflexivity.
Qed.

Lemma Insert_observation_fail (db : DB) (obs : Observation.t) :
  passes db = false → Insert_observation db obs = (advance db, obs, Some driver_error).
Proof. intros Hp. unfold Insert_observation. by rewrite statement_eq, Hp. Qed.

Lemma failing_write_advance (db : DB) (T : Tables) :
  failing (write (advance db) T)
  = match failing db with Some (S k) => Some k | _ => None end.
Proof. reflexivity. Qed.

Lemma insert_links_failing (cs : list Condition.t) : ∀ (db : DB) (id : Z),
  no_fault_within (length cs) db →
  failing (insert_links db id cs).1 = (λ k, (k - length cs)%nat) <$> failing db.
Proof.
  induction cs as [|c cs IH]; intros db id Hok; simpl.
  - destruct (failing db) as [k|]; simpl; [|done]. f_equal. lia.
  - assert (Hp : passes db = true).
    { unfold passes, no_fault_within in *.
      destruct (failing db) as [[|k]|]; simpl in *; [lia|done|done]. }
    rewrite Exec_insert_link_pass by done. rewrite IH.
    + rewrite failing_write_advance. unfold no_fault_within in Hok.
      destruct (failing db) as [[|k]|]; simpl in *; [lia|done|done].
    + unfold no_fault_within in *. rewrite failing_write_advance.
      destruct (failing db) as [[|k]|]; simpl in *; [lia|lia|done].
Qed.

(** X10.  [InsertInSet] writes statement by statement, and nothing is
    undone.  For a new observation (no ids on it, its path and its
    condition) and a set without id, the call issues, in this order, the
    select-or-insert of the path, that of the condition, the insert of the
    set row, one association insert per declared condition, and the insert
    of the observation.  If the first statement fails, the tables are left
    as they were.  If a later statement fails, its error is returned and the
    tables hold exactly what the statements before it wrote: the path row;
    then also the condition row; then also the set row and the association
    rows written so far.  If the resolved condition is not among the
    declared ones, the call fails after the second statement, and the path
    and condition rows stay.  If no statement fails the observation row is
    appended as well, with the generated set id and the resolved path and
    condition ids. *)
Theorem Observation_InsertInSet_writes_stepwise
  (db : DB) (obs : Observation.t) (set : ObservationSet.t) (p : Path.t) (c : Condition.t) :
  Observation.Path obs = Some p → Path.ID p = 0 →
  Observation.Condition obs = Some c → Condition.ID c = 0 →
  Observation.ID obs = 0 →
  ObservationSet.ID set = 0 →
  let T1 := with_path (tables db) (Path.String p) in
  let p1 := path_row (tables db) (Path.String p) in
  let T2 := with_condition T1 (Condition.Name c) in
  let c2 := condition_row T1 (Condition.Name c) in
  let cs := elems (ObservationSet.Conditions set) in
  let srow := mkSetRow (fresh_id (row_id <$> observation_sets T2))
                       (ObservationSet.Sources set) (ObservationSet.Analyzer set)
                       (ObservationSet.Metadata set) in
  let T3 := λ k, with_links (with_set_row T2 srow) (row_id srow) (take k cs) in
  let orow := mkObsRow (fresh_id (obs_id <$> observations T2)) (row_id srow)
                       (Observation.Start obs) (Observation.End_ obs)
                       (Path.ID p1) (Condition.ID c2) (Observation.Value obs) in
  ∃ db' obs' set' err,
    Observation_InsertInSet db obs set = Some (db', obs', set', err)
    ∧ (failing db = Some 0%nat → err = Some driver_error ∧ tables db' = tables db)
    ∧ (failing db = Some 1%nat → err = Some driver_error ∧ tables db' = T1)
    ∧ (declared (membership set) (Condition.ID c2) = false →
       no_fault_within 2 db →
       err = Some (errors_New ("cannot insert observation with undeclared condition "
                               +:+ Condition.Name c))
       ∧ tables db' = T2)
    ∧ (declared (membership set) (Condition.ID c2) = true →
       (failing db = Some 2%nat → err = Some driver_error ∧ tables db' = T2)
       ∧ (∀ k, failing db = Some (3 + k)%nat → (k ≤ length cs)%nat →
          err = Some driver_error ∧ tables db' = T3 k)
       ∧ (no_fault_within (4 + length cs) db →
          err = None
          ∧ tables db' = with_observation (T3 (length cs)) orow
          ∧ ObservationSet.ID set' = row_id srow
          ∧ Observation.ID obs' = obs_id orow)).
Proof.
  intros HP HP0 HC HC0 HO0 HS0 T1 p1 T2 c2 cs srow T3 orow.
  unfold Observation_InsertInSet. rewrite HP. simpl.
  fold (membership set).
  destruct (passes db) eqn:Hp0.
  2:{ rewrite Path_InsertOnce_fail by done. eexists _, _, _, _. split; [reflexivity|].
      unfold passes, no_fault_within in *.
      destruct (failing db) as [[|k]|]; try done.
      split_and!; try done; try (intros; lia).
      intros _. split_and!; try done; intros; lia. }
  rewrite Path_InsertOnce_pass by done. fold T1 p1. simpl. rewrite HC. simpl.
  pose proof (failing_write_advance db T1) as Hf1.
  assert (Ht1 : tables (write (advance db) T1) = T1) by reflexivity.
  set (db1 := write (advance db) T1) in *. clearbody db1.
  destruct (passes db1) eqn:Hp1.
  2:{ rewrite Condition_InsertOnce_fail by done. eexists _, _, _, _. split; [reflexivity|].
      unfold passes, no_fault_within in *. rewrite Hf1 in Hp1.
      destruct (failing db) as [[|[|k]]|]; try done.
      split_and!; try done; try (intros; lia).
      intros _. split_and!; try done; intros; lia. }
  rewrite Condition_InsertOnce_pass by done.
  rewrite Ht1. fold T2 c2. simpl.
  pose proof (failing_write_advance db1 T2) as Hf2.
  assert (Ht2 : tables (write (advance db1) T2) = T2) by reflexivity.
  set (db2 := write (advance db1) T2) in *. clearbody db2.
  assert (Hge : no_fault_within 2 db).
  { unfold passes, no_fault_within in *. rewrite Hf1 in Hp1.
    destruct (failing db) as [[|[|k]]|]; try done. lia. }
  destruct (declared (membership set) (Condition.ID c2)) eqn:Hd; simpl.
  2:{ eexists _, _, _, _. split; [reflexivity|].
      unfold no_fault_within in Hge.
      split_and!; try done; try (intros Hf; rewrite Hf in Hge; lia).
      intros _ _. split; [|done]. do 3 f_equal.
      subst c2. unfold condition_row.
      destruct (find _ (conditions T1)) as [r|] eqn:Hfind; [|done].
      by apply find_name_Some in Hfind as [_ ->]. }
  unfold ObservationSet_Insert. simpl. rewrite decide_True by done.
  destruct (passes db2) eqn:Hp2.
  2:{ rewrite Insert_set_fail by done. eexists _, _, _, _. split; [reflexivity|].
      unfold passes in Hp2, Hp1. rewrite Hf2 in Hp2. rewrite Hf1 in Hp2, Hp1.
      unfold no_fault_within in *.
      destruct (failing db) as [[|[|[|k]]]|]; try done.
      split_and!; try done; try (intros; lia).
      intros _. split_and!; try done; intros; lia. }
  rewrite Insert_set_pass by done.
  assert (Es : new_set_row db2
                 (ObservationSet.with_conditionDeclared (Some (membership set)) set) = srow).
  { unfold new_set_row. by rewrite Ht2. }
  rewrite Es. rewrite Ht2. simpl. fold cs.
  pose proof (failing_write_advance db2 (with_set_row T2 srow)) as Hf3.
  assert (Ht3 : tables (write (advance db2) (with_set_row T2 srow)) = with_set_row T2 srow)
    by reflexivity.
  set (db3 := write (advance db2) (with_set_row T2 srow)) in *. clearbody db3.
  assert (Hall : failing db3 = match failing db with
                               | Some (S (S (S k))) => Some k
                               | _ => None
                               end).
  { unfold passes in Hp2, Hp1. rewrite Hf3. rewrite Hf2 in Hp2 |- *.
    rewrite Hf1 in Hp1, Hp2 |- *.
    by destruct (failing db) as [[|[|[|k]]]|]. }
  assert (Hge3 : no_fault_within 3 db).
  { unfold passes in Hp2, Hp1. rewrite Hf2 in Hp2. rewrite Hf1 in Hp1, Hp2.
    unfold no_fault_within in *.
    destruct (failing db) as [[|[|[|k]]]|]; try done; lia. }
  clear Hf1 Hf2 Hf3 Hp0 Hp1 Hp2.
  assert (Hcase : (∃ k, failing db3 = Some k ∧ (k < length cs)%nat)
                  ∨ no_fault_within (length cs) db3).
  { unfold no_fault_within. destruct (failing db3) as [k|]; [|by right].
    destruct (decide (k < length cs)%nat); [left; eauto|right; lia]. }
  destruct Hcase as [(k & Ek & Hlt)|Hnf].
  - destruct (insert_links_fail cs db3 (fresh_id (row_id <$> observation_sets T2)) k Ek Hlt) as (db4 & Heq & HT & _).
    rewrite Heq. eexists _, _, _, _. split; [reflexivity|].
    unfold no_fault_within in *. rewrite Ek in Hall.
    destruct (failing db) as [[|[|[|k']]]|]; try done. injection Hall as ->.
    split_and!; try done.
    intros _. split_and!; try done; [|intros; lia].
    intros k0 [= <-] _. split; [done|]. rewrite HT, Ht3. reflexivity.
  - pose proof (insert_links_failing cs db3 (fresh_id (row_id <$> observation_sets T2)) Hnf) as Hf4.
    destruct (insert_links_ok cs db3 (fresh_id (row_id <$> observation_sets T2)) Hnf) as (db4 & Heq & HT & _).
    rewrite Heq in Hf4 |- *. simpl in Hf4. simpl. rewrite Ht3 in HT.
    assert (HT' : tables db4 = T3 (length cs)).
    { rewrite HT. unfold T3. by rewrite firstn_all. }
    destruct (passes db4) eqn:Hp4.
    + rewrite Insert_observation_pass by done. simpl.
      eexists _, _, _, _. split; [reflexivity|].
      unfold passes in Hp4. rewrite Hf4, Hall in Hp4. rewrite HT'.
      unfold no_fault_within in *. rewrite Hall in Hnf.
      destruct (failing db) as [[|[|[|k']]]|]; simpl in *; try (exfalso; lia).
      * split_and!; try done. intros _.
        split_and!; try done; try (intros _; split_and!; reflexivity).
        intros k0 [= <-] Hle. destruct (k' - length cs)%nat eqn:E; [done|lia].
      * split_and!; try done; intros _;
          split_and!; try done; try (intros _; split_and!; reflexivity).
    + rewrite Insert_observation_fail by done.
      eexists _, _, _, _. split; [reflexivity|].
      unfold passes in Hp4. rewrite Hf4, Hall in Hp4. simpl. rewrite HT'.
      unfold no_fault_within in *. rewrite Hall in Hnf.
      destruct (failing db) as [[|[|[|k']]]|]; simpl in *; try (exfalso; lia);
        try done.
      destruct (k' - length cs)%nat eqn:E; [|done].
      assert (k' = length cs) by lia. subst k'.
      split_and!; try done. intros _. split_and!; try done.
      * intros k0 [= <-] _. done.
      * intros; lia.
Qed.

(** An instance: with one declared condition, the fifth statement (the
    insert of the observation) fails; the path row, the set row and the
    association row written before it stay, and no observation row is
    written. *)
Lemma Observation_InsertInSet_writes_stepwise_witness :
  match Observation_InsertInSet store_failing_fifth obs_declared set_resolved with
  | Some (db', _, _, err) =>
      err = Some driver_error
      ∧ tables db'
        = mkTables [Condition.mk 1 "icmp.unreachable"] [Path.mk 1 "1.2.3.0/24"]
                   [mkSetRow 1 (Some ["agentA"]) "pto-basic" ∅] [] [(1, 1)]
  | None => False
  end.
Proof.
  destruct (Observation_InsertInSet_writes_stepwise store_failing_fifth obs_declared
              set_resolved (Path.mk 0 "1.2.3.0/24") (Condition.mk 0 "icmp.unreachable")
              eq_refl eq_refl eq_refl eq_refl eq_refl eq_refl)
    as (db' & obs' & set' & err & -> & _ & _ & _ & H).
  destruct H as (_ & H & _); [vm_compute; reflexivity|].
  destruct (H 1%nat eq_refl) as [-> ->]; [simpl; lia|].
  split; [reflexivity|vm_compute; reflexivity].
Defined.

(** ** [InsertInSet]: a second observation of the same path and condition *)

Lemma Path_InsertOnce_again (db : DB) (p : Path.t) :
  failing db = None →
  Path.ID p = 0 →
  let '(db1, p1, _) := Path_InsertOnce db p in
  failing db1 = None
  ∧ conditions (tables db1) = conditions (tables db)
  ∧ ∀ dbx, failing dbx = None → paths (tables dbx) = paths (tables db1) →
           Path_InsertOnce dbx p = (mkDB (tables dbx) None (S (issued dbx)), p1, None).
Proof.
  intros Hf H0. unfold Path_InsertOnce, SelectOrInsert_path.
  rewrite !decide_True by done. rewrite statement_no_fault by done. simpl.
  destruct (find _ (paths (tables db))) as [r|] eqn:E; simpl.
  - split_and!; try done. intros dbx Hfx Hx.
    rewrite statement_no_fault by done. simpl.
    rewrite decide_True by done. by rewrite Hx, E.
  - split_and!; try done. intros dbx Hfx Hx.
    rewrite statement_no_fault by done. simpl. rewrite decide_True by done.
    rewrite Hx, find_app_None by done. simpl. by rewrite String.eqb_refl.
Qed.

Lemma Condition_InsertOnce_again (db : DB) (c : Condition.t) :
  failing db = None →
  Condition.ID c = 0 →
  let '(db1, c1, _) := Condition_InsertOnce db c in
  failing db1 = None
  ∧ paths (tables db1) = paths (tables db)
  ∧ ∀ dbx, failing dbx = None → conditions (tables dbx) = conditions (tables db1) →
           Condition_InsertOnce dbx c = (mkDB (tables dbx) None (S (issued dbx)), c1, None).
Proof.
  intros Hf H0. unfold Condition_InsertOnce, SelectOrInsert_condition.
  rewrite !decide_True by done. rewrite statement_no_fault by done. simpl.
  destruct (find _ (conditions (tables db))) as [r|] eqn:E; simpl.
  - split_and!; try done. intros dbx Hfx Hx.
    rewrite statement_no_fault by done. simpl.
    rewrite decide_True by done. by rewrite Hx, E.
  - split_and!; try done. intros dbx Hfx Hx.
    rewrite statement_no_fault by done. simpl. rewrite decide_True by done.
    rewrite Hx, find_app_None by done. simpl. by rewrite String.eqb_refl.
Qed.

Lemma ObservationSet_Insert_keeps (db : DB) (set : ObservationSet.t) :
  failing db = None →
  let '(db', set', err) := ObservationSet_Insert db set false in
  err = None ∧ failing db' = None
  ∧ ObservationSet.ID set' ≠ 0
  ∧ conditions (tables db') = conditions (tables db)
  ∧ paths (tables db') = paths (tables db)
  ∧ observations (tables db') = observations (tables db)
  ∧ ObservationSet.conditionDeclared set' = ObservationSet.conditionDeclared set.
Proof.
  intros Hf. destruct (decide (ObservationSet.ID set = 0)) as [E|E].
  - rewrite ObservationSet_Insert_no_fault by auto. simpl.
    pose proof (fresh_id_pos (row_id <$> observation_sets (tables db))).
    split_and!; try done. lia.
  - unfold ObservationSet_Insert. simpl. rewrite decide_False by done. done.
Qed.

(** X11.  Two observations of the same path and condition.  When, on a
    store without faults, [InsertInSet] has stored an observation that came
    with placeholders (no ids) for its path and condition, into a set that
    came without id or with the id of a stored set row, a second
    observation without id that carries the same two placeholders is stored
    too, into the same set, under the same path id and condition id: the
    second call writes one observation row and nothing else; no path,
    condition, set or association row is added. *)
Theorem Observation_InsertInSet_twice
  (db db1 : DB) (obs obs1 obs2 : Observation.t) (set set1 : ObservationSet.t)
  (p : Path.t) (c : Condition.t) :
  failing db = None →
  Observation.Path obs = Some p → Path.ID p = 0 →
  Observation.Condition obs = Some c → Condition.ID c = 0 →
  (ObservationSet.ID set ≠ 0 →
   ObservationSet.ID set ∈ row_id <$> observation_sets (tables db)) →
  Observation.ID obs2 = 0 →
  Observation.Path obs2 = Some p →
  Observation.Condition obs2 = Some c →
  Observation_InsertInSet db obs set = Some (db1, obs1, set1, None) →
  ∃ db2 obs2',
    Observation_InsertInSet db1 obs2 set1 = Some (db2, obs2', set1, None)
    ∧ conditions (tables db2) = conditions (tables db1)
    ∧ paths (tables db2) = paths (tables db1)
    ∧ observation_sets (tables db2) = observation_sets (tables db1)
    ∧ observation_set_to_conditions (tables db2)
      = observation_set_to_conditions (tables db1)
    ∧ observations (tables db2)
      = observations (tables db1)
        ++ [mkObsRow (Observation.ID obs2') (ObservationSet.ID set1)
                     (Observation.Start obs2) (Observation.End_ obs2)
                     (Observation.PathID obs1) (Observation.ConditionID obs1)
                     (Observation.Value obs2)]
    ∧ (Observation.ID obs2' ∉ obs_id <$> observations (tables db1)).
Proof.
  intros Hf HP Hp0 HC Hc0 _ H20 HP2 HC2.
  unfold Observation_InsertInSet at 1. fold (membership set). rewrite HP. simpl.
  pose proof (Path_InsertOnce_again db p Hf Hp0) as A1.
  destruct (Path_InsertOnce db p) as [[dbp p1] ep] eqn:E1.
  destruct A1 as (Hfp & A1c & A1).
  pose proof (Path_InsertOnce_no_fault db p Hf) as N1. rewrite E1 in N1.
  destruct N1 as (-> & _). simpl. rewrite HC. simpl.
  pose proof (Condition_InsertOnce_again dbp c Hfp Hc0) as A2.
  destruct (Condition_InsertOnce dbp c) as [[dbc c2] ec] eqn:E2.
  destruct A2 as (Hfc & A2p & A2).
  pose proof (Condition_InsertOnce_no_fault dbp c Hfp) as N2. rewrite E2 in N2.
  destruct N2 as (-> & _). simpl.
  destruct (declared (membership set) (Condition.ID c2)) eqn:Hd; simpl; [|done].
  pose proof (ObservationSet_Insert_keeps dbc
                (ObservationSet.with_conditionDeclared (Some (membership set)) set) Hfc) as K.
  destruct (ObservationSet_Insert dbc _ false) as [[dbs sets] es].
  destruct K as (-> & Hfs & Hids & Ksc & Ksp & Kso & Ksd). simpl in Ksd.
  pose proof (Insert_observation_rows dbs
                (Observation.with_SetID (ObservationSet.ID sets)
                   (Observation.with_ConditionID (Condition.ID c2)
                      (Observation.with_Condition (Some c2)
                         (Observation.with_PathID (Path.ID p1)
                            (Observation.with_Path (Some p1) obs)))))) as R1.
  destruct (Insert_observation dbs _) as [[dbo obso] [eo|]] eqn:E4; [done|].
  destruct R1 as [R1 R1'].
  assert (Hfo : failing dbo = None).
  { revert E4. unfold Insert_observation. rewrite statement_no_fault by done. simpl.
    destruct (bool_decide _); by intros [= <- _]. }
  intros [= <- <- <-].
  (* the second call *)
  unfold Observation_InsertInSet. rewrite Ksd. simpl.
  replace (ObservationSet.with_conditionDeclared (Some (membership set)) sets) with sets
    by (rewrite <- Ksd; by destruct sets).
  rewrite HP2. simpl.
  rewrite (A1 dbo Hfo) by (rewrite R1; simpl; congruence). simpl.
  rewrite HC2. simpl.
  rewrite (A2 (mkDB (tables dbo) None (S (issued dbo))) eq_refl)
    by (rewrite R1; simpl; congruence).
  simpl. rewrite Hd. simpl.
  unfold ObservationSet_Insert. simpl. rewrite decide_False by done.
  rewrite Insert_observation_no_fault by done. simpl.
  eexists _, _. split; [reflexivity|]. simpl.
  rewrite R1'. simpl. split_and!; try done.
  apply fresh_id_fresh.
Qed.

(** An instance: a second observation of the end-to-end example. *)
Lemma Observation_InsertInSet_twice_witness :
  match Observation_InsertInSet store_one_condition obs_declared set_resolved with
  | Some (db1, _, set1, _) =>
      ∃ db2 obs2',
        Observation_InsertInSet db1 obs_declared set1 = Some (db2, obs2', set1, None)
        ∧ paths (tables db2) = paths (tables db1)
        ∧ length (observations (tables db2)) = 2%nat
  | None => False
  end.
Proof.
  destruct (Observation_InsertInSet store_one_condition obs_declared set_resolved)
    as [[[[db1 obs1] set1] [e|]]|] eqn:E; [by vm_compute in E| |by vm_compute in E].
  destruct (Observation_InsertInSet_twice store_one_condition db1 obs_declared obs1
              obs_declared set_resolved set1
              (Path.mk 0 "1.2.3.0/24") (Condition.mk 0 "icmp.unreachable")
              eq_refl eq_refl eq_refl eq_refl eq_refl
              (λ N : ObservationSet.ID set_resolved ≠ 0, False_ind _ (N eq_refl))
              eq_refl eq_refl eq_refl E)
    as (db2 & obs2' & H2 & _ & Hp & _ & _ & Ho & _).
  exists db2, obs2'. split; [exact H2|]. split; [exact Hp|].
  rewrite Ho, length_app. vm_compute in E. by injection E as <- _ _.
Defined.

(** ** [Observation.UnmarshalJSON]: what is accepted *)

Section ObservationAccepts.
Context {U : Helpers}.

Lemma Observation_UnmarshalJSON_take (obs : Observation.t) (jslice : list json) :
  Observation_UnmarshalJSON obs (take 6 jslice) = Observation_UnmarshalJSON obs jslice.
Proof.
  destruct jslice as [|j0 [|j1 [|j2 [|j3 [|j4 [|j5 rest]]]]]]; reflexivity.
Qed.

(** X12.  For an array whose elements 1 and 2 parse as timestamps (if it
    has them): [UnmarshalJSON] returns no error exactly when the array has
    at least five elements and element 5, if there is one, is read by
    [Atoi]; the error of an array with a sixth element is the one [Atoi]
    returns for it; no error comes from elements 0, 3 and 4, whatever JSON
    values they are.  On fewer than five elements the receiver is left as
    it was.  Elements from the seventh on play no part. *)
Theorem Observation_UnmarshalJSON_value_error (obs : Observation.t) (jslice : list json) :
  (∀ j, jslice !! 1%nat = Some j → (Parse_RFC3339 (AsString j)).2 = None) →
  (∀ j, jslice !! 2%nat = Some j → (Parse_RFC3339 (AsString j)).2 = None) →
  let '(obs', err) := Observation_UnmarshalJSON obs jslice in
  (err = None ↔
     (5 ≤ length jslice)%nat
     ∧ (∀ j, jslice !! 5%nat = Some j → (Atoi (AsString j)).2 = None))
  ∧ ((length jslice < 5)%nat →
     obs' = obs
     ∧ err = Some (errors_New "Observation requires at least five elements"))
  ∧ ((5 ≤ length jslice)%nat →
     ∀ j, jslice !! 5%nat = Some j → err = (Atoi (AsString j)).2)
  ∧ Observation_UnmarshalJSON obs (take 6 jslice) = (obs', err).
Proof.
  intros H1 H2. rewrite Observation_UnmarshalJSON_take.
  destruct (Observation_UnmarshalJSON obs jslice) as [obs' err] eqn:E.
  split_and!; [| | |reflexivity]; revert E.
  - destruct jslice as [|j0 [|j1 [|j2 [|j3 [|j4 rest]]]]];
      try (intros [= <- <-]; split; [done|simpl; lia]).
    unfold Observation_UnmarshalJSON.
    destruct (Atoi (AsString j0)) as [setid e0].
    specialize (H1 j1 eq_refl). specialize (H2 j2 eq_refl).
    destruct (Parse_RFC3339 (AsString j1)) as [t1 e1]. simpl in H1. subst e1.
    destruct (Parse_RFC3339 (AsString j2)) as [t2 e2]. simpl in H2. subst e2.
    destruct rest as [|j5 rest].
    + intros [= <- <-]. split; [intros _|done]. split; [simpl; lia|done].
    + destruct (Atoi (AsString j5)) as [v e5] eqn:E5. intros [= <- <-]. split.
      * intros ->. split; [simpl; lia|]. intros j [= <-]. by rewrite E5.
      * intros (_ & H5). specialize (H5 j5 eq_refl). by rewrite E5 in H5.
  - destruct jslice as [|j0 [|j1 [|j2 [|j3 [|j4 rest]]]]];
      try (by intros [= <- <-]).
    simpl. lia.
  - destruct jslice as [|j0 [|j1 [|j2 [|j3 [|j4 rest]]]]]; try (simpl; lia).
    unfold Observation_UnmarshalJSON.
    destruct (Atoi (AsString j0)) as [setid e0].
    specialize (H1 j1 eq_refl). specialize (H2 j2 eq_refl).
    destruct (Parse_RFC3339 (AsString j1)) as [t1 e1]. simpl in H1. subst e1.
    destruct (Parse_RFC3339 (AsString j2)) as [t2 e2]. simpl in H2. subst e2.
    destruct rest as [|j5 rest]; [done|].
    destruct (Atoi (AsString j5)) as [v e5] eqn:E5.
    intros [= <- <-] _ j [= <-]. by rewrite E5.
Qed.

End ObservationAccepts.

(** An instance: a sixth element that is no number; the error is that of
    [Atoi]. *)
Lemma Observation_UnmarshalJSON_value_error_witness :
  (Observation_UnmarshalJSON (H := util) Observation.zero line_bad_value).2
  = Some (NumError "Atoi" "many" false).
Proof.
  pose proof (Observation_UnmarshalJSON_value_error (U := util)
                Observation.zero line_bad_value) as H.
  destruct (Observation_UnmarshalJSON Observation.zero line_bad_value) as [obs' err].
  destruct H as (_ & _ & H & _).
  - intros j [= <-]. reflexivity.
  - intros j [= <-]. reflexivity.
  - simpl. rewrite (H ltac:(simpl; lia) (JString "many") eq_refl). reflexivity.
Defined.

(** ** Writing and reading a batch of observations *)

Lemma WriteObservations_mapM (obsdat : list Observation.t) : ∀ out,
  WriteObservations obsdat out = (out ++.) <$> mapM Observation_MarshalJSON obsdat.
Proof.
  induction obsdat as [|O obsdat IH]; intros out; simpl.
  - by rewrite app_nil_r.
  - destruct (Observation_MarshalJSON O) as [jslice|]; simpl; [|done].
    rewrite IH. destruct (mapM _ obsdat) as [rest|]; simpl; [|done].
    by rewrite <- app_assoc.
Qed.

Lemma read_back_all_lookup (obsdat : list Observation.t) : ∀ (R : Observation.t) (i : nat) O,
  obsdat !! i = Some O →
  ∃ R', read_back_all R obsdat !! i = Some (read_back R' O)
        ∧ Observation.PathID R' = Observation.PathID R
        ∧ Observation.ConditionID R' = Observation.ConditionID R
        ∧ Observation.Value (read_back R' O)
          = default (Observation.Value R)
              (last (filter (λ v, v ≠ 0) (Observation.Value <$> take (S i) obsdat))).
Proof.
  induction obsdat as [|O1 obsdat IH]; intros R i O Hi; [done|].
  destruct i as [|i]; simpl in Hi.
  - injection Hi as ->. exists R. split_and!; try done.
    change (take 1 (O :: obsdat)) with [O]. rewrite list_fmap_singleton.
    rewrite filter_cons, filter_nil. simpl.
    destruct (decide (Observation.Value O = 0)) as [E|E].
    + rewrite decide_False by (intros N; by apply N). done.
    + by rewrite decide_True.
  - destruct (IH (read_back R O1) i O Hi) as (R' & Hl & Hp & Hc & Hv).
    exists R'. split_and!; try done.
    rewrite Hv. change (take (S (S i)) (O1 :: obsdat)) with (O1 :: take (S i) obsdat).
    rewrite fmap_cons, filter_cons.
    set (rest := filter _ (_ <$> take (S i) obsdat)).
    simpl. destruct (decide (Observation.Value O1 = 0)) as [E|E].
    + rewrite decide_False by (intros N; by apply N). done.
    + rewrite decide_True by done. clearbody rest.
      destruct rest as [|z rest]; [done|].
      change (last (Observation.Value O1 :: z :: rest)) with (last (z :: rest)).
      destruct (last (z :: rest)) eqn:EL; [done|]. by apply last_None in EL.
Qed.

Lemma read_back_all_length (obsdat : list Observation.t) : ∀ R,
  length (read_back_all R obsdat) = length obsdat.
Proof. induction obsdat as [|O obsdat IH]; intros R; simpl; [done|]. by rewrite IH. Qed.

Section ObservationBatch.
Context {U : Helpers}.
Hypothesis AsString_string : ∀ s, AsString (JString s) = s.
Hypothesis AsString_number : ∀ n, exact_int n → Atoi (AsString (JNumber n)) = (n, None).

Lemma Observation_UnmarshalJSON_written (R O : Observation.t) :
  writable O → strings_valid O →
  ∃ jslice,
    Observation_MarshalJSON O = Some jslice
    ∧ Observation_UnmarshalJSON R (wire <$> jslice) = (read_back R O, None).
Proof.
  intros ([p HP] & [c HC] & Hs & He & Hid & Hv) [Vp Vc].
  specialize (Vp p HP). specialize (Vc c HC).
  unfold Observation_MarshalJSON, read_back. rewrite HP, HC. simpl.
  eexists. split; [reflexivity|].
  destruct (decide (Observation.Value O = 0)) as [E0|E0]; simpl;
    unfold Observation_UnmarshalJSON;
    rewrite !float64_of_int_exact by done;
    rewrite !wire_string_valid by (done || apply utf8_Valid_Format_RFC3339).
  - rewrite !AsString_string, (AsString_number _ Hid), !Parse_Format_RFC3339 by done.
    reflexivity.
  - rewrite !AsString_string, (AsString_number _ Hid), (AsString_number _ Hv),
      !Parse_Format_RFC3339 by done.
    reflexivity.
Qed.

Lemma read_observations_written (obsdat : list Observation.t) :
  Forall writable obsdat → Forall strings_valid obsdat → Forall scannable obsdat →
  ∃ lines,
    mapM Observation_MarshalJSON obsdat = Some lines
    ∧ length lines = length obsdat
    ∧ ∀ R out, read_observations R out (Scan lines)
               = (Some (out ++ read_back_all R obsdat), None).
Proof.
  induction 1 as [|O obsdat HO _ IH]; intros HV HS.
  - exists []. split_and!; try done. intros R out. simpl. by rewrite app_nil_r.
  - apply Forall_cons in HV as [HVO HV]. apply Forall_cons in HS as [HSO HS].
    destruct (IH HV HS) as (lines & Hm & Hlen & Hr).
    destruct (Observation_UnmarshalJSON_written Observation.zero O HO HVO)
      as (jslice & Hj & _).
    exists (jslice :: lines). simpl. rewrite Hj, Hm. simpl.
    split_and!; [done|by rewrite Hlen|].
    intros R out. rewrite (HSO jslice Hj).
    destruct (Observation_UnmarshalJSON_written R O HO HVO) as (jslice' & Hj' & Hu).
    rewrite Hj in Hj'. injection Hj' as <-.
    change (read_observations R out ((wire <$> jslice) :: Scan lines))
      with (let '(obs, err) := Observation_UnmarshalJSON R (wire <$> jslice) in
            match err with
            | Some e => (None, Some e)
            | None => read_observations obs (out ++ [obs]) (Scan lines)
            end).
    rewrite Hu, Hr. by rewrite <- app_assoc.
Qed.

(** X2.  [UnmarshalObservations] after [MarshalObservations], for a helper
    [AsString] that is the identity on strings and gives an exactly carried
    integer a text [Atoi] reads back.  A batch of observations that each
    have a path and a condition whose strings are valid UTF-8, times in the
    range of the layout, exactly carried set id and value, and a line of
    less than 64 KiB, is written as one line per observation and read back
    without error as as many observations, in the same order, each with the
    set id, the path string and the condition name of the one written, its
    start and end cut to whole seconds, and no ids.  The value read at
    position [i] is the last value other than 0 written at a position up to
    [i] (0 if there is none): the lines are decoded into one variable, and a
    line without a value leaves it as the line before set it. *)
Theorem UnmarshalObservations_MarshalObservations (obsdat : list Observation.t) :
  Forall writable obsdat →
  Forall strings_valid obsdat →
  Forall scannable obsdat →
  ∃ lines out,
    MarshalObservations obsdat = Some lines
    ∧ length lines = length obsdat
    ∧ UnmarshalObservations lines = (Some out, None)
    ∧ length out = length obsdat
    ∧ ∀ (i : nat) O, obsdat !! i = Some O →
        ∃ O', out !! i = Some O'
              ∧ Observation.ID O' = 0
              ∧ Observation.SetID O' = Observation.SetID O
              ∧ Observation.Start O' = whole_seconds (Observation.Start O)
              ∧ Observation.End_ O' = whole_seconds (Observation.End_ O)
              ∧ Observation.PathID O' = 0
              ∧ Observation.Path O'
                = (λ p, Path.mk 0 (Path.String p)) <$> Observation.Path O
              ∧ Observation.ConditionID O' = 0
              ∧ Observation.Condition O'
                = (λ c, Condition.mk 0 (Condition.Name c)) <$> Observation.Condition O
              ∧ Observation.Value O'
                = last_nonzero (Observation.Value <$> take (S i) obsdat).
Proof.
  intros Hw Hv Hs.
  destruct (read_observations_written obsdat Hw Hv Hs) as (lines & Hm & Hlen & Hr).
  exists lines, (read_back_all Observation.zero obsdat).
  unfold MarshalObservations, UnmarshalObservations, ReadObservations.
  rewrite WriteObservations_mapM, Hm, Hr. simpl.
  split_and!; [done|done|done|apply read_back_all_length|].
  intros i O Hi.
  destruct (read_back_all_lookup obsdat Observation.zero i O Hi) as (R' & Hl & Hp & Hc & Hv').
  exists (read_back R' O). split; [exact Hl|].
  split_and!; try done.
Qed.

End ObservationBatch.

(** An instance: the values 42 and 0 are read back as 42 and 42. *)
Lemma UnmarshalObservations_MarshalObservations_witness :
  ∃ lines out,
    MarshalObservations obsdat_valued_then_plain = Some lines
    ∧ UnmarshalObservations (H := util) lines = (Some out, None)
    ∧ Observation.Value <$> out = [42; 42].
Proof.
  destruct (UnmarshalObservations_MarshalObservations (U := util)
              (λ s, eq_refl) util_AsString_int obsdat_valued_then_plain)
    as (lines & out & Hm & _ & Hu & _ & _).
  - repeat constructor; try (by eexists); unfold exact_int; simpl; lia.
  - repeat constructor; by intros ? [= <-].
  - repeat constructor; intros line Hl; vm_compute in Hl; injection Hl as <-;
      vm_compute; reflexivity.
  - exists lines, out. split; [exact Hm|]. split; [exact Hu|].
    vm_compute in Hm. injection Hm as <-. vm_compute in Hu. by injection Hu as <-.
Defined.

(** ** The set codec: what decoding keeps and what it files *)

Section SetCodecFurther.
Context {U : Helpers} {R : MapRange}.

(** X13.  What a successful [UnmarshalJSON] files under metadata: exactly
    the entries of the object whose key is none of [_sources], [_analyzer],
    [_conditions] and does not start with two underscores, each with the
    text [AsString] gives its value, whatever JSON value that is.  Nothing
    of the metadata the receiver held before the call is kept. *)
Theorem ObservationSet_UnmarshalJSON_metadata
  (set0 : ObservationSet.t) (jmap : gmap string json) :
  let '(set, err) := ObservationSet_UnmarshalJSON set0 jmap in
  err = None →
  ObservationSet.Metadata set
  = AsString <$> filter (λ kv, metadata_key kv.1 = true) jmap.
Proof.
  pose proof (ObservationSet_UnmarshalJSON_spec set0 jmap) as H.
  destruct (ObservationSet_UnmarshalJSON set0 jmap) as [set err].
  simpl in H. destruct H as [_ Hf]. intros He.
  destruct (Hf He) as (_ & _ & _ & Hm & _).
  apply map_eq. intros k. rewrite Hm, lookup_fmap, map_lookup_filter. simpl.
  destruct (jmap !! k) as [v|]; simpl; [|done].
  by destruct (metadata_key k).
Qed.

(** X14.  [UnmarshalJSON] looks for the required fields in the receiver,
    not in the object: decoding an object that has none of the keys
    [_sources], [_analyzer], [_conditions] into a set that holds sources, an
    analyzer and conditions returns no error and keeps those three (the
    conditions with the ids they had), while the id is reset to 0. *)
Theorem ObservationSet_UnmarshalJSON_reused_receiver
  (set0 : ObservationSet.t) (jmap : gmap string json) :
  jmap !! "_sources" = None →
  jmap !! "_analyzer" = None →
  jmap !! "_conditions" = None →
  ObservationSet.Sources set0 ≠ None →
  ObservationSet.Analyzer set0 ≠ "" →
  ObservationSet.Conditions set0 ≠ None →
  let '(set, err) := ObservationSet_UnmarshalJSON set0 jmap in
  err = None
  ∧ ObservationSet.Sources set = ObservationSet.Sources set0
  ∧ ObservationSet.Analyzer set = ObservationSet.Analyzer set0
  ∧ ObservationSet.Conditions set = ObservationSet.Conditions set0
  ∧ ObservationSet.ID set = 0.
Proof.
  intros E1 E2 E3 HS HA HC.
  pose proof (ObservationSet_UnmarshalJSON_spec set0 jmap) as H.
  destruct (ObservationSet_UnmarshalJSON set0 jmap) as [set err].
  rewrite E1, E2, E3 in H. simpl in H. destruct H as [Hiff Hf].
  assert (He : err = None).
  { apply Hiff. split_and!; try done. intros k v Hk. unfold entry_refused.
    rewrite !bool_decide_eq_false_2; [done| |]; intros ->; congruence. }
  destruct (Hf He) as (? & ? & ? & _ & ?). done.
Qed.

End SetCodecFurther.

(** An instance: the metadata [set_full] held is replaced by the free entry
    of the object; the entry under [__link] is not filed. *)
Lemma ObservationSet_UnmarshalJSON_metadata_witness :
  ObservationSet.Metadata
    (ObservationSet_UnmarshalJSON (H := util) (H0 := range_sorted)
       set_full jmap_metadata_only).1
  = {[ "note" := "y" ]}.
Proof.
  pose proof (ObservationSet_UnmarshalJSON_metadata (U := util) (R := range_sorted)
                set_full jmap_metadata_only) as H.
  assert (He : (ObservationSet_UnmarshalJSON (H := util) (H0 := range_sorted)
                  set_full jmap_metadata_only).2 = None)
    by (vm_compute; reflexivity).
  destruct (ObservationSet_UnmarshalJSON set_full jmap_metadata_only) as [set err].
  simpl in *. rewrite (H He). vm_compute. reflexivity.
Defined.

(** An instance: an object with metadata only, decoded into the stored set
    [set_full]. *)
Lemma ObservationSet_UnmarshalJSON_reused_receiver_witness :
  let '(set, err) :=
    ObservationSet_UnmarshalJSON (H := util) (H0 := range_sorted) set_full jmap_metadata_only in
  err = None
  ∧ ObservationSet.Sources set = Some ["agentA"; "agentB"]
  ∧ ObservationSet.Conditions set = Some [Condition.mk 3 "icmp.unreachable"]
  ∧ ObservationSet.ID set = 0.
Proof.
  pose proof (ObservationSet_UnmarshalJSON_reused_receiver (U := util) (R := range_sorted)
                set_full jmap_metadata_only eq_refl eq_refl eq_refl) as H.
  destruct (ObservationSet_UnmarshalJSON set_full jmap_metadata_only) as [set err].
  destruct H as (He & Hs & _ & Hc & Hi); [done..|].
  rewrite Hs, Hc. done.
Defined.

Section SetCodecNoConditions.
Context {U : Helpers} {R Re : MapRange}.

(** X15.  A set without declared conditions is written without the key
    [_conditions] (provided its metadata has no entry under that key), and
    what is written is refused when decoded into a new set, whatever the two
    helpers do.  For helpers that are the identity on strings and on arrays
    of strings, and a set that has sources, an analyzer and metadata under
    free keys only, the error is the one for missing conditions. *)
Theorem decodeSet_encodeSet_no_conditions (S : ObservationSet.t) :
  elems (ObservationSet.Conditions S) = [] →
  ObservationSet.Metadata S !! "_conditions" = None →
  encodeSet (H := Re) S !! "_conditions" = None
  ∧ (decodeSet (H0 := R) (encodeSet (H := Re) S)).2 ≠ None
  ∧ ((∀ s, AsString (JString s) = s) →
     (∀ l, AsStringArray (JArray (JString <$> l)) = (Some l, true)) →
     ObservationSet.Sources S ≠ None →
     ObservationSet.Analyzer S ≠ "" →
     (∀ k, is_Some (ObservationSet.Metadata S !! k) → metadata_key k = true) →
     (decodeSet (H0 := R) (encodeSet (H := Re) S)).2
     = Some (errors_New "ObservationSet missing _conditions")).
Proof.
  intros Hc Hm.
  assert (E3 : encodeSet (H := Re) S !! "_conditions" = None).
  { rewrite encodeSet_lookup, Hm. simpl. by rewrite Hc. }
  split; [exact E3|]. split.
  - unfold decodeSet.
    pose proof (ObservationSet_UnmarshalJSON_spec (R := R) ObservationSet.zero
                  (encodeSet (H := Re) S)) as H.
    destruct (ObservationSet_UnmarshalJSON _ _) as [set err].
    rewrite E3 in H. simpl in H. destruct H as [Hiff _]. simpl.
    intros He. apply Hiff in He as (_ & _ & _ & N). done.
  - intros HAs HAa HS HA Hmeta.
    assert (Hnone : ∀ k, metadata_key k = false → ObservationSet.Metadata S !! k = None).
    { intros k Hk. destruct (ObservationSet.Metadata S !! k) eqn:E; [|done].
      rewrite Hmeta in Hk by eauto. done. }
    destruct (ObservationSet.Sources S) as [srcs|] eqn:ES; [|done].
    assert (E1 : encodeSet (H := Re) S !! "_sources" = Some (JArray (JString <$> srcs))).
    { rewrite encodeSet_lookup, Hnone by done. by rewrite ES. }
    assert (E2 : encodeSet (H := Re) S !! "_analyzer"
                 = Some (JString (ObservationSet.Analyzer S))).
    { by rewrite encodeSet_lookup, Hnone. }
    unfold decodeSet, ObservationSet_UnmarshalJSON.
    pose proof (unmarshal_entries_spec (@map_range R _ (encodeSet (H := Re) S))
                  (ObservationSet.with_ID 0
                     (ObservationSet.with_Metadata ∅ ObservationSet.zero))
                  (map_range_NoDup (R := R) _)) as H.
    destruct (unmarshal_entries _ _) as [set err]. cbv zeta in H.
    rewrite (list_to_map_range (R := R)), E1, E2, E3 in H. destruct H as [Hiff Hf].
    assert (He : err = None).
    { apply Hiff. intros k v Hk. unfold entry_refused.
      destruct (decide (k = "_sources")) as [->|N1].
      { rewrite E1 in Hk. injection Hk as <-. by rewrite HAa. }
      rewrite (bool_decide_eq_false_2 _ N1).
      destruct (decide (k = "_conditions")) as [->|N3]; [congruence|].
      by rewrite (bool_decide_eq_false_2 _ N3). }
    subst err. destruct (Hf eq_refl) as (Hs & Ha & Hcs & _).
    rewrite Hs, Ha, Hcs, HAa, HAs. simpl. by rewrite decide_False.
Qed.

End SetCodecNoConditions.

(** An instance: a stored set without declared conditions. *)
Lemma decodeSet_encodeSet_no_conditions_witness :
  (decodeSet (H := util) (H0 := range_sorted)
             (encodeSet (H := range_sorted) set_no_conditions)).2
  = Some (errors_New "ObservationSet missing _conditions").
Proof.
  destruct (decodeSet_encodeSet_no_conditions (U := util) (R := range_sorted)
              (Re := range_sorted) set_no_conditions eq_refl eq_refl) as (_ & _ & H).
  apply H.
  - intros s. reflexivity.
  - apply util_AsStringArray_strings.
  - discriminate.
  - discriminate.
  - intros k [v Hk]. unfold set_no_conditions in Hk. simpl in Hk.
    apply lookup_singleton_Some in Hk as [<- _]. reflexivity.
Defined.

(** ** What [MarshalJSON] writes for a set *)

Section SetEncoding.
Context {R : MapRange}.

(** X16.  The object [MarshalJSON] hands to [json.Marshal], key by key, in
    whatever order the metadata is ranged over.  A metadata entry is written
    under its key whatever the key is, also over [_sources], [_analyzer],
    [_conditions] and the computed keys.  Where the metadata has no entry:
    [_sources] and [_analyzer] are always written; [_conditions] is written
    when the set declares a condition; [__link] and [__data] when the link
    and the data link are not empty; [__obs_count] when the count is not 0;
    no other key is written. *)
Theorem ObservationSet_MarshalJSON_lookup (set : ObservationSet.t) (k : string) :
  ObservationSet_MarshalJSON set !! k
  = match ObservationSet.Metadata set !! k with
    | Some v => Some (JString v)
    | None =>
        if decide (k = "_sources") then
          Some (json_strings (ObservationSet.Sources set))
        else if decide (k = "_analyzer") then
          Some (JString (ObservationSet.Analyzer set))
        else if decide (k = "_conditions") then
          match elems (ObservationSet.Conditions set) with
          | [] => None
          | cs => Some (JArray (JString <$> (Condition.Name <$> cs)))
          end
        else if decide (k = "__link") then
          if decide (ObservationSet.link set = "") then None
          else Some (JString (ObservationSet.link set))
        else if decide (k = "__data") then
          if decide (ObservationSet.datalink set = "") then None
          else Some (JString (ObservationSet.datalink set))
        else if decide (k = "__obs_count") then
          if decide (ObservationSet.count set = 0) then None
          else Some (JNumber (ObservationSet.count set))
        else None
    end.
Proof.
  unfold ObservationSet_MarshalJSON.
  rewrite foldl_insert_lookup by apply map_range_NoDup.
  rewrite list_to_map_range.
  destruct (ObservationSet.Metadata set !! k) as [v|]; [done|].
  destruct (elems (ObservationSet.Conditions set)) as [|c cs]; simpl;
    repeat case_decide; by simplify_map_eq.
Qed.

End SetEncoding.

(** ** Decoding a set and encoding it again *)

Section SetDecodeEncode.
Context {U : Helpers} {R Re : MapRange}.

(** X17.  Decoding an object and encoding the result, for helpers that are
    the identity on strings and on arrays of strings.  An object whose three
    required keys hold arrays of strings and a non-empty string, that names
    at least one condition and whose free entries are strings is decoded
    into a new set without error, and that set is encoded to the same
    object less its keys that start with two underscores. *)
Theorem encodeSet_decodeSet (jmap : gmap string json) :
  (∀ s, AsString (JString s) = s) →
  (∀ l, AsStringArray (JArray (JString <$> l)) = (Some l, true)) →
  wire_object jmap →
  ∃ S, decodeSet (H0 := R) jmap = (S, None)
       ∧ encodeSet (H := Re) S = filter (λ kv, HasPrefix kv.1 "__" = false) jmap.
Proof.
  intros HAs HAa Hw. unfold wire_object in Hw.
  destruct Hw as ([srcs E1] & (ana & E2 & Hana) & (names & E3 & Hnames) & Hfree).
  unfold decodeSet.
  pose proof (ObservationSet_UnmarshalJSON_spec (R := R) ObservationSet.zero jmap) as H.
  destruct (ObservationSet_UnmarshalJSON ObservationSet.zero jmap) as [S err] eqn:ES.
  rewrite E1, E2, E3, !HAa, HAs in H. simpl in H. destruct H as [Hiff Hf].
  assert (He : err = None).
  { apply Hiff. split_and!; try done. intros k v Hk. unfold entry_refused.
    destruct (decide (k = "_sources")) as [->|N1].
    { rewrite E1 in Hk. injection Hk as <-. by rewrite HAa. }
    rewrite (bool_decide_eq_false_2 _ N1).
    destruct (decide (k = "_conditions")) as [->|N3].
    { rewrite E3 in Hk. injection Hk as <-. by rewrite HAa. }
    by rewrite (bool_decide_eq_false_2 _ N3). }
  subst err. destruct (Hf eq_refl) as (HS & HA & HC & HM & HI).
  assert (Hrest : ObservationSet.link S = "" ∧ ObservationSet.datalink S = ""
                  ∧ ObservationSet.count S = 0).
  { revert ES. unfold ObservationSet_UnmarshalJSON.
    assert (G : ∀ kvs s0 s1 e,
              unmarshal_entries s0 kvs = (s1, e) →
              ObservationSet.link s1 = ObservationSet.link s0
              ∧ ObservationSet.datalink s1 = ObservationSet.datalink s0
              ∧ ObservationSet.count s1 = ObservationSet.count s0).
    { induction kvs as [|[k v] kvs IH]; intros s0 s1 e; simpl; [by intros [= <- _]|].
      destruct (unmarshal_entry s0 k v) as [s' [e'|]] eqn:Ee.
      - intros [= <- _]. revert Ee. unfold unmarshal_entry.
        repeat case_decide; repeat case_match; intros Heq; by simplify_eq.
      - intros Hk. destruct (IH _ _ _ Hk) as (-> & -> & ->).
        revert Ee. unfold unmarshal_entry.
        repeat case_decide; repeat case_match; intros Heq; by simplify_eq. }
    destruct (unmarshal_entries _ _) as [s1 e] eqn:Eu.
    apply G in Eu. simpl in Eu.
    destruct e; [by intros [= <- _]|].
    repeat case_match; intros Heq; by simplify_eq. }
  destruct Hrest as (Hl & Hd & Hc).
  exists S. split; [done|]. apply map_eq. intros k.
  rewrite map_lookup_filter. simpl.
  unfold encodeSet, ObservationSet_MarshalJSON.
  rewrite foldl_insert_lookup by apply map_range_NoDup.
  rewrite list_to_map_range, HM, HS, HA, HC, Hl, Hd, Hc. simpl.
  destruct names as [|n names]; [done|]. simpl.
  destruct (decide (k = "_sources")) as [->|N1].
  { rewrite E1. simpl. by simplify_map_eq. }
  destruct (decide (k = "_analyzer")) as [->|N2].
  { rewrite E2. simpl. by simplify_map_eq. }
  destruct (decide (k = "_conditions")) as [->|N3].
  { rewrite E3. simpl. simplify_map_eq. do 4 f_equal.
    rewrite <- list_fmap_compose. by rewrite list_fmap_id. }
  destruct (jmap !! k) as [v|] eqn:Ek; simpl.
  - destruct (metadata_key k) eqn:Hk.
    + destruct (Hfree k v Ek Hk) as [s ->]. rewrite HAs.
      unfold metadata_key in Hk. rewrite !andb_true_iff in Hk.
      destruct Hk as [_ Hp]. apply negb_true_iff in Hp.
      by rewrite option_guard_True.
    + assert (Hp : HasPrefix k "__" = true).
      { unfold metadata_key in Hk.
        rewrite !bool_decide_eq_false_2 in Hk by done. simpl in Hk.
        by apply negb_false_iff in Hk. }
      rewrite Hp. rewrite option_guard_False by done.
      by simplify_map_eq.
  - by simplify_map_eq.
Qed.

End SetDecodeEncode.

(** An instance: the computed entries of the object are dropped, the free
    entry and the three required ones come back. *)
Lemma encodeSet_decodeSet_witness :
  ∃ S, decodeSet (H := util) (H0 := range_sorted) jmap_with_computed = (S, None)
       ∧ encodeSet (H := range_sorted) S = <["note" := JString "x"]> jmap_example.
Proof.
  destruct (encodeSet_decodeSet (U := util) (R := range_sorted) (Re := range_sorted)
              jmap_with_computed (λ s, eq_refl) util_AsStringArray_strings)
    as (S & Hd & He).
  - split_and!.
    + by exists ["agentA"].
    + by exists "pto-basic".
    + by exists ["icmp.unreachable"].
    + intros k v Hk Hm. unfold jmap_with_computed, jmap_example in Hk.
      repeat (apply lookup_insert_Some in Hk as [[<- <-]|[_ Hk]];
              [by eauto || by vm_compute in Hm|]).
      by rewrite lookup_empty in Hk.
  - exists S. split; [exact Hd|]. rewrite He. vm_compute. reflexivity.
Defined.

(** ** The condition cache: reloading *)

Lemma names_unique_eq (rows : list Condition.t) (c1 c2 : Condition.t) :
  NoDup (Condition.Name <$> rows) →
  c1 ∈ rows → c2 ∈ rows → Condition.Name c1 = Condition.Name c2 → c1 = c2.
Proof.
  induction rows as [|r rows IH]; intros Hu H1 H2 Hn; [inversion H1|].
  rewrite fmap_cons in Hu. apply NoDup_cons in Hu as [Hr Hu].
  apply elem_of_cons in H1 as [->|H1], H2 as [->|H2]; [done| | |by apply IH].
  - destruct Hr. rewrite Hn. by apply list_elem_of_fmap_2.
  - destruct Hr. rewrite <- Hn. by apply list_elem_of_fmap_2.
Qed.

(** X18.  [Reload] issues one statement and writes no table.  If the
    statement fails, the cache is left as it was and the store's error is
    returned wrapped.  If it goes through, every name of the condition table
    is cached under the id of the last row of that name, and every other
    name keeps the entry it had: a reload never removes an entry, also not
    one whose name is no longer stored. *)
Theorem ConditionCache_Reload_last_writer_wins (cache : gmap string Z) (db : DB) :
  let '(cache', db', err) := ConditionCache_Reload cache db in
  tables db' = tables db
  ∧ issued db' = S (issued db)
  ∧ (passes db = false → cache' = cache ∧ err = Some (PTOWrapError driver_error))
  ∧ (passes db = true →
     err = None
     ∧ ∀ k, cache' !! k
            = match last (filter (λ c, Condition.Name c = k) (conditions (tables db))) with
              | Some c => Some (Condition.ID c)
              | None => cache !! k
              end).
Proof.
  rewrite ConditionCache_Reload_eq. destruct (passes db); simpl.
  - split_and!; try done. intros _. split; [done|]. apply cache_rows_lookup.
  - split_and!; done.
Qed.

(** X19.  [LoadConditionCache], when its statement goes through on a
    condition table whose names are unique, returns a cache that holds
    exactly the table: a name is cached under an id if and only if the table
    has the row with that id and name.  (When the statement fails, the
    wrapped error is returned and no cache.) *)
Theorem LoadConditionCache_exact (db : DB) :
  (passes db = false →
   LoadConditionCache db = (None, advance db, Some (PTOWrapError driver_error)))
  ∧ (passes db = true →
     names_unique db →
     ∃ cache,
       LoadConditionCache db = (Some cache, advance db, None)
       ∧ ∀ k id, cache !! k = Some id ↔ Condition.mk id k ∈ conditions (tables db)).
Proof.
  unfold LoadConditionCache. rewrite ConditionCache_Reload_eq. split.
  - by intros ->.
  - intros -> Hu. eexists. split; [reflexivity|]. intros k id.
    rewrite cache_rows_lookup, lookup_empty.
    destruct (last (filter _ (conditions (tables db)))) as [c|] eqn:EL.
    + assert (Hc : c ∈ filter (λ c, Condition.Name c = k) (conditions (tables db))).
      { apply last_Some in EL as [l' ->]. apply elem_of_app. right. by left. }
      apply list_elem_of_filter in Hc as [Hn Hc]. split.
      * intros [= <-]. destruct c; simpl in *. by subst.
      * intros Hin. f_equal.
        by rewrite (names_unique_eq _ c (Condition.mk id k) Hu Hc Hin Hn).
    + split; [done|]. intros Hin. apply last_None in EL.
      assert (Hc : Condition.mk id k ∈ filter (λ c, Condition.Name c = k)
                                         (conditions (tables db))).
      { by apply list_elem_of_filter. }
      rewrite EL in Hc. inversion Hc.
Qed.

(** An instance: the store of the wildcard example. *)
Lemma LoadConditionCache_exact_witness :
  ∃ cache,
    LoadConditionCache store_http = (Some cache, advance store_http, None)
    ∧ cache !! "http.post" = Some 2
    ∧ cache !! "smtp.helo" = None.
Proof.
  destruct (proj2 (LoadConditionCache_exact store_http) eq_refl) as (cache & Hl & Hc).
  - unfold names_unique. apply (bool_decide_unpack _). vm_compute. exact I.
  - exists cache. split; [exact Hl|]. split.
    + apply Hc. simpl. right. left.
    + destruct (cache !! "smtp.helo") as [id|] eqn:E; [|done].
      apply Hc in E. simpl in E. rewrite !elem_of_cons in E.
      destruct E as [E|[E|[E|E]]]; [discriminate..|inversion E].
Defined.

(** An instance: a cached name that the store no longer holds survives the
    reload. *)
Lemma ConditionCache_Reload_last_writer_wins_witness :
  let '(cache', _, err) := ConditionCache_Reload cache_stale store_http in
  err = None ∧ cache' !! "smtp.helo" = Some 9 ∧ cache' !! "http.get" = Some 1.
Proof.
  pose proof (ConditionCache_Reload_last_writer_wins cache_stale store_http) as H.
  destruct (ConditionCache_Reload cache_stale store_http) as [[cache' db'] err].
  destruct H as (_ & _ & _ & H). destruct (H eq_refl) as [He Hk].
  split; [exact He|]. rewrite !Hk. split; reflexivity.
Defined.

(** ** The condition cache: resolving *)

Lemma SelectOrInsert_condition_rows (db : DB) (c : Condition.t) :
  let '(db', c', err) := SelectOrInsert_condition db c in
  Condition.Name c' = Condition.Name c
  ∧ (∃ more, conditions (tables db') = conditions (tables db) ++ more)
  ∧ paths (tables db') = paths (tables db)
  ∧ observation_sets (tables db') = observation_sets (tables db)
  ∧ observations (tables db') = observations (tables db)
  ∧ observation_set_to_conditions (tables db') = observation_set_to_conditions (tables db)
  ∧ (err = None → c' ∈ conditions (tables db')).
Proof.
  unfold SelectOrInsert_condition. rewrite statement_eq.
  destruct (passes db); simpl.
  - destruct (find _ (conditions (tables db))) as [r|] eqn:Hf; simpl.
    + apply find_name_Some in Hf as [Hin Hn].
      split_and!; try done; [exists []; by rewrite app_nil_r|].
      intros _. replace (Condition.with_ID (Condition.ID r) c) with r; [done|].
      destruct r, c; simpl in *; by subst.
    + split_and!; try done; [by eexists|].
      intros _. apply elem_of_app. right. by apply list_elem_of_singleton.
  - split_and!; try done. exists []. by rewrite app_nil_r.
Qed.

Lemma ConditionCache_SetConditionID_coherent
  (cache : gmap string Z) (db : DB) (c : Condition.t) :
  cache_coherent cache db →
  Condition.ID c = 0 →
  let '(cache', db', c', err) := ConditionCache_SetConditionID cache db c in
  cache_coherent cache' db'
  ∧ (∃ more, conditions (tables db') = conditions (tables db) ++ more)
  ∧ paths (tables db') = paths (tables db)
  ∧ observation_sets (tables db') = observation_sets (tables db)
  ∧ observations (tables db') = observations (tables db)
  ∧ observation_set_to_conditions (tables db') = observation_set_to_conditions (tables db)
  ∧ (err = None → is_Some (cache' !! Condition.Name c)).
Proof.
  intros Hco H0. unfold ConditionCache_SetConditionID.
  destruct (cache !! Condition.Name c) as [id|] eqn:Hl.
  { split_and!; try done. exists []. by rewrite app_nil_r. }
  rewrite decide_True by done. unfold ConditionCache_InsertOnce.
  rewrite decide_True by done.
  pose proof (SelectOrInsert_condition_rows db c) as H.
  destruct (SelectOrInsert_condition db c) as [[db1 c1] [e|]];
    destruct H as (Hn & [more Hm] & Hp & Hs & Ho & Hk & Hin).
  - split_and!; try done; [|by eexists].
    intros k id Hk'. rewrite Hm. apply elem_of_app. left. by apply Hco.
  - split_and!; try done;
      [|by eexists|intros _; rewrite <- Hn, lookup_insert_eq; by eauto].
    intros k id. destruct (decide (Condition.Name c1 = k)) as [<-|Hne].
    + rewrite lookup_insert_eq. intros [= <-].
      replace (Condition.mk (Condition.ID c1) (Condition.Name c1)) with c1 by by destruct c1.
      by apply Hin.
    + rewrite lookup_insert_ne by done. intros Hk'. rewrite Hm.
      apply elem_of_app. left. by apply Hco.
Qed.

Lemma fill_condition_ids_coherent (cs : list Condition.t) :
  ∀ (cache : gmap string Z) (db : DB),
  cache_coherent cache db →
  (∀ c, c ∈ cs → Condition.ID c = 0) →
  let '(cache', db', err) := fill_condition_ids cache db cs in
  cache_coherent cache' db'
  ∧ (∀ k, is_Some (cache !! k) → is_Some (cache' !! k))
  ∧ (∃ more, conditions (tables db') = conditions (tables db) ++ more)
  ∧ paths (tables db') = paths (tables db)
  ∧ observation_sets (tables db') = observation_sets (tables db)
  ∧ observations (tables db') = observations (tables db)
  ∧ observation_set_to_conditions (tables db') = observation_set_to_conditions (tables db)
  ∧ (err = None → ∀ c, c ∈ cs → is_Some (cache' !! Condition.Name c)).
Proof.
  induction cs as [|c cs IH]; intros cache db Hco Hz; simpl.
  - split_and!; try done; [exists []; by rewrite app_nil_r|].
    intros _ c Hc. inversion Hc.
  - pose proof (ConditionCache_SetConditionID_coherent cache db c Hco
                  (Hz c ltac:(left))) as H1.
    pose proof (ConditionCache_SetConditionID_caches cache db c) as G1.
    destruct (ConditionCache_SetConditionID cache db c) as [[[cache1 db1] c1] [e|]];
      destruct H1 as (Hco1 & [m1 Hm1] & Hp1 & Hs1 & Ho1 & Hk1 & Hc1), G1 as [G1 _].
    + split_and!; try done; by eexists.
    + specialize (IH cache1 db1 Hco1 (λ c' Hc', Hz c' ltac:(by right))).
      destruct (fill_condition_ids cache1 db1 cs) as [[cache' db'] err].
      destruct IH as (Hco' & Hmono & [m2 Hm2] & Hp2 & Hs2 & Ho2 & Hk2 & Hall).
      split_and!; try congruence; [done|by eauto| |].
      * exists (m1 ++ m2). by rewrite Hm2, Hm1, app_assoc.
      * intros He c' Hc'. apply elem_of_cons in Hc' as [->|Hc']; [|by apply Hall].
        apply Hmono. by apply Hc1.
Qed.

(** X20.  [FillConditionIDsInSet] on a set whose declared conditions carry
    no id (a decoded set), with a cache every entry of which is a row of the
    condition table: however the call ends, every entry of the cache is
    still a row of the condition table, that table has only grown at its
    end, and no other table is written.  After a call without error every
    declared name is cached under the id of a stored row of that name. *)
Theorem ConditionCache_FillConditionIDsInSet_coherent
  (cache : gmap string Z) (db : DB) (set : ObservationSet.t) :
  cache_coherent cache db →
  (∀ c, c ∈ elems (ObservationSet.Conditions set) → Condition.ID c = 0) →
  let '(cache', db', _, err) := ConditionCache_FillConditionIDsInSet cache db set in
  cache_coherent cache' db'
  ∧ (∃ more, conditions (tables db') = conditions (tables db) ++ more)
  ∧ paths (tables db') = paths (tables db)
  ∧ observation_sets (tables db') = observation_sets (tables db)
  ∧ observations (tables db') = observations (tables db)
  ∧ observation_set_to_conditions (tables db') = observation_set_to_conditions (tables db)
  ∧ (err = None →
     ∀ c, c ∈ elems (ObservationSet.Conditions set) →
          ∃ id, cache' !! Condition.Name c = Some id
                ∧ Condition.mk id (Condition.Name c) ∈ conditions (tables db')).
Proof.
  intros Hco Hz. unfold ConditionCache_FillConditionIDsInSet.
  pose proof (fill_condition_ids_coherent _ cache db Hco Hz) as H.
  destruct (fill_condition_ids cache db _) as [[cache' db'] err].
  destruct H as (Hco' & _ & Hm & Hp & Hs & Ho & Hk & Hall).
  split_and!; try done.
  intros He c Hc. destruct (Hall He c Hc) as [id Hid]. exists id. split; [done|].
  by apply Hco'.
Qed.

(** An instance: the decoded set of the end-to-end example, on the store of
    the wildcard example with an empty cache. *)
Lemma ConditionCache_FillConditionIDsInSet_coherent_witness :
  let '(cache', db', _, err) :=
    ConditionCache_FillConditionIDsInSet ∅ store_http set_decoded in
  err = None
  ∧ cache' !! "icmp.unreachable" = Some 4
  ∧ Condition.mk 4 "icmp.unreachable" ∈ conditions (tables db').
Proof.
  pose proof (ConditionCache_FillConditionIDsInSet_coherent ∅ store_http set_decoded) as H.
  assert (He : (ConditionCache_FillConditionIDsInSet ∅ store_http set_decoded).2 = None)
    by (vm_compute; reflexivity).
  assert (Hl : (ConditionCache_FillConditionIDsInSet ∅ store_http set_decoded).1.1.1
               !! "icmp.unreachable" = Some 4)
    by (vm_compute; reflexivity).
  destruct (ConditionCache_FillConditionIDsInSet ∅ store_http set_decoded)
    as [[[cache' db'] set'] err].
  destruct H as (Hco & _).
  - intros k id Hk. by rewrite lookup_empty in Hk.
  - intros c Hc. simpl in Hc. apply list_elem_of_singleton in Hc as ->. reflexivity.
  - split; [exact He|]. split; [exact Hl|]. by apply Hco.
Defined.

Section CacheLookupAfterResolve.
Context {R : MapRange}.

(** X21.  A condition that [SetConditionID] resolved without error is then
    found by [ConditionsByName] under its name without a statement: for a
    cache and a condition table that hold no id 0 and a name that does not
    end in [.*], the lookup leaves cache and store as the resolution left
    them and returns exactly the resolved condition. *)
Theorem ConditionCache_ConditionsByName_after_SetConditionID
  (cache : gmap string Z) (db : DB) (c : Condition.t) :
  cache_ids_assigned cache →
  row_ids_assigned db →
  HasSuffix (Condition.Name c) ".*" = false →
  let '(cache', db', c', err) := ConditionCache_SetConditionID cache db c in
  err = None →
  Condition.ID c' ≠ 0
  ∧ ConditionCache_ConditionsByName cache' db' (Condition.Name c)
    = (cache', db', Some [c'], None).
Proof.
  intros Hc Hr Hsuf.
  assert (Hhit : ∀ (cache' : gmap string Z) db' c',
             cache' !! Condition.Name c = Some (Condition.ID c') →
             Condition.Name c' = Condition.Name c →
             Condition.ID c' ≠ 0 →
             ConditionCache_ConditionsByName cache' db' (Condition.Name c)
             = (cache', db', Some [c'], None)).
  { intros cache' db' c' Hl Hn Hid. unfold ConditionCache_ConditionsByName.
    rewrite Hsuf. unfold cache_get. rewrite Hl. simpl.
    rewrite decide_False by done. simpl. rewrite Hl. simpl.
    rewrite decide_False by done. rewrite <- Hn. by destruct c'. }
  unfold ConditionCache_SetConditionID.
  destruct (cache !! Condition.Name c) as [id|] eqn:Hl.
  { intros _. assert (Hid : id ≠ 0) by (intros ->; by apply (Hc (Condition.Name c))).
    split; [done|]. by apply Hhit. }
  destruct (decide (Condition.ID c = 0)) as [E|E].
  - unfold ConditionCache_InsertOnce, SelectOrInsert_condition.
    rewrite decide_True by done. rewrite statement_eq.
    destruct (passes db); [|done].
    change (tables (advance db)) with (tables db).
    destruct (find _ (conditions (tables db))) as [r|] eqn:Hf; simpl.
    + intros _. apply find_name_Some in Hf as [Hin Hn].
      assert (Hid : Condition.ID r ≠ 0) by by apply Hr.
      split; [done|]. apply Hhit; [by rewrite lookup_insert_eq|done|done].
    + intros _.
      pose proof (fresh_id_pos (Condition.ID <$> conditions (tables db))) as Hpos.
      split; [lia|]. apply Hhit; [by rewrite lookup_insert_eq|done|simpl; lia].
  - intros _. split; [done|]. apply Hhit; [by rewrite lookup_insert_eq|done|done].
Qed.

End CacheLookupAfterResolve.

(** An instance: a new name, resolved against the store of the wildcard
    example and looked up. *)
Lemma ConditionCache_ConditionsByName_after_SetConditionID_witness :
  let '(cache', db', c', err) :=
    ConditionCache_SetConditionID ∅ store_http (Condition.mk 0 "dns.timeout") in
  c' = Condition.mk 4 "dns.timeout"
  ∧ ConditionCache_ConditionsByName (H := range_sorted) cache' db' "dns.timeout"
    = (cache', db', Some [c'], None).
Proof.
  pose proof (ConditionCache_ConditionsByName_after_SetConditionID (R := range_sorted)
                ∅ store_http (Condition.mk 0 "dns.timeout")) as H.
  assert (He : (ConditionCache_SetConditionID ∅ store_http
                  (Condition.mk 0 "dns.timeout")).2 = None)
    by (vm_compute; reflexivity).
  assert (Hc' : (ConditionCache_SetConditionID ∅ store_http
                   (Condition.mk 0 "dns.timeout")).1.2 = Condition.mk 4 "dns.timeout")
    by (vm_compute; reflexivity).
  destruct (ConditionCache_SetConditionID ∅ store_http (Condition.mk 0 "dns.timeout"))
    as [[[cache' db'] c'] err].
  split; [exact Hc'|].
  apply H; [| |reflexivity|exact He].
  - intros k Hk. by rewrite lookup_empty in Hk.
  - intros r Hr. simpl in Hr. rewrite !elem_of_cons in Hr.
    destruct Hr as [->|[->|[->|Hr]]]; [discriminate..|inversion Hr].
Defined.

(** ** Resolving a decoded set, then inserting into it *)

Lemma Path_InsertOnce_conditions (db : DB) (p : Path.t) :
  conditions (tables (Path_InsertOnce db p).1.1) = conditions (tables db).
Proof.
  unfold Path_InsertOnce, SelectOrInsert_path. rewrite statement_eq.
  destruct (decide _); [|done]. destruct (passes db); [|done].
  simpl. by destruct (find _ _).
Qed.

Lemma Condition_InsertOnce_assigned (db : DB) (c : Condition.t) :
  row_ids_assigned db →
  let '(db', c', err) := Condition_InsertOnce db c in
  row_ids_assigned db' ∧ (err = None → Condition.ID c' ≠ 0).
Proof.
  intros Hr. unfold Condition_InsertOnce, SelectOrInsert_condition. rewrite statement_eq.
  destruct (decide (Condition.ID c = 0)) as [E|E]; [|done].
  destruct (passes db); [|done]. simpl.
  destruct (find _ (conditions (tables db))) as [r|] eqn:Hf; simpl.
  - apply find_name_Some in Hf as [Hin _]. split; [done|]. intros _. by apply Hr.
  - pose proof (fresh_id_pos (Condition.ID <$> conditions (tables db))) as Hpos.
    split; [|simpl; lia].
    intros r Hin. simpl in Hin. apply elem_of_app in Hin as [Hin|Hin]; [by apply Hr|].
    apply list_elem_of_singleton in Hin as ->. simpl. lia.
Qed.

Lemma fill_condition_ids_assigned (cs : list Condition.t) :
  ∀ (cache : gmap string Z) (db : DB),
  row_ids_assigned db → row_ids_assigned (fill_condition_ids cache db cs).1.2.
Proof.
  induction cs as [|c cs IH]; intros cache db Hr; simpl; [done|].
  assert (H1 : row_ids_assigned (ConditionCache_SetConditionID cache db c).1.1.2).
  { unfold ConditionCache_SetConditionID.
    destruct (cache !! Condition.Name c); [done|].
    destruct (decide (Condition.ID c = 0)) as [E|E]; [|done].
    unfold ConditionCache_InsertOnce. rewrite decide_True by done.
    pose proof (Condition_InsertOnce_assigned db c Hr) as H.
    unfold Condition_InsertOnce in H. rewrite decide_True in H by done.
    destruct (SelectOrInsert_condition db c) as [[db1 c1] [e|]]; by destruct H. }
  destruct (ConditionCache_SetConditionID cache db c) as [[[cache1 db1] c1] [e|]];
    [done|]. by apply IH.
Qed.

Lemma declare_conditions_unassigned (cs : list Condition.t) (id : Z) :
  (∀ c, c ∈ cs → Condition.ID c = 0) → id ≠ 0 →
  declared (declare_conditions cs) id = false.
Proof.
  intros Hz Hid. apply not_true_is_false. intros Hd.
  apply declared_declare_conditions in Hd.
  apply list_elem_of_fmap in Hd as (c & -> & Hc). by apply Hid, Hz.
Qed.

(** X22.  A decoded set, resolved and then inserted into.  A set as
    [UnmarshalJSON] leaves it (its declared conditions without ids, no
    membership built) comes back from [FillConditionIDsInSet] with its
    conditions still without ids, so the membership [InsertInSet] builds
    from it holds the id 0 alone: on a condition table that holds no id 0,
    no observation is ever stored into it.  Whatever the observation and
    whatever its condition, also one the set declares by name, the call
    returns an error and writes no observation row; when no statement fails,
    the error is the one for an undeclared condition. *)
Theorem Observation_InsertInSet_after_FillConditionIDsInSet
  (cache : gmap string Z) (db : DB) (set : ObservationSet.t) (obs : Observation.t) :
  ObservationSet.conditionDeclared set = None →
  (∀ c, c ∈ elems (ObservationSet.Conditions set) → Condition.ID c = 0) →
  row_ids_assigned db →
  let '(_, db1, set1, _) := ConditionCache_FillConditionIDsInSet cache db set in
  match Observation_InsertInSet db1 obs set1 with
  | Some (db2, obs2, _, err) =>
      observations (tables db2) = observations (tables db1)
      ∧ (∃ e, err = Some e)
      ∧ (failing db1 = None →
         ∃ c2, Observation.Condition obs2 = Some c2
               ∧ err = Some (errors_New
                               ("cannot insert observation with undeclared condition "
                                +:+ Condition.Name c2)))
  | None => True
  end.
Proof.
  intros Hnil Hz Hr. unfold ConditionCache_FillConditionIDsInSet.
  pose proof (fill_condition_ids_assigned (elems (ObservationSet.Conditions set))
                cache db Hr) as Hr1.
  destruct (fill_condition_ids cache db _) as [[cache1 db1] e1]. simpl in Hr1.
  unfold Observation_InsertInSet. rewrite Hnil.
  destruct (Observation.Path obs) as [p|]; simpl; [|done].
  pose proof (Path_InsertOnce_frame db1 p) as F1.
  pose proof (Path_InsertOnce_conditions db1 p) as C1.
  pose proof (Path_InsertOnce_no_fault db1 p) as N1.
  destruct (Path_InsertOnce db1 p) as [[dbp p1] [ep|]]; simpl in *.
  { destruct F1 as [F1 _]. split_and!; [done|by eauto|].
    intros Hf. by destruct (N1 Hf). }
  destruct (Observation.Condition obs) as [c|]; simpl; [|done].
  assert (Hrp : row_ids_assigned dbp).
  { unfold row_ids_assigned. rewrite C1. exact Hr1. }
  pose proof (Condition_InsertOnce_frame dbp c) as F2.
  pose proof (Condition_InsertOnce_assigned dbp c Hrp) as A2.
  pose proof (Condition_InsertOnce_no_fault dbp c) as N2.
  destruct (Condition_InsertOnce dbp c) as [[dbc c2] [ec|]]; simpl in *.
  { destruct F1 as [F1 _], F2 as [F2 _]. split_and!; [by rewrite F2, F1|by eauto|].
    intros Hf. destruct (N1 Hf) as (_ & Hfp & _). by destruct (N2 Hfp). }
  destruct A2 as [_ A2].
  rewrite declare_conditions_unassigned by auto. simpl.
  destruct F1 as [F1 _], F2 as [F2 _].
  split_and!; [by rewrite F2, F1|by eauto|]. intros _. by eexists.
Qed.

(** An instance: the end-to-end example.  The set is decoded from
    [_conditions = ["icmp.unreachable"]] and resolved against the empty
    store; the observation of [icmp.unreachable] is refused. *)
Lemma Observation_InsertInSet_after_FillConditionIDsInSet_witness :
  let '(_, db1, set1, err1) :=
    ConditionCache_FillConditionIDsInSet ∅ empty_store set_decoded in
  err1 = None
  ∧ match Observation_InsertInSet db1 obs_declared set1 with
    | Some (db2, _, _, err) =>
        observations (tables db2) = []
        ∧ err = Some (errors_New
                        "cannot insert observation with undeclared condition icmp.unreachable")
    | None => False
    end.
Proof.
  pose proof (Observation_InsertInSet_after_FillConditionIDsInSet
                ∅ empty_store set_decoded obs_declared eq_refl) as H.
  assert (He : (ConditionCache_FillConditionIDsInSet ∅ empty_store set_decoded).2 = None)
    by (vm_compute; reflexivity).
  assert (Hd : (ConditionCache_FillConditionIDsInSet ∅ empty_store set_decoded).1.1.2
               = mkDB (mkTables [Condition.mk 1 "icmp.unreachable"] [] [] [] []) None 1)
    by (vm_compute; reflexivity).
  assert (Hs : (ConditionCache_FillConditionIDsInSet ∅ empty_store set_decoded).1.2
               = set_decoded)
    by apply ConditionCache_FillConditionIDsInSet_set_unchanged.
  destruct (ConditionCache_FillConditionIDsInSet ∅ empty_store set_decoded)
    as [[[cache1 db1] set1] err1].
  simpl in He, Hd, Hs. subst db1 set1. split; [exact He|].
  assert (H' := H (λ c Hc, ltac:(simpl in Hc; apply list_elem_of_singleton in Hc;
                                  by subst))
                  (λ c Hc, ltac:(simpl in Hc; inversion Hc))).
  clear H.
  destruct (Observation_InsertInSet _ obs_declared set_decoded)
    as [[[[db2 obs2] set2] err]|] eqn:E2.
  - destruct H' as (Hobs & _ & _). split; [by rewrite Hobs|].
    vm_compute in E2. by injection E2 as _ _ _ <-.
  - by vm_compute in E2.
Defined.

(** ** Resolving a decoded set, then storing it *)

(** X23.  A decoded set, resolved and then stored.  The set comes back
    from [FillConditionIDsInSet] with its conditions still without ids, and
    [Insert] writes the ids as they are: on a store without faults the set
    is stored with one association row per declared condition, and every
    one of these rows carries the condition id 0, which is the id of no row
    of the condition table (a table that holds no id 0). *)
Theorem ObservationSet_Insert_after_FillConditionIDsInSet
  (cache : gmap string Z) (db : DB) (set : ObservationSet.t) :
  ObservationSet.ID set = 0 →
  (∀ c, c ∈ elems (ObservationSet.Conditions set) → Condition.ID c = 0) →
  row_ids_assigned db →
  let '(_, db1, set1, _) := ConditionCache_FillConditionIDsInSet cache db set in
  failing db1 = None →
  let '(db2, set2, err) := ObservationSet_Insert db1 set1 false in
  err = None
  ∧ ObservationSet.ID set2 ≠ 0
  ∧ observation_set_to_conditions (tables db2)
    = observation_set_to_conditions (tables db1)
      ++ ((λ _, (ObservationSet.ID set2, 0)) <$> elems (ObservationSet.Conditions set))
  ∧ (0 ∉ Condition.ID <$> conditions (tables db2)).
Proof.
  intros H0 Hz Hr.
  pose proof (ConditionCache_FillConditionIDsInSet_set_unchanged cache db set) as Hs.
  unfold ConditionCache_FillConditionIDsInSet in *.
  pose proof (fill_condition_ids_assigned (elems (ObservationSet.Conditions set))
                cache db Hr) as Hr1.
  destruct (fill_condition_ids cache db _) as [[cache1 db1] e1]. simpl in Hs, Hr1.
  intros Hf. rewrite ObservationSet_Insert_no_fault by auto. simpl.
  pose proof (fresh_id_pos (row_id <$> observation_sets (tables db1))) as Hpos.
  split_and!; [done|lia| |].
  - f_equal. apply list_fmap_ext. intros i c Hc. f_equal. apply Hz.
    by eapply list_elem_of_lookup_2.
  - intros Hin. apply list_elem_of_fmap in Hin as (r & E & Hin).
    by apply (Hr1 r Hin).
Qed.

(** An instance: the decoded set of the end-to-end example, on the empty
    store. *)
Lemma ObservationSet_Insert_after_FillConditionIDsInSet_witness :
  let '(_, db1, set1, _) :=
    ConditionCache_FillConditionIDsInSet ∅ empty_store set_decoded in
  let '(db2, set2, err) := ObservationSet_Insert db1 set1 false in
  err = None
  ∧ conditions (tables db2) = [Condition.mk 1 "icmp.unreachable"]
  ∧ observation_set_to_conditions (tables db2) = [(1, 0)].
Proof.
  pose proof (ObservationSet_Insert_after_FillConditionIDsInSet ∅ empty_store set_decoded
                eq_refl) as H.
  assert (Hd : (ConditionCache_FillConditionIDsInSet ∅ empty_store set_decoded).1.1.2
               = mkDB (mkTables [Condition.mk 1 "icmp.unreachable"] [] [] [] []) None 1)
    by (vm_compute; reflexivity).
  assert (Hs : (ConditionCache_FillConditionIDsInSet ∅ empty_store set_decoded).1.2
               = set_decoded)
    by apply ConditionCache_FillConditionIDsInSet_set_unchanged.
  destruct (ConditionCache_FillConditionIDsInSet ∅ empty_store set_decoded)
    as [[[cache1 db1] set1] err1].
  simpl in Hd, Hs. subst db1 set1.
  assert (H' := H (λ c Hc, ltac:(simpl in Hc; apply list_elem_of_singleton in Hc;
                                  by subst))
                  (λ c Hc, ltac:(simpl in Hc; inversion Hc)) eq_refl).
  clear H.
  destruct (ObservationSet_Insert _ set_decoded false) as [[db2 set2] err] eqn:E.
  destruct H' as (He & _ & _ & _). split; [exact He|].
  vm_compute in E. injection E as <- _ _. split; reflexivity.
Defined.

(** ** The earlier observation codec (orm.go) *)

Lemma Parse_Format_ISO8601 (t : Time.t) :
  valid_time t = true →
  Orm.Parse_ISO8601 (Orm.Format_ISO8601 t) = (whole_seconds t, None).
Proof.
  intros Hv. pose proof (valid_time_whole_seconds t Hv) as Hw.
  unfold valid_time in Hv. rewrite !andb_true_iff, !in_range_spec in Hv.
  destruct Hv as [[[[[[Hy Hmo] Hd] Hh] Hmi] Hs] Hn].
  assert (Hd' : 1 ≤ Time.day t ≤ 31).
  { unfold daysIn in Hd. repeat case_match; lia. }
  unfold Orm.Parse_ISO8601, Orm.Format_ISO8601, pad4, pad2. simpl.
  rewrite number4_pad by lia. rewrite !number2_pad by lia.
  fold (whole_seconds t). by rewrite Hw.
Qed.

(** A text in the layout of [orm.go] is no RFC 3339 text: it names no
    zone. *)
Lemma Parse_RFC3339_Format_ISO8601 (t : Time.t) :
  Parse_RFC3339 (Orm.Format_ISO8601 t)
  = (Time.zero, Some (ParseError (Orm.Format_ISO8601 t))).
Proof.
  unfold Parse_RFC3339. unfold Orm.Format_ISO8601 at 1. unfold pad4, pad2. simpl.
  reflexivity.
Qed.

Lemma string_of_uint_ascii (d : Decimal.uint) :
  Forall (λ b, (nat_of_ascii b < 128)%nat)
         (list_ascii_of_string (NilEmpty.string_of_uint d)).
Proof.
  induction d; simpl; [apply Forall_nil_2|..];
    (apply Forall_cons; split; [vm_compute; lia|exact IHd]).
Qed.

Lemma utf8_Valid_Itoa (n : Z) : utf8_Valid (Itoa n) = true.
Proof.
  unfold utf8_Valid, Itoa. apply valid_bytes_ascii.
  assert (H : ∀ d, Forall (λ b, (nat_of_ascii b < 128)%nat)
                          (list_ascii_of_string (NilZero.string_of_uint d))).
  { intros d. unfold NilZero.string_of_uint.
    destruct d; try apply (string_of_uint_ascii (_ _)).
    apply Forall_cons. split; [vm_compute; lia|apply Forall_nil_2]. }
  unfold NilZero.string_of_int. destruct (Z.to_int n) as [d|d]; [apply H|].
  simpl. apply Forall_cons. split; [vm_compute; lia|apply H].
Qed.

Lemma utf8_Valid_Format_ISO8601 (t : Time.t) :
  utf8_Valid (Orm.Format_ISO8601 t) = true.
Proof.
  unfold utf8_Valid. apply valid_bytes_ascii.
  unfold Orm.Format_ISO8601, pad4, pad2. simpl.
  repeat (apply Forall_cons; split; [first [apply digit_char_ascii|vm_compute; lia]|]).
  apply Forall_nil_2.
Qed.

(** X24.  The codec of [orm.go] round-trips.  Every observation with a
    path and a condition whose strings are valid UTF-8 and start and end in
    the range of the layout is written as five strings, or six when its
    value is not 0, and these, written by [json.Marshal] and read by
    [json.Unmarshal], are decoded without error to the same set id, path
    string and condition name, with the start and end cut to whole seconds
    and no ids.  Set id and value are written as decimal text, so every
    [int] comes back as it was.  As in [model.go], a line without a value
    leaves the receiver's value as it was. *)
Theorem Orm_Observation_UnmarshalJSON_MarshalJSON
  (R O : Observation.t) (p : Path.t) (c : Condition.t) :
  Observation.Path O = Some p →
  Observation.Condition O = Some c →
  utf8_Valid (Path.String p) = true →
  utf8_Valid (Condition.Name c) = true →
  valid_time (Observation.Start O) = true →
  valid_time (Observation.End_ O) = true →
  is_int (Observation.SetID O) →
  is_int (Observation.Value O) →
  ∃ jslice,
    Orm.Observation_MarshalJSON O = Some jslice
    ∧ (length jslice = 6%nat ↔ Observation.Value O ≠ 0)
    ∧ (length jslice = 5%nat ↔ Observation.Value O = 0)
    ∧ Orm.Observation_UnmarshalJSON R (wire_string <$> jslice)
      = (Observation.mk 0 (Observation.SetID O)
           (whole_seconds (Observation.Start O)) (whole_seconds (Observation.End_ O))
           (Observation.PathID R) (Some (Path.mk 0 (Path.String p)))
           (Observation.ConditionID R) (Some (Condition.mk 0 (Condition.Name c)))
           (if decide (Observation.Value O = 0) then Observation.Value R
            else Observation.Value O),
         None).
Proof.
  intros HP HC Vp Vc Hs He Hid Hv.
  unfold Orm.Observation_MarshalJSON. rewrite HP, HC. simpl.
  eexists. split; [reflexivity|].
  destruct (decide (Observation.Value O = 0)) as [E0|E0]; simpl;
    rewrite !wire_string_valid
      by (done || apply utf8_Valid_Itoa || apply utf8_Valid_Format_ISO8601).
  - split; [split; [discriminate|done]|]. split; [done|].
    rewrite (Atoi_Itoa _ Hid), !Parse_Format_ISO8601 by done. reflexivity.
  - split; [done|]. split; [split; [discriminate|done]|].
    rewrite (Atoi_Itoa _ Hid), (Atoi_Itoa _ Hv), !Parse_Format_ISO8601 by done.
    reflexivity.
Qed.

(** An instance: a set id above 2^53 comes back as it was. *)
Lemma Orm_Observation_UnmarshalJSON_MarshalJSON_witness :
  ∃ jslice O',
    Orm.Observation_MarshalJSON obs_large_set_id = Some jslice
    ∧ Orm.Observation_UnmarshalJSON Observation.zero (wire_string <$> jslice) = (O', None)
    ∧ Observation.SetID O' = 9007199254740993
    ∧ Observation.Value O' = 42.
Proof.
  destruct (Orm_Observation_UnmarshalJSON_MarshalJSON Observation.zero obs_large_set_id
              (Path.mk 0 "1.2.3.0/24") (Condition.mk 0 "icmp.unreachable")
              eq_refl eq_refl eq_refl eq_refl eq_refl eq_refl)
    as (jslice & Hm & _ & _ & Hu).
  - unfold is_int, MinInt, MaxInt. simpl. lia.
  - unfold is_int, MinInt, MaxInt. simpl. lia.
  - eexists jslice, _. split; [exact Hm|]. split; [exact Hu|]. split; reflexivity.
Defined.

Section OrmLines.
Context {U : Helpers}.

(** X25.  The codec of [model.go] does not read the lines of [orm.go]: a
    line written by [MarshalJSON] of [orm.go], its strings decoded as
    [model.go] has them (with an [AsString] that is the identity on
    strings), is refused by [UnmarshalJSON] of [model.go] with the parse
    error of its start, for the text names no zone. *)
Theorem Observation_UnmarshalJSON_refuses_orm_lines
  (R O : Observation.t) (jslice : list string) :
  (∀ s, AsString (JString s) = s) →
  Orm.Observation_MarshalJSON O = Some jslice →
  (Observation_UnmarshalJSON R (JString <$> jslice)).2
  = Some (ParseError (Orm.Format_ISO8601 (Observation.Start O))).
Proof.
  intros HAs. unfold Orm.Observation_MarshalJSON.
  destruct (Observation.Path O) as [p|]; simpl; [|done].
  destruct (Observation.Condition O) as [c|]; simpl; [|done].
  intros [= <-].
  destruct (decide (Observation.Value O = 0)); simpl;
    unfold Observation_UnmarshalJSON; rewrite !HAs;
    destruct (Atoi (Itoa (Observation.SetID O))) as [setid e0];
    by rewrite Parse_RFC3339_Format_ISO8601.
Qed.

End OrmLines.

(** An instance: the line [orm.go] writes for an observation with value
    42. *)
Lemma Observation_UnmarshalJSON_refuses_orm_lines_witness :
  ∃ jslice,
    Orm.Observation_MarshalJSON obs_valued = Some jslice
    ∧ (Observation_UnmarshalJSON (H := util) Observation.zero (JString <$> jslice)).2
      = Some (ParseError "2020-01-01T00:00:00").
Proof.
  eexists. split; [reflexivity|].
  apply (Observation_UnmarshalJSON_refuses_orm_lines (U := util) Observation.zero
           obs_valued _ (λ s, eq_refl) eq_refl).
Defined.
